(** * sprite-ts: a shallow embedding of [src/sprite.ts] and [src/types.ts]

    The library keeps one mutable [Sprite] object per on-screen element and
    drives its animations with [window.setInterval] timers.  The embedding
    makes every piece of state that the TypeScript code touches explicit:

    - the sprite object itself ([Sprite]);
    - the browser's table of live interval timers, each with the variables
      captured by the tick handler of [play] ([Closure]);
    - a small heap holding the playback log: the [playedAnimations] array and
      the record objects it refers to are JavaScript objects with identity,
      shared between the sprite and every array produced by [getMemory];
    - the clock read by [Date.now()];
    - a trace of the externally visible effects (console output, callback
      invocations, timer and DOM calls).

    Numbers are modelled as integers ([Z]): frame indices, pixel sizes,
    timestamps and numeric animation names are integral in every use the
    library documents. *)

From Stdlib Require Import ZArith String List DecimalString Lia.
From stdpp Require Import base option list gmap strings.

Local Open Scope Z_scope.

(** ** JavaScript values *)

(** [String(n)] for an integral number. *)
Definition string_of_Z (z : Z) : string := NilZero.string_of_int (Z.to_int z).

(** Truthiness of the value kinds that the code tests with [if (x)],
    [!x] or [x || y]. *)
Definition truthy_string (s : string) : bool :=
  match s with EmptyString => false | String _ _ => true end.

Definition truthy_num (z : Z) : bool := negb (z =? 0).

Definition truthy_opt_string (o : option string) : bool :=
  match o with Some s => truthy_string s | None => false end.

(** [a || b] where [a] is an optional number and [b] a number. *)
Definition or_num (a : option Z) (b : Z) : Z :=
  match a with
  | Some x => if truthy_num x then x else b
  | None => b
  end.

(** [a || b] on optional strings ([undefined] is [None]). *)
Definition or_string (a b : option string) : option string :=
  if truthy_opt_string a then a else b.

(** Animation names have type [string | number] ([types.ts], SpriteAnimation). *)
Inductive AnimName :=
  | NameStr (s : string)
  | NameNum (n : Z).

Global Instance AnimName_eq_dec : EqDecision AnimName.
Proof. solve_decision. Defined.

(** [String(name)]. *)
Definition String_of_name (n : AnimName) : string :=
  match n with
  | NameStr s => s
  | NameNum z => string_of_Z z
  end.

(** [if (name)] for [name?: string | number]. *)
Definition truthy_name (n : option AnimName) : bool :=
  match n with
  | Some (NameStr s) => truthy_string s
  | Some (NameNum z) => truthy_num z
  | None => false
  end.

(** ** Insertion-ordered maps and sets

    A JavaScript [Map] iterates in insertion order; [keys().next().value] and
    [forEach] depend on it, so a [Map<string, V>] is an association list.
    [set] on a present key replaces the value in place, on a fresh key it
    appends. *)
Section JsMap.
Context {V : Type}.

Fixpoint Map_get (k : string) (m : list (string * V)) : option V :=
  match m with
  | [] => None
  | (k', v) :: m' => if decide (k' = k) then Some v else Map_get k m'
  end.

Definition Map_has (k : string) (m : list (string * V)) : bool :=
  match Map_get k m with Some _ => true | None => false end.

Fixpoint Map_set (k : string) (v : V) (m : list (string * V))
  : list (string * V) :=
  match m with
  | [] => [(k, v)]
  | (k', v') :: m' =>
      if decide (k' = k) then (k, v) :: m' else (k', v') :: Map_set k v m'
  end.

Fixpoint Map_delete (k : string) (m : list (string * V))
  : list (string * V) :=
  match m with
  | [] => []
  | (k', v) :: m' =>
      if decide (k' = k) then Map_delete k m' else (k', v) :: Map_delete k m'
  end.

Definition Map_keys (m : list (string * V)) : list string := map fst m.

Definition Map_values (m : list (string * V)) : list V := map snd m.

(** [m.keys().next().value] and [m.values().next().value]. *)
Definition Map_first_key (m : list (string * V)) : option string :=
  head (Map_keys m).

Definition Map_first_value (m : list (string * V)) : option V :=
  head (Map_values m).
End JsMap.

(** A [Set] of callbacks: [add] ignores a member that is already present. *)
Definition Set_add {A} `{EqDecision A} (x : A) (s : list A) : list A :=
  if bool_decide (x ∈ s) then s else s ++ [x].

Definition Set_delete {A} `{EqDecision A} (x : A) (s : list A) : list A :=
  filter (λ y, y ≠ x) s.

(** ** Data model ([types.ts]) *)

Record SpriteSheet := mkSheet {
  sheet_spritesheet : string;
  sheet_columns : Z;
  sheet_rows : Z;
  sheet_cells : list string;
  sheet_width : Z;
  sheet_height : Z;
}.

Record SpriteAnimation := mkAnim {
  anim_name : AnimName;
  anim_start : Z;
  anim_end : Z;
  anim_frames : list Z;
  anim_speed : Z;
  anim_stopped : bool;
  anim_loop : bool;
  anim_spritesheet : option string;
}.

Record SpriteAnimationOptions := mkAnimOpts {
  ao_name : AnimName;
  ao_start : option Z;
  ao_end : option Z;
  ao_frames : option (list Z);
  ao_speed : option Z;
  ao_loop : option bool;
  ao_spritesheet : option string;
}.

(** One entry of [SpriteMemory.playedAnimations]. *)
Record PlayedAnimation := mkPlayed {
  pa_name : string;
  pa_timestamp : Z;
  pa_length : Z;
  pa_looped : bool;
}.

(** An end-callback is a zero-argument function of the caller: it has an
    identity and it either returns or throws.  What a call of it does to
    the sprite and to the page is not part of this record: [invoke] below
    is the call of a callback that touches neither, [invoke_with] takes
    the effect of the callbacks as a function. *)
Record Callback := mkCallback {
  cb_id : nat;
  cb_throws : bool;
}.

Global Instance Callback_eq_dec : EqDecision Callback.
Proof. solve_decision. Defined.

(** Heap locations of arrays and of playback records. *)
Definition loc := nat.

(** Timer handles.  [window.setInterval] returns an integer greater than
    zero, so the test [if (interval)] in [stop] is the presence test. *)
Definition handle := positive.

Record Sprite := mkSprite {
  sp_name : string;
  sp_width : Z;
  sp_height : Z;
  (** [element.style.background]; the element itself lives in the DOM. *)
  sp_background : option string;
  sp_spritesheets : list (string * SpriteSheet);
  sp_animations : list SpriteAnimation;
  sp_activeIntervals : list (string * handle);
  sp_animationCallbacks : list (string * list Callback);
  (** [memory.playedAnimations]: the location of the array object. *)
  sp_playedAnimations : loc;
  sp_currentFrame : option Z;
  sp_currentSpritesheetId : option string;
  sp_lastPlayedAnimation : option string;
  sp_help : bool;
}.

Record SpriteOptions := mkSpriteOpts {
  so_name : string;
  so_width : Z;
  so_height : Z;
  so_help : option bool;
}.

Record SheetOptions := mkSheetOpts {
  sh_columns : option Z;
  sh_rows : option Z;
  sh_cellWidth : option Z;
  sh_cellHeight : option Z;
  sh_cellSize : option Z;
  sh_id : option string;
}.

(** The variables captured by the tick handler that [play] hands to
    [setInterval].  [animation.frames] and the resolved [spritesheet] are
    never mutated after they are built, so the handler's references to
    those objects are represented by their contents; [frameIndex] is the
    handler's own mutable cursor. *)
Record Closure := mkClosure {
  tk_animationName : AnimName;
  tk_frames : list Z;
  tk_spritesheet : SpriteSheet;
  tk_shouldLoop : bool;
  tk_frameIndex : nat;
  tk_speed : Z;
}.

(** Effects that leave the sprite object. *)
Inductive Event :=
  | EvLog                              (* console.log, help mode only *)
  | EvError (operation : string)       (* console.error *)
  | EvCallback (cb : Callback)         (* an end-callback is called *)
  | EvSetInterval (id : handle) (ms : Z)
  | EvClearInterval (id : handle)
  | EvCreateElement                    (* document.createElement *)
  | EvRemoveElement.                   (* element.remove() *)

Global Instance Event_eq_dec : EqDecision Event.
Proof. solve_decision. Defined.

(** Everything around the sprite object. *)
Record Env := mkEnv {
  e_timers : gmap handle Closure;
  e_arrays : gmap loc (list loc);
  e_records : gmap loc PlayedAnimation;
  e_now : Z;
  e_trace : list Event;
}.

Record World := mkWorld {
  w_sprite : Sprite;
  w_env : Env;
}.

(** ** State plumbing *)

Definition with_sprite (f : Sprite → Sprite) (w : World) : World :=
  mkWorld (f (w_sprite w)) (w_env w).

Definition with_env (f : Env → Env) (w : World) : World :=
  mkWorld (w_sprite w) (f (w_env w)).

Definition emit (ev : Event) (e : Env) : Env :=
  mkEnv (e_timers e) (e_arrays e) (e_records e) (e_now e) (e_trace e ++ [ev]).

Definition set_timers (t : gmap handle Closure) (e : Env) : Env :=
  mkEnv t (e_arrays e) (e_records e) (e_now e) (e_trace e).

Definition set_arrays (a : gmap loc (list loc)) (e : Env) : Env :=
  mkEnv (e_timers e) a (e_records e) (e_now e) (e_trace e).

Definition set_records (r : gmap loc PlayedAnimation) (e : Env) : Env :=
  mkEnv (e_timers e) (e_arrays e) r (e_now e) (e_trace e).

(** Time passes between two calls into the library, never inside one. *)
Definition advance_clock (dt : Z) (w : World) : World :=
  with_env (λ e, mkEnv (e_timers e) (e_arrays e) (e_records e)
                       (e_now e + dt) (e_trace e)) w.

Definition set_background (b : option string) (s : Sprite) : Sprite :=
  mkSprite (sp_name s) (sp_width s) (sp_height s) b (sp_spritesheets s)
    (sp_animations s) (sp_activeIntervals s) (sp_animationCallbacks s)
    (sp_playedAnimations s) (sp_currentFrame s) (sp_currentSpritesheetId s)
    (sp_lastPlayedAnimation s) (sp_help s).

Definition set_spritesheets (m : list (string * SpriteSheet)) (s : Sprite)
  : Sprite :=
  mkSprite (sp_name s) (sp_width s) (sp_height s) (sp_background s) m
    (sp_animations s) (sp_activeIntervals s) (sp_animationCallbacks s)
    (sp_playedAnimations s) (sp_currentFrame s) (sp_currentSpritesheetId s)
    (sp_lastPlayedAnimation s) (sp_help s).

Definition set_animations (l : list SpriteAnimation) (s : Sprite) : Sprite :=
  mkSprite (sp_name s) (sp_width s) (sp_height s) (sp_background s)
    (sp_spritesheets s) l (sp_activeIntervals s) (sp_animationCallbacks s)
    (sp_playedAnimations s) (sp_currentFrame s) (sp_currentSpritesheetId s)
    (sp_lastPlayedAnimation s) (sp_help s).

Definition set_activeIntervals (m : list (string * handle)) (s : Sprite)
  : Sprite :=
  mkSprite (sp_name s) (sp_width s) (sp_height s) (sp_background s)
    (sp_spritesheets s) (sp_animations s) m (sp_animationCallbacks s)
    (sp_playedAnimations s) (sp_currentFrame s) (sp_currentSpritesheetId s)
    (sp_lastPlayedAnimation s) (sp_help s).

Definition set_animationCallbacks (m : list (string * list Callback))
  (s : Sprite) : Sprite :=
  mkSprite (sp_name s) (sp_width s) (sp_height s) (sp_background s)
    (sp_spritesheets s) (sp_animations s) (sp_activeIntervals s) m
    (sp_playedAnimations s) (sp_currentFrame s) (sp_currentSpritesheetId s)
    (sp_lastPlayedAnimation s) (sp_help s).

Definition set_currentFrame (f : option Z) (s : Sprite) : Sprite :=
  mkSprite (sp_name s) (sp_width s) (sp_height s) (sp_background s)
    (sp_spritesheets s) (sp_animations s) (sp_activeIntervals s)
    (sp_animationCallbacks s) (sp_playedAnimations s) f
    (sp_currentSpritesheetId s) (sp_lastPlayedAnimation s) (sp_help s).

Definition set_currentSpritesheetId (i : option string) (s : Sprite)
  : Sprite :=
  mkSprite (sp_name s) (sp_width s) (sp_height s) (sp_background s)
    (sp_spritesheets s) (sp_animations s) (sp_activeIntervals s)
    (sp_animationCallbacks s) (sp_playedAnimations s) (sp_currentFrame s) i
    (sp_lastPlayedAnimation s) (sp_help s).

Definition set_lastPlayedAnimation (n : option string) (s : Sprite)
  : Sprite :=
  mkSprite (sp_name s) (sp_width s) (sp_height s) (sp_background s)
    (sp_spritesheets s) (sp_animations s) (sp_activeIntervals s)
    (sp_animationCallbacks s) (sp_playedAnimations s) (sp_currentFrame s)
    (sp_currentSpritesheetId s) n (sp_help s).

(** ** Logging *)

(** [log]: writes to the console only in help mode. *)
Definition log (w : World) : World :=
  if sp_help (w_sprite w) then with_env (emit EvLog) w else w.

(** [logError]: always writes to the console. *)
Definition logError (operation : string) (w : World) : World :=
  with_env (emit (EvError operation)) w.

(** ** createSprite *)

(** [document.createElement] is the one step of [createSprite] that can
    throw; [dom_ok] says whether it succeeds.  The new sprite's
    [memory.playedAnimations] is a freshly allocated empty array. *)
Definition createSprite (dom_ok : bool) (options : SpriteOptions) (e : Env)
  : option Sprite * Env :=
  let name := so_name options in
  let width := so_width options in
  let height := so_height options in
  let help := default false (so_help options) in
  if negb (truthy_string name) then (None, emit (EvError "createSprite") e)
  else if negb (truthy_num width) || (width <=? 0)
  then (None, emit (EvError "createSprite") e)
  else if negb (truthy_num height) || (height <=? 0)
  then (None, emit (EvError "createSprite") e)
  else if dom_ok then
    let e1 := emit EvCreateElement e in
    let a := fresh (dom (e_arrays e1)) in
    let e2 := set_arrays (<[a := []]> (e_arrays e1)) e1 in
    let sprite :=
      mkSprite name width height None [] [] [] [] a None None None help in
    (Some sprite, if help then emit EvLog e2 else e2)
  else (None, emit (EvError "createSprite") e).

(** ** Spritesheets *)

(** The CSS text of one cell: [url('<sheet>') <x>px <y>px]. *)
Definition cell_css (url : string) (x y : Z) : string :=
  ("url('" ++ url ++ "') " ++ string_of_Z x ++ "px "
     ++ string_of_Z y ++ "px")%string.

(** The integers [0, 1, ..., n-1] visited by [for (let i = 0; i < n; i++)]. *)
Definition upto (n : Z) : list Z := map Z.of_nat (seq 0 (Z.to_nat n)).

(** [createSpriteCells]: the outer loop runs over rows, the inner one over
    columns, each pushing one descriptor. *)
Definition createSpriteCells (sheet : SpriteSheet) : list string :=
  flat_map
    (λ row,
       map (λ col,
              let x := - (col * sheet_width sheet) in
              let y := - (row * sheet_height sheet) in
              cell_css (sheet_spritesheet sheet) x y)
           (upto (sheet_columns sheet)))
    (upto (sheet_rows sheet)).

(** [addSheet].  The awaited image load is the environment's answer
    [image]: [Some (naturalWidth, naturalHeight)], or [None] when the load
    is rejected.  [generated_id] is the default id that the code builds from
    the clock and a random number.  [Math.floor (a / b)] is [a / b] on [Z]
    for a non-zero [b]; the cell sizes are never zero for a sprite made by
    [createSprite], whose width and height are positive. *)
Definition addSheet (w : World) (url : string) (options : SheetOptions)
  (image : option (Z * Z)) (generated_id : string) : option string * World :=
  let id := default generated_id (sh_id options) in
  match image with
  | None => (None, logError "addSheet" w)
  | Some (dw, dh) =>
      let sprite := w_sprite w in
      let finalCellWidth :=
        or_num (sh_cellSize options)
               (or_num (sh_cellWidth options) (sp_width sprite)) in
      let finalCellHeight :=
        or_num (sh_cellSize options)
               (or_num (sh_cellHeight options) (sp_height sprite)) in
      let calculatedColumns :=
        or_num (sh_columns options) (dw / finalCellWidth) in
      let calculatedRows :=
        or_num (sh_rows options) (dh / finalCellHeight) in
      if (calculatedColumns <=? 0) || (calculatedRows <=? 0)
      then (None, logError "addSheet" w)
      else
        let spritesheet0 :=
          mkSheet url calculatedColumns calculatedRows []
                  finalCellWidth finalCellHeight in
        let spritesheet :=
          mkSheet url calculatedColumns calculatedRows
                  (createSpriteCells spritesheet0)
                  finalCellWidth finalCellHeight in
        let w1 :=
          with_sprite
            (λ s, set_spritesheets
                    (Map_set id spritesheet (sp_spritesheets s)) s) w in
        let w2 :=
          if negb (truthy_opt_string (sp_currentSpritesheetId (w_sprite w1)))
          then with_sprite (set_currentSpritesheetId (Some id)) w1
          else w1 in
        (Some id, log w2)
  end.

(** [removeSheet]. *)
Definition removeSheet (w : World) (id : string) : bool * World :=
  let removed := Map_has id (sp_spritesheets (w_sprite w)) in
  let w0 :=
    with_sprite
      (λ s, set_spritesheets (Map_delete id (sp_spritesheets s)) s) w in
  if removed then
    let w1 := log w0 in
    if decide (sp_currentSpritesheetId (w_sprite w1) = Some id) then
      let nextId := Map_first_key (sp_spritesheets (w_sprite w1)) in
      (true,
       with_sprite (set_currentSpritesheetId (or_string nextId None)) w1)
    else (true, w1)
  else (false, w0).

(** [getSheet]. *)
Definition getSheet (sprite : Sprite) (id : option string)
  : option SpriteSheet :=
  let targetId :=
    or_string id
      (or_string (sp_currentSpritesheetId sprite)
                 (Map_first_key (sp_spritesheets sprite))) in
  match targetId with
  | Some t =>
      if truthy_string t then Map_get t (sp_spritesheets sprite) else None
  | None => None
  end.

Definition getSheets (sprite : Sprite) : list SpriteSheet :=
  Map_values (sp_spritesheets sprite).

Definition hasSheet (sprite : Sprite) (id : option string) : bool :=
  match id with
  | Some i =>
      if truthy_string i then Map_has i (sp_spritesheets sprite)
      else bool_decide (0 < length (sp_spritesheets sprite))%nat
  | None => bool_decide (0 < length (sp_spritesheets sprite))%nat
  end.

(** ** Animations *)

(** [sprite.animations.find((anim) => anim.name === name)], with the
    position of the object found: later writes to [animation.stopped] go
    to that element of the array. *)
Definition find_animation (name : AnimName) (l : list SpriteAnimation)
  : option (nat * SpriteAnimation) :=
  list_find (λ anim, anim_name anim = name) l.

Definition set_stopped (b : bool) (a : SpriteAnimation) : SpriteAnimation :=
  mkAnim (anim_name a) (anim_start a) (anim_end a) (anim_frames a)
         (anim_speed a) b (anim_loop a) (anim_spritesheet a).

(** [validateFrameIndex]. *)
Definition validateFrameIndex (index : Z) (sheet : SpriteSheet) : bool :=
  let maxIndex := Z.of_nat (length (sheet_cells sheet)) - 1 in
  (0 <=? index) && (index <=? maxIndex).

(** How a call of [addAnimation] ends: it returns a boolean, or the
    [RangeError] of [Array.from] leaves it, which nothing in the library
    catches. *)
Inductive Completion :=
  | Returned (result : bool)
  | RangeError.

Global Instance Completion_eq_dec : EqDecision Completion.
Proof. solve_decision. Defined.

(** [Array.from({ length: end - start + 1 }, (_, i) => start + i)].  A
    length that is not positive gives the empty array.  A length of 2^32
    or more is not an array length: [Array.from] throws a [RangeError],
    which is [None] here. *)
Definition sequential_frames (start end_ : Z) : option (list Z) :=
  if 2 ^ 32 <=? end_ - start + 1 then None
  else Some (map (λ i, start + i) (upto (end_ - start + 1))).

(** The three outcomes of building [animationFrames]. *)
Inductive FrameList :=
  | Frames (frames : list Z)   (* the list was built *)
  | Unspecified                (* neither [frames] nor [end] is given *)
  | TooLong.                   (* [Array.from] throws *)

(** The frame list that [addAnimation] builds: the explicit [frames]
    (copied; an array is truthy even when empty), else the run from
    [start] to [end], else nothing. *)
Definition animation_frames (animation : SpriteAnimationOptions)
  : FrameList :=
  let start := default 0 (ao_start animation) in
  match ao_frames animation with
  | Some frames => Frames frames
  | None =>
      match ao_end animation with
      | Some end_ =>
          match sequential_frames start end_ with
          | Some frames => Frames frames
          | None => TooLong
          end
      | None => Unspecified
      end
  end.

(** [spritesheet ? sprite.spritesheets.get(spritesheet) : getSheet(sprite)]. *)
Definition target_sheet (sprite : Sprite) (spritesheet : option string)
  : option SpriteSheet :=
  match spritesheet with
  | Some id =>
      if truthy_string id then Map_get id (sp_spritesheets sprite)
      else getSheet sprite None
  | None => getSheet sprite None
  end.

(** [addAnimation].  The frame list is built right after the test for a
    known name and before every other check; when [Array.from] throws
    there, the call ends without having written or logged anything. *)
Definition addAnimation (w : World) (animation : SpriteAnimationOptions)
  : Completion * World :=
  let sprite := w_sprite w in
  let name := ao_name animation in
  let start := default 0 (ao_start animation) in
  let speed := default 100 (ao_speed animation) in
  let loop := default false (ao_loop animation) in
  let spritesheet := ao_spritesheet animation in
  match find_animation name (sp_animations sprite) with
  | Some _ => (Returned false, logError "addAnimation" w)
  | None =>
      match animation_frames animation with
      | TooLong => (RangeError, w)
      | Unspecified => (Returned false, logError "addAnimation" w)
      | Frames animationFrames =>
          match target_sheet sprite spritesheet with
          | None => (Returned false, logError "addAnimation" w)
          | Some targetSheet =>
              let maxFrame :=
                Z.of_nat (length (sheet_cells targetSheet)) - 1 in
              let invalidFrames :=
                filter (λ frame, frame < 0 ∨ frame > maxFrame)
                       animationFrames in
              if bool_decide (0 < length invalidFrames)%nat
              then (Returned false, logError "addAnimation" w)
              else
                let newAnimation :=
                  mkAnim name start
                    (or_num (ao_end animation)
                       (start + Z.of_nat (length animationFrames) - 1))
                    animationFrames speed true loop
                    (if truthy_opt_string spritesheet
                     then spritesheet else None) in
                (Returned true,
                 log (with_sprite
                        (λ s, set_animations
                                (sp_animations s ++ [newAnimation]) s) w))
          end
      end
  end.

(** [getSpriteSheetForAnimation]. *)
Definition getSpriteSheetForAnimation (sprite : Sprite)
  (animation : SpriteAnimation) : option SpriteSheet :=
  if truthy_opt_string (anim_spritesheet animation) then
    match anim_spritesheet animation with
    | Some id => Map_get id (sp_spritesheets sprite)
    | None => None
    end
  else
    match sp_currentSpritesheetId sprite with
    | Some cur =>
        if truthy_string cur && Map_has cur (sp_spritesheets sprite)
        then Map_get cur (sp_spritesheets sprite)
        else Map_first_value (sp_spritesheets sprite)
    | None => Map_first_value (sp_spritesheets sprite)
    end.

(** ** The playback log on the heap *)

(** The record objects referred to by the sprite's [playedAnimations]. *)
Definition log_refs (w : World) : list loc :=
  default [] (e_arrays (w_env w) !! sp_playedAnimations (w_sprite w)).

(** [playedAnimations.find((pa) => pa.name === nameStr && !pa.length)]:
    the first reference, in array order, whose record matches. *)
Definition unfinished (nameStr : string) (pa : PlayedAnimation) : bool :=
  bool_decide (pa_name pa = nameStr) && negb (truthy_num (pa_length pa)).

Fixpoint find_played (nameStr : string)
  (records : gmap loc PlayedAnimation) (refs : list loc)
  : option (loc * PlayedAnimation) :=
  match refs with
  | [] => None
  | r :: refs' =>
      match records !! r with
      | Some pa =>
          if unfinished nameStr pa then Some (r, pa)
          else find_played nameStr records refs'
      | None => find_played nameStr records refs'
      end
  end.

Definition set_length (len : Z) (pa : PlayedAnimation) : PlayedAnimation :=
  mkPlayed (pa_name pa) (pa_timestamp pa) len (pa_looped pa).

(** The log as the sequence of records that the sprite's array shows. *)
Definition playedAnimations (w : World) : list PlayedAnimation :=
  omap (λ r, e_records (w_env w) !! r) (log_refs w).

(** ** stop *)

(** One end-callback inside [callbacks.forEach], for a callback that
    touches neither the sprite nor the page (one that only logs, say):
    the call, and the [logError] of the [catch] block when it throws.
    [stop_named], [stop], [play] and [tick] below are written with such
    callbacks; [invoke_with] and the definitions that follow [tick] take
    the effect of the callbacks as a parameter. *)
Definition invoke (w : World) (cb : Callback) : World :=
  let w1 := with_env (emit (EvCallback cb)) w in
  if cb_throws cb then logError "stop" w1 else w1.

(** The branch of [stop] taken when [name] is truthy. *)
Definition stop_named (w : World) (name : AnimName) : World :=
  let nameStr := String_of_name name in
  let w1 :=
    match Map_get nameStr (sp_activeIntervals (w_sprite w)) with
    | Some interval =>
        let wc :=
          with_env
            (λ e, emit (EvClearInterval interval)
                    (set_timers (delete interval (e_timers e)) e)) w in
        with_sprite
          (λ s, set_activeIntervals
                  (Map_delete nameStr (sp_activeIntervals s)) s) wc
    | None => w
    end in
  let w2 :=
    match find_animation name (sp_animations (w_sprite w1)) with
    | Some (i, _) =>
        let wa :=
          with_sprite
            (λ s, set_animations
                    (alter (set_stopped true) i (sp_animations s)) s) w1 in
        let wb :=
          match find_played nameStr (e_records (w_env wa)) (log_refs wa) with
          | Some (r, playedAnim) =>
              with_env
                (λ e, set_records
                        (<[r := set_length
                                  (e_now e - pa_timestamp playedAnim)
                                  playedAnim]> (e_records e)) e) wa
          | None => wa
          end in
        match Map_get nameStr (sp_animationCallbacks (w_sprite wb)) with
        | Some callbacks => foldl invoke wb callbacks
        | None => wb
        end
    | None => w1
    end in
  log w2.

(** [Map.prototype.forEach] over [activeIntervals] while the visitor
    deletes entries: keys are visited in insertion order, and a key that
    has been deleted before its turn is skipped.  (The visitor never adds
    a key.)  [None] propagates a visitor that did not return. *)
Fixpoint forEach_active (visit : World → string → option World)
  (keys : list string) (w : World) : option World :=
  match keys with
  | [] => Some w
  | animName :: keys' =>
      if Map_has animName (sp_activeIntervals (w_sprite w)) then
        match visit w animName with
        | Some w' => forEach_active visit keys' w'
        | None => None
        end
      else forEach_active visit keys' w
  end.

(** [stop].  The stop-all branch calls [stop] again for every active key,
    and such a key can be falsy itself (the empty string), in which case
    the nested call takes the stop-all branch once more.  [fuel] bounds
    the depth of these nested calls; [None] stands for a call that does
    not return because the call stack is exhausted. *)
Fixpoint stop (fuel : nat) (w : World) (name : option AnimName)
  : option World :=
  match fuel with
  | O => None
  | S fuel' =>
      let stop_all :=
        match
          forEach_active (λ w' animName,
                            stop fuel' w' (Some (NameStr animName)))
            (Map_keys (sp_activeIntervals (w_sprite w))) w
        with
        | Some w' => Some (log w')
        | None => None
        end in
      match name with
      | Some n => if truthy_name name then Some (stop_named w n) else stop_all
      | None => stop_all
      end
  end.

(** ** play and the tick handler *)

(** The statements of [play] that follow its call to [stop]: [w1] is the
    state that [stop] left, [animation] the object found at position [i]
    of [sprite.animations], [spritesheet] the sheet resolved for it.  The
    handler given to [setInterval] is stored in the timer table under the
    fresh handle, with its cursor at 0. *)
Definition start_playback (w1 : World) (animationName : AnimName)
  (loop : option bool) (i : nat) (animation : SpriteAnimation)
  (spritesheet : SpriteSheet) : World :=
  let w2 :=
    with_sprite
      (λ s, set_animations
              (alter (set_stopped false) i (sp_animations s)) s) w1 in
  let shouldLoop := default (anim_loop animation) loop in
  let nameStr := String_of_name animationName in
  let w3 := with_sprite (set_lastPlayedAnimation (Some nameStr)) w2 in
  let r := fresh (dom (e_records (w_env w3))) in
  let record := mkPlayed nameStr (e_now (w_env w3)) 0 shouldLoop in
  let w4 :=
    with_env
      (λ e, set_arrays
              (<[sp_playedAnimations (w_sprite w3) := log_refs w3 ++ [r]]>
                 (e_arrays e))
              (set_records (<[r := record]> (e_records e)) e)) w3 in
  let w5 := log w4 in
  let intervalId := fresh (dom (e_timers (w_env w5))) in
  let handler :=
    mkClosure animationName (anim_frames animation) spritesheet
              shouldLoop 0%nat (anim_speed animation) in
  let w6 :=
    with_env
      (λ e, emit (EvSetInterval intervalId (anim_speed animation))
              (set_timers (<[intervalId := handler]> (e_timers e)) e)) w5 in
  with_sprite
    (λ s, set_activeIntervals
            (Map_set nameStr intervalId (sp_activeIntervals s)) s) w6.

(** [play]. *)
Definition play (fuel : nat) (w : World) (animationName : AnimName)
  (loop : option bool) : option (bool * World) :=
  match find_animation animationName (sp_animations (w_sprite w)) with
  | None => Some (false, logError "play" w)
  | Some (i, animation) =>
      match getSpriteSheetForAnimation (w_sprite w) animation with
      | None => Some (false, logError "play" w)
      | Some spritesheet =>
          match stop fuel w (Some animationName) with
          | None => None
          | Some w1 =>
              Some (true,
                    start_playback w1 animationName loop i animation
                                   spritesheet)
          end
      end
  end.

Definition set_frameIndex (i : nat) (c : Closure) : Closure :=
  mkClosure (tk_animationName c) (tk_frames c) (tk_spritesheet c)
            (tk_shouldLoop c) i (tk_speed c).

(** One firing of the interval [id]: the body of the arrow function in
    [play].  A handle that is not live never fires. *)
Definition tick (fuel : nat) (w : World) (id : handle) : option World :=
  match e_timers (w_env w) !! id with
  | None => Some w
  | Some c =>
      let invalid :=
        stop fuel (logError "play" w) (Some (tk_animationName c)) in
      match tk_frames c !! tk_frameIndex c with
      | None => invalid
      | Some currentFrameNumber =>
          if negb (validateFrameIndex currentFrameNumber (tk_spritesheet c))
          then invalid
          else
            let w1 :=
              with_sprite
                (λ s, set_currentFrame (Some currentFrameNumber)
                        (set_background
                           (sheet_cells (tk_spritesheet c)
                              !! Z.to_nat currentFrameNumber) s)) w in
            let frameIndex := S (tk_frameIndex c) in
            let store i w' :=
              with_env
                (λ e, set_timers
                        (<[id := set_frameIndex i c]> (e_timers e)) e) w' in
            if bool_decide (length (tk_frames c) ≤ frameIndex)%nat then
              if tk_shouldLoop c then Some (store 0%nat w1)
              else
                match stop fuel (store frameIndex w1)
                        (Some (tk_animationName c)) with
                | Some w2 => Some (log w2)
                | None => None
                end
            else Some (store frameIndex w1)
      end
  end.

(** ** End-callbacks that use the library

    An end-callback may do more than log.  The README registers one that
    calls [play(sprite, 'idle')] when 'attack' ends, so that a [stop] of
    'attack' starts a timer.  In the definitions below [body cb w] is the
    state in which the call [cb()], made in state [w], ends, whether it
    returns or throws; [invoke] above is the case [body cb w = w].  They
    follow the branch of [stop] for a truthy name, and [play] and the
    tick handler for a truthy animation name, whose calls to [stop] take
    that branch.  [callbacks.forEach] is taken over the set as it is when
    the loop starts: a callback that registers or unregisters callbacks of
    the animation that is being stopped is not covered. *)

Definition invoke_with (body : Callback → World → World) (w : World)
  (cb : Callback) : World :=
  let w1 := body cb (with_env (emit (EvCallback cb)) w) in
  if cb_throws cb then logError "stop" w1 else w1.

Definition stop_named_with (body : Callback → World → World) (w : World)
  (name : AnimName) : World :=
  let nameStr := String_of_name name in
  let w1 :=
    match Map_get nameStr (sp_activeIntervals (w_sprite w)) with
    | Some interval =>
        let wc :=
          with_env
            (λ e, emit (EvClearInterval interval)
                    (set_timers (delete interval (e_timers e)) e)) w in
        with_sprite
          (λ s, set_activeIntervals
                  (Map_delete nameStr (sp_activeIntervals s)) s) wc
    | None => w
    end in
  let w2 :=
    match find_animation name (sp_animations (w_sprite w1)) with
    | Some (i, _) =>
        let wa :=
          with_sprite
            (λ s, set_animations
                    (alter (set_stopped true) i (sp_animations s)) s) w1 in
        let wb :=
          match find_played nameStr (e_records (w_env wa)) (log_refs wa) with
          | Some (r, playedAnim) =>
              with_env
                (λ e, set_records
                        (<[r := set_length
                                  (e_now e - pa_timestamp playedAnim)
                                  playedAnim]> (e_records e)) e) wa
          | None => wa
          end in
        match Map_get nameStr (sp_animationCallbacks (w_sprite wb)) with
        | Some callbacks => foldl (invoke_with body) wb callbacks
        | None => wb
        end
    | None => w1
    end in
  log w2.

(** [play] for a truthy [animationName]. *)
Definition play_with (body : Callback → World → World) (w : World)
  (animationName : AnimName) (loop : option bool) : bool * World :=
  match find_animation animationName (sp_animations (w_sprite w)) with
  | None => (false, logError "play" w)
  | Some (i, animation) =>
      match getSpriteSheetForAnimation (w_sprite w) animation with
      | None => (false, logError "play" w)
      | Some spritesheet =>
          (true,
           start_playback (stop_named_with body w animationName)
                          animationName loop i animation spritesheet)
      end
  end.

(** One firing of the interval [id] when the name that its handler
    captured is truthy. *)
Definition tick_with (body : Callback → World → World) (w : World)
  (id : handle) : World :=
  match e_timers (w_env w) !! id with
  | None => w
  | Some c =>
      let invalid :=
        stop_named_with body (logError "play" w) (tk_animationName c) in
      match tk_frames c !! tk_frameIndex c with
      | None => invalid
      | Some currentFrameNumber =>
          if negb (validateFrameIndex currentFrameNumber (tk_spritesheet c))
          then invalid
          else
            let w1 :=
              with_sprite
                (λ s, set_currentFrame (Some currentFrameNumber)
                        (set_background
                           (sheet_cells (tk_spritesheet c)
                              !! Z.to_nat currentFrameNumber) s)) w in
            let frameIndex := S (tk_frameIndex c) in
            let store i w' :=
              with_env
                (λ e, set_timers
                        (<[id := set_frameIndex i c]> (e_timers e)) e) w' in
            if bool_decide (length (tk_frames c) ≤ frameIndex)%nat then
              if tk_shouldLoop c then store 0%nat w1
              else
                log (stop_named_with body (store frameIndex w1)
                                     (tk_animationName c))
            else store frameIndex w1
      end
  end.

(** ** setFrame *)

Definition setFrame (w : World) (index : Z) (spritesheetId : option string)
  : bool * World :=
  let sprite := w_sprite w in
  let targetSpritesheetId :=
    or_string spritesheetId (sp_currentSpritesheetId sprite) in
  match targetSpritesheetId with
  | None => (false, logError "setFrame" w)
  | Some target =>
      if negb (truthy_string target) then (false, logError "setFrame" w)
      else
        match Map_get target (sp_spritesheets sprite) with
        | None => (false, logError "setFrame" w)
        | Some spritesheet =>
            if negb (validateFrameIndex index spritesheet)
            then (false, logError "setFrame" w)
            else
              (true,
               log (with_sprite
                      (λ s, set_currentSpritesheetId (Some target)
                              (set_currentFrame (Some index)
                                 (set_background
                                    (sheet_cells spritesheet
                                       !! Z.to_nat index) s))) w))
        end
  end.

Definition getCurrentFrame (sprite : Sprite) : option Z :=
  sp_currentFrame sprite.

Definition getCurrentSheet (sprite : Sprite) : option string :=
  sp_currentSpritesheetId sprite.

(** ** appendTo *)

(** [parent_ok]: the argument is an [HTMLElement]; [append_ok]:
    [parent.appendChild] returns instead of throwing. *)
Definition appendTo (w : World) (parent_ok append_ok : bool) : bool * World :=
  if negb parent_ok then (false, logError "appendTo" w)
  else if append_ok then (true, log w)
  else (false, logError "appendTo" w).

(** ** getMemory *)

(** [getMemory]: a new memory object whose [playedAnimations] is a newly
    allocated array holding the same record references, in the same order.
    The result is the location of that new array. *)
Definition getMemory (w : World) : loc * World :=
  let a := fresh (dom (e_arrays (w_env w))) in
  (a, with_env (λ e, set_arrays (<[a := log_refs w]> (e_arrays e)) e) w).

(** What a holder of an array can do to it: replace its element list by
    any other ([push], [pop], [splice], [sort], [reverse], ...). *)
Definition mutate_array (a : loc) (f : list loc → list loc) (w : World)
  : World :=
  with_env
    (λ e, set_arrays (alter f a (e_arrays e)) e) w.

(** What a holder of a record object can do to it. *)
Definition mutate_record (r : loc) (f : PlayedAnimation → PlayedAnimation)
  (w : World) : World :=
  with_env
    (λ e, set_records (alter f r (e_records e)) e) w.

(** ** onEnd *)

(** [onEnd]: [true] stands for the returned unregister function, [false]
    for [null]. *)
Definition onEnd (w : World) (name : AnimName) (callback : Callback)
  : bool * World :=
  match find_animation name (sp_animations (w_sprite w)) with
  | None => (false, logError "onEnd" w)
  | Some _ =>
      let nameStr := String_of_name name in
      let w1 :=
        if negb (Map_has nameStr (sp_animationCallbacks (w_sprite w)))
        then with_sprite
               (λ s, set_animationCallbacks
                       (Map_set nameStr [] (sp_animationCallbacks s)) s) w
        else w in
      (true,
       with_sprite
         (λ s, set_animationCallbacks
                 (Map_set nameStr
                    (Set_add callback
                       (default [] (Map_get nameStr
                                      (sp_animationCallbacks s))))
                    (sp_animationCallbacks s)) s) w1)
  end.

(** The function returned by [onEnd (sprite, name, callback)]. *)
Definition unregister (w : World) (name : AnimName) (callback : Callback)
  : World :=
  let nameStr := String_of_name name in
  match Map_get nameStr (sp_animationCallbacks (w_sprite w)) with
  | Some callbacks =>
      let callbacks' := Set_delete callback callbacks in
      if bool_decide (length callbacks' = 0%nat)
      then with_sprite
             (λ s, set_animationCallbacks
                     (Map_delete nameStr (sp_animationCallbacks s)) s) w
      else with_sprite
             (λ s, set_animationCallbacks
                     (Map_set nameStr callbacks'
                        (sp_animationCallbacks s)) s) w
  | None => w
  end.

(** ** destroy *)

(** [clearInterval] for every value of [activeIntervals]. *)
Definition clear_all (ids : list handle) (e : Env) : Env :=
  foldl (λ e' id, emit (EvClearInterval id)
                    (set_timers (delete id (e_timers e')) e')) e ids.

(** [destroy]: in source order, the timers, [activeIntervals],
    [animationCallbacks], [spritesheets], the length of the log array, the
    element. *)
Definition destroy (w : World) : World :=
  let w1 :=
    with_env (clear_all (Map_values (sp_activeIntervals (w_sprite w)))) w in
  let w2 := with_sprite (set_activeIntervals []) w1 in
  let w3 := with_sprite (set_animationCallbacks []) w2 in
  let w4 := with_sprite (set_spritesheets []) w3 in
  let w5 :=
    with_env
      (λ e, set_arrays
              (<[sp_playedAnimations (w_sprite w4) := []]> (e_arrays e)) e)
      w4 in
  let w6 := with_env (emit EvRemoveElement) w5 in
  log w6.

(** ** Reading the trace *)

(** The events of [callbacks.forEach] in [stop]. *)
Definition invoke_events (cbs : list Callback) : list Event :=
  flat_map (λ cb, EvCallback cb
                    :: (if cb_throws cb then [EvError "stop"] else [])) cbs.

(** The callbacks called within a stretch of the trace. *)
Definition callbacks_in (evs : list Event) : list Callback :=
  omap (λ ev, match ev with EvCallback cb => Some cb | _ => None end) evs.

(** What [log] adds to the console. *)
Definition log_events (s : Sprite) : list Event :=
  if sp_help s then [EvLog] else [].

(** The console, timer and callback events of one run of the truthy-name
    branch of [stop], in order. *)
Definition stop_named_events (w : World) (name : AnimName) : list Event :=
  let nameStr := String_of_name name in
  match Map_get nameStr (sp_activeIntervals (w_sprite w)) with
  | Some interval => [EvClearInterval interval]
  | None => []
  end
  ++ match find_animation name (sp_animations (w_sprite w)) with
     | Some _ =>
         invoke_events
           (default [] (Map_get nameStr
                          (sp_animationCallbacks (w_sprite w))))
     | None => []
     end
  ++ log_events (w_sprite w).

(** The record store after the back-fill step of [stop]. *)
Definition backfill (nameStr : string) (now : Z) (refs : list loc)
  (records : gmap loc PlayedAnimation) : gmap loc PlayedAnimation :=
  match find_played nameStr records refs with
  | Some (r, playedAnim) =>
      <[r := set_length (now - pa_timestamp playedAnim) playedAnim]> records
  | None => records
  end.

(** The state in which [stop], for a truthy name whose animation is at
    position [i], starts to call the end-callbacks: the timer is cleared
    and its entry removed, [stopped] is set and the log is back-filled. *)
Definition stopped_state (w : World) (name : AnimName) (i : nat) : World :=
  let nameStr := String_of_name name in
  let interval := Map_get nameStr (sp_activeIntervals (w_sprite w)) in
  mkWorld
    (set_animations
       (alter (set_stopped true) i (sp_animations (w_sprite w)))
       (set_activeIntervals
          (Map_delete nameStr (sp_activeIntervals (w_sprite w)))
          (w_sprite w)))
    (mkEnv
       (match interval with
        | Some id => delete id (e_timers (w_env w))
        | None => e_timers (w_env w)
        end)
       (e_arrays (w_env w))
       (backfill nameStr (e_now (w_env w)) (log_refs w)
                 (e_records (w_env w)))
       (e_now (w_env w))
       (e_trace (w_env w)
          ++ match interval with
             | Some id => [EvClearInterval id]
             | None => []
             end)).

(** What the stop-all branch does when every visit returns: each key of
    the snapshot that is still active is stopped by name. *)
Definition stop_each (keys : list string) (w : World) : World :=
  foldl (λ w' animName,
           if Map_has animName (sp_activeIntervals (w_sprite w'))
           then stop_named w' (NameStr animName) else w')
        w keys.

Definition stop_all (w : World) : World :=
  log (stop_each (Map_keys (sp_activeIntervals (w_sprite w))) w).

(** The events that a call added to the trace: the trace only grows. *)
Definition new_events (w w' : World) : list Event :=
  drop (length (e_trace (w_env w))) (e_trace (w_env w')).

(** Nothing but the console has changed between [w] and [w']. *)
Definition unchanged (w w' : World) : Prop :=
  w_sprite w' = w_sprite w
  ∧ e_timers (w_env w') = e_timers (w_env w)
  ∧ e_arrays (w_env w') = e_arrays (w_env w)
  ∧ e_records (w_env w') = e_records (w_env w)
  ∧ e_now (w_env w') = e_now (w_env w).

(** ** Sample sessions

    States reached through the public functions only, used to run the
    model on concrete inputs. *)

(** A page with no timers and an empty heap, at clock reading 1000. *)
Definition page : Env := mkEnv ∅ ∅ ∅ 1000 [].

Definition player_options : SpriteOptions := mkSpriteOpts "player" 32 32 None.

(** [createSprite({ name: 'player', width: 32, height: 32 })]. *)
Definition player : World :=
  mkWorld (mkSprite "player" 32 32 None [] [] [] [] 0%nat None None None false)
          (mkEnv ∅ {[0%nat := []]} ∅ 1000 [EvCreateElement]).

Definition sheet_options (id : string) : SheetOptions :=
  mkSheetOpts None None None None None (Some id).

(** [await addSheet(sprite, '/player.png', { id: 'main' })] on a 128x64
    image: a 4x2 grid, 8 cells. *)
Definition player_sheet : World :=
  snd (addSheet player "/player.png" (sheet_options "main")
                (Some (128, 64)) "sheet_0").

Definition walk_options : SpriteAnimationOptions :=
  mkAnimOpts (NameStr "walk") (Some 0) (Some 2) None None None None.

(** [addAnimation(sprite, { name: 'walk', start: 0, end: 2 })]. *)
Definition player_walk : World := snd (addAnimation player_sheet walk_options).

Definition on_walk_end : Callback := mkCallback 1 false.

(** [onEnd(sprite, 'walk', cb)]. *)
Definition player_walk_cb : World :=
  snd (onEnd player_walk (NameStr "walk") on_walk_end).

(** The state after a call that returned. *)
Definition returned (o : option World) (w : World) : World := default w o.

Definition played (o : option (bool * World)) (w : World) : World :=
  match o with Some (_, w') => w' | None => w end.

(** [play(sprite, 'walk')] with the callback registered. *)
Definition player_walking : World :=
  played (play 1 player_walk_cb (NameStr "walk") None) player_walk_cb.

(** A second animation whose name is the number 0, registered but not
    played, next to a playing 'walk'. *)
Definition zero_options : SpriteAnimationOptions :=
  mkAnimOpts (NameNum 0) (Some 3) (Some 5) None None None None.

Definition player_zero : World :=
  played (play 1 (snd (addAnimation player_walk_cb zero_options))
               (NameStr "walk") None)
         player_walk_cb.

(** Two ticks into the three-frame 'walk': the cursor is on the last
    frame. *)
Definition player_last_frame : World :=
  returned (tick 1 (returned (tick 1 player_walking 1%positive)
                             player_walking) 1%positive)
           player_walking.

Definition play_walk (w : World) : World :=
  played (play 1 w (NameStr "walk") None) w.

Definition stop_walk (w : World) : World :=
  returned (stop 1 w (Some (NameStr "walk"))) w.

(** [play(sprite, 'walk', true)] and then [play(sprite, 'walk')] within
    the same millisecond (clock 1000): the restart stops the first
    playback after 0 ms.  The clock now reads 1250 and the second playback
    is running. *)
Definition player_toggled : World :=
  advance_clock 250
    (play_walk
       (played (play 1 player_walk (NameStr "walk") (Some true))
               player_walk)).

(** A second, one-cell sheet added after 'walk' was registered against the
    8-cell sheet; [setFrame(sprite, 0, 'icon')] makes it the current sheet,
    so that [play(sprite, 'walk')] resolves the unbound animation to it. *)
Definition icon_options : SheetOptions :=
  mkSheetOpts (Some 1) (Some 1) None None None (Some "icon"%string).

Definition player_icon : World :=
  snd (setFrame
         (snd (addSheet player_walk_cb "/icon.png" icon_options
                        (Some (32, 32)) "sheet_1"))
         0 (Some "icon"%string)).

Definition player_icon_walking : World := play_walk player_icon.

(** After the first tick: frame 0 of the icon sheet is shown and the
    cursor is at position 1, whose frame (1) the icon sheet does not have. *)
Definition player_icon_tick1 : World :=
  returned (tick 1 player_icon_walking 1%positive) player_icon_walking.

(** The spec's one-cell example: a sheet declared as a 1x1 grid, and an
    animation over frames 0 and 1. *)
Definition player_one_cell : World :=
  snd (addSheet player "/dot.png"
                (mkSheetOpts (Some 1) (Some 1) None None None
                             (Some "dot"%string))
                (Some (32, 32)) "sheet_0").

Definition blink_options : SpriteAnimationOptions :=
  mkAnimOpts (NameStr "blink") (Some 0) (Some 1) None None None None.

(** [addSheet(sprite, '/player.png', { columns: 0, id: 'main' })]: the
    caller supplies 0 as the number of columns. *)
Definition zero_columns_options : SheetOptions :=
  mkSheetOpts (Some 0) None None None None (Some "main"%string).

(** ** State invariants *)

(** A truthy [currentSpritesheetId] names a registered sheet. *)
Definition current_registered (s : Sprite) : Prop :=
  ∀ cur, sp_currentSpritesheetId s = Some cur → truthy_string cur = true →
         Map_has cur (sp_spritesheets s) = true.

(** The live timers are exactly the handles held in [activeIntervals], and
    no two names hold the same handle. *)
Definition timers_registered (w : World) : Prop :=
  (∀ id, is_Some (e_timers (w_env w) !! id)
         ↔ ∃ k, Map_get k (sp_activeIntervals (w_sprite w)) = Some id)
  ∧ (∀ k1 k2 id,
       Map_get k1 (sp_activeIntervals (w_sprite w)) = Some id →
       Map_get k2 (sp_activeIntervals (w_sprite w)) = Some id → k1 = k2).

(** Every frame that a tick handler can reach is a cell of its sheet. *)
Definition closure_valid (c : Closure) : Prop :=
  Forall (λ f, validateFrameIndex f (tk_spritesheet c) = true) (tk_frames c).

(** [n] consecutive firings of the interval [id]. *)
Fixpoint ticks (fuel n : nat) (w : World) (id : handle) : option World :=
  match n with
  | O => Some w
  | S n' =>
      match tick fuel w id with
      | Some w' => ticks fuel n' w' id
      | None => None
      end
  end.

(** ** Reading the log over time *)

(** [pa'] is the record [pa] with possibly another [length]. *)
Definition same_but_length (pa pa' : PlayedAnimation) : Prop :=
  pa_name pa' = pa_name pa
  ∧ pa_timestamp pa' = pa_timestamp pa
  ∧ pa_looped pa' = pa_looped pa.

(** From [w] to [w'] the sprite's log has only grown at its end, every
    record object is still there with its name, timestamp and loop flag,
    and a record whose length was already non-zero is as it was. *)
Definition log_grows (w w' : World) : Prop :=
  sp_playedAnimations (w_sprite w') = sp_playedAnimations (w_sprite w)
  ∧ log_refs w `prefix_of` log_refs w'
  ∧ ∀ r pa,
      e_records (w_env w) !! r = Some pa →
      ∃ pa', e_records (w_env w') !! r = Some pa'
             ∧ same_but_length pa pa'
             ∧ (truthy_num (pa_length pa) = true → pa' = pa).

(** An animation whose name is the number 5, with an end-callback, and
    [play(sprite, 5)]: its entry in [activeIntervals] is under '5'. *)
Definition five_options : SpriteAnimationOptions :=
  mkAnimOpts (NameNum 5) (Some 0) (Some 2) None None None None.

Definition player_five : World :=
  snd (onEnd (snd (addAnimation player_sheet five_options))
             (NameNum 5) on_walk_end).

Definition player_five_playing : World :=
  played (play 1 player_five (NameNum 5) None) player_five.

(** An animation whose name is the empty string, and
    [play(sprite, '')]. *)
Definition blank_options : SpriteAnimationOptions :=
  mkAnimOpts (NameStr EmptyString) (Some 0) (Some 2) None None None None.

Definition player_blank : World :=
  snd (addAnimation player_sheet blank_options).

Definition player_blank_playing : World :=
  played (play 2 player_blank (NameStr EmptyString) None) player_blank.

(** 'walk' and a second animation 'idle', both playing. *)
Definition idle_options : SpriteAnimationOptions :=
  mkAnimOpts (NameStr "idle") (Some 3) (Some 4) None None None None.

Definition player_walk_idle : World :=
  play_walk (snd (addAnimation player_walk idle_options)).

(** The animation named '' is playing on a sprite that also has the
    animation 0. *)
Definition player_blank_zero : World :=
  played (play 2 (snd (addAnimation player_blank zero_options))
               (NameStr EmptyString) None)
         player_blank.

(** [{ name: 'run', start: 0, end: 4294967295 }]: a run of 2^32 frames. *)
Definition long_run_options : SpriteAnimationOptions :=
  mkAnimOpts (NameStr "run") (Some 0) (Some 4294967295) None None None None.

(** The README's example of [onEnd]: 'attack' and 'idle' are registered,
    and the end-callback of 'attack' calls [play(sprite, 'idle')].  No
    callback is registered for 'idle'. *)
Definition attack_options : SpriteAnimationOptions :=
  mkAnimOpts (NameStr "attack") None None (Some [4; 5; 6; 5; 4]) None None
             None.

Definition on_attack_end : Callback := mkCallback 2 false.

Definition player_attack : World :=
  snd (onEnd
         (snd (addAnimation (snd (addAnimation player_sheet idle_options))
                            attack_options))
         (NameStr "attack") on_attack_end).

Definition return_to_idle (cb : Callback) (w : World) : World :=
  snd (play_with (λ _ w0, w0) w (NameStr "idle") None).

(** Callbacks that touch neither the sprite nor the page. *)
Definition inert (cb : Callback) (w : World) : World := w.

(** Callbacks that leave the registered end-callbacks as they are: none
    of them calls [onEnd] or a function that [onEnd] returned.  [stop]
    walks the live set of callbacks; with such callbacks the set it
    walks is the one it read. *)
Definition keeps_callbacks (body : Callback → World → World) : Prop :=
  ∀ cb w,
    sp_animationCallbacks (w_sprite (body cb w))
    = sp_animationCallbacks (w_sprite w).

(** * Properties *)

(** ** Insertion-ordered maps *)

Section JsMapFacts.
Context {V : Type}.
Implicit Types (m : list (string * V)) (k : string).

Lemma Map_get_delete_eq m k : Map_get k (Map_delete k m) = None.
Proof.
  induction m as [|[k' v] m IH]; simpl; [done|].
  destruct (decide (k' = k)) as [->|Hne]; [done|].
  simpl. by rewrite decide_False.
Qed.

Lemma Map_get_delete_ne m k k' :
  k ≠ k' → Map_get k' (Map_delete k m) = Map_get k' m.
Proof.
  intros Hne. induction m as [|[k0 v] m IH]; simpl; [done|].
  destruct (decide (k0 = k)) as [->|Hk0].
  - by rewrite decide_False.
  - simpl. by rewrite IH.
Qed.

Lemma Map_delete_absent m k : Map_get k m = None → Map_delete k m = m.
Proof.
  induction m as [|[k' v] m IH]; simpl; [done|].
  destruct (decide (k' = k)); [done|]. intros H. by rewrite IH.
Qed.

Lemma Map_get_set_eq m k v : Map_get k (Map_set k v m) = Some v.
Proof.
  induction m as [|[k' v'] m IH]; simpl.
  - by rewrite decide_True.
  - destruct (decide (k' = k)) as [->|Hne]; simpl.
    + by rewrite decide_True.
    + by rewrite decide_False.
Qed.

Lemma Map_get_set_ne m k k' v :
  k ≠ k' → Map_get k' (Map_set k v m) = Map_get k' m.
Proof.
  intros Hne. induction m as [|[k0 v0] m IH]; simpl.
  - by rewrite decide_False.
  - destruct (decide (k0 = k)) as [->|Hk0]; simpl.
    + by rewrite !decide_False.
    + by rewrite IH.
Qed.

Lemma Map_set_absent m k v : Map_get k m = None → Map_set k v m = m ++ [(k, v)].
Proof.
  induction m as [|[k' v'] m IH]; simpl; [done|].
  destruct (decide (k' = k)); [done|]. intros H. by rewrite IH.
Qed.

Lemma Map_get_Some_elem m k v : Map_get k m = Some v → (k, v) ∈ m.
Proof.
  induction m as [|[k' v'] m IH]; simpl; [done|].
  destruct (decide (k' = k)) as [->|Hne].
  - intros [= ->]. left.
  - intros H. right. auto.
Qed.

Lemma Map_has_keys m k : Map_has k m = true ↔ k ∈ Map_keys m.
Proof.
  unfold Map_has, Map_keys. induction m as [|[k' v] m IH]; simpl.
  - split; [done|]. intros H. by apply elem_of_nil in H.
  - destruct (decide (k' = k)) as [->|Hne].
    + split; [left|done].
    + rewrite IH. split; [by right|].
      intros H. apply elem_of_cons in H as [->|H]; [done|exact H].
Qed.

Lemma Map_has_false_get m k : Map_has k m = false ↔ Map_get k m = None.
Proof. unfold Map_has. destruct (Map_get k m); split; done. Qed.

Lemma Map_delete_elem m k k' v :
  (k', v) ∈ Map_delete k m ↔ (k', v) ∈ m ∧ k' ≠ k.
Proof.
  induction m as [|[k0 v0] m IH]; simpl.
  - split; [intros H; by apply elem_of_nil in H|intros [H _]; by apply elem_of_nil in H].
  - destruct (decide (k0 = k)) as [->|Hne].
    + rewrite IH. rewrite elem_of_cons. split.
      * intros [H1 H2]. split; [by right|done].
      * intros [[H1|H1] H2]; [congruence|done].
    + rewrite !elem_of_cons, IH. split.
      * intros [H1|[H1 H2]]; [split; [by left|congruence]|split; [by right|done]].
      * intros [[H1|H1] H2]; [by left|by right].
Qed.
End JsMapFacts.

(** ** Frame lemmas for the state plumbing *)

Lemma foldl_invoke_sprite cbs w : w_sprite (foldl invoke w cbs) = w_sprite w.
Proof.
  revert w. induction cbs as [|cb cbs IH]; intros w; simpl; [done|].
  rewrite IH. unfold invoke. by destruct (cb_throws cb).
Qed.

Lemma foldl_invoke_env cbs w :
  w_env (foldl invoke w cbs)
  = mkEnv (e_timers (w_env w)) (e_arrays (w_env w)) (e_records (w_env w))
          (e_now (w_env w)) (e_trace (w_env w) ++ invoke_events cbs).
Proof.
  revert w. induction cbs as [|cb cbs IH]; intros [s [t a r n tr]]; simpl.
  - by rewrite app_nil_r.
  - rewrite IH. unfold invoke. destruct (cb_throws cb); simpl;
      by rewrite <- ?app_assoc.
Qed.

Lemma callbacks_in_app evs1 evs2 :
  callbacks_in (evs1 ++ evs2) = callbacks_in evs1 ++ callbacks_in evs2.
Proof. unfold callbacks_in. apply omap_app. Qed.

Lemma callbacks_in_invoke_events cbs : callbacks_in (invoke_events cbs) = cbs.
Proof.
  induction cbs as [|cb cbs IH]; [done|].
  unfold invoke_events in *. simpl. destruct (cb_throws cb); simpl;
    unfold callbacks_in in *; simpl; by rewrite IH.
Qed.

Lemma log_sprite w : w_sprite (log w) = w_sprite w.
Proof. unfold log. by destruct (sp_help (w_sprite w)). Qed.

Lemma log_env w :
  w_env (log w)
  = mkEnv (e_timers (w_env w)) (e_arrays (w_env w)) (e_records (w_env w))
          (e_now (w_env w)) (e_trace (w_env w) ++ log_events (w_sprite w)).
Proof.
  unfold log, log_events. destruct w as [s [t a r n tr]]; simpl.
  destruct (sp_help s); simpl; [done|]. by rewrite app_nil_r.
Qed.

Lemma callbacks_in_log s : callbacks_in (log_events s) = [].
Proof. unfold log_events. by destruct (sp_help s). Qed.

(** ** The truthy-name branch of [stop], field by field *)

Lemma stop_named_sprite w name :
  w_sprite (stop_named w name)
  = set_animations
      (match find_animation name (sp_animations (w_sprite w)) with
       | Some (i, _) => alter (set_stopped true) i (sp_animations (w_sprite w))
       | None => sp_animations (w_sprite w)
       end)
      (set_activeIntervals
         (Map_delete (String_of_name name) (sp_activeIntervals (w_sprite w)))
         (w_sprite w)).
Proof.
  unfold stop_named. rewrite log_sprite.
  destruct w as [s e]; simpl.
  destruct (Map_get (String_of_name name) (sp_activeIntervals s))
    as [interval|] eqn:Hget; simpl.
  - destruct (find_animation name (sp_animations s)) as [[i a]|]; simpl;
      [|done].
    match goal with
    | |- context [find_played ?n ?r ?l] => destruct (find_played n r l) as [[r0 pa]|]
    end; simpl;
      destruct (Map_get (String_of_name name) (sp_animationCallbacks s));
      by rewrite ?foldl_invoke_sprite.
  - rewrite (Map_delete_absent _ _ Hget).
    destruct (find_animation name (sp_animations s)) as [[i a]|]; simpl;
      [|by destruct s].
    match goal with
    | |- context [find_played ?n ?r ?l] => destruct (find_played n r l) as [[r0 pa]|]
    end; simpl;
      destruct (Map_get (String_of_name name) (sp_animationCallbacks s));
      rewrite ?foldl_invoke_sprite; by destruct s.
Qed.

Lemma stop_named_env w name :
  w_env (stop_named w name)
  = mkEnv
      (match Map_get (String_of_name name)
               (sp_activeIntervals (w_sprite w)) with
       | Some interval => delete interval (e_timers (w_env w))
       | None => e_timers (w_env w)
       end)
      (e_arrays (w_env w))
      (match find_animation name (sp_animations (w_sprite w)) with
       | Some _ =>
           backfill (String_of_name name) (e_now (w_env w)) (log_refs w)
                    (e_records (w_env w))
       | None => e_records (w_env w)
       end)
      (e_now (w_env w))
      (e_trace (w_env w) ++ stop_named_events w name).
Proof.
  unfold stop_named, stop_named_events, backfill. rewrite log_env.
  destruct w as [s [t a r n tr]]; unfold log_refs; simpl.
  destruct (Map_get (String_of_name name) (sp_activeIntervals s))
    as [interval|] eqn:Hget; simpl;
    (destruct (find_animation name (sp_animations s)) as [[i an]|]; simpl;
     [ destruct (find_played (String_of_name name) r (default [] (a !! sp_playedAnimations s)))
         as [[r0 pa]|]; simpl;
       destruct (Map_get (String_of_name name) (sp_animationCallbacks s));
       simpl; rewrite ?foldl_invoke_env, ?foldl_invoke_sprite; simpl;
       rewrite ?app_nil_r, <- ?app_assoc; reflexivity
     | rewrite ?app_nil_r, <- ?app_assoc; reflexivity ]).
Qed.

(** ** [stop]: which branch runs, and when it returns *)

Lemma stop_truthy fuel w n :
  truthy_name (Some n) = true →
  stop (S fuel) w (Some n) = Some (stop_named w n).
Proof. intros H. destruct n; simpl in *; by rewrite H. Qed.

Lemma stop_falsy fuel w name :
  truthy_name name = false → stop fuel w name = stop fuel w None.
Proof.
  intros H. destruct fuel as [|fuel]; [done|].
  destruct name as [[s|z]|]; [| |done]; simpl in *; by rewrite H.
Qed.

Lemma truthy_NameStr k :
  truthy_name (Some (NameStr k)) = false ↔ k = EmptyString.
Proof. destruct k; simpl; split; congruence. Qed.

(** With the empty string among the active keys the stop-all branch
    re-enters itself without bound: no amount of fuel makes it return. *)
Lemma stop_all_diverges fuel :
  ∀ w name,
    truthy_name name = false →
    Map_has EmptyString (sp_activeIntervals (w_sprite w)) = true →
    stop fuel w name = None.
Proof.
  induction fuel as [|fuel IH]; intros w name Hname Hhas; [done|].
  rewrite (stop_falsy _ _ _ Hname). simpl.
  assert (Hin : EmptyString ∈ Map_keys (sp_activeIntervals (w_sprite w)))
    by by apply Map_has_keys.
  revert Hin Hhas.
  generalize (Map_keys (sp_activeIntervals (w_sprite w))).
  intros ks. revert w.
  induction ks as [|k ks IHks]; intros w Hin Hhas.
  { by apply elem_of_nil in Hin. }
  simpl.
  destruct (decide (k = EmptyString)) as [->|Hk].
  - rewrite Hhas. rewrite IH; [done| |done]. done.
  - apply elem_of_cons in Hin as [Hin|Hin]; [congruence|].
    assert (Hw1 : ∀ w1,
               Map_has EmptyString (sp_activeIntervals (w_sprite w1)) = true →
               match forEach_active
                       (λ w' animName, stop fuel w' (Some (NameStr animName)))
                       ks w1 with
               | Some w' => Some (log w')
               | None => None
               end = None) by (intros; by apply IHks).
    destruct (Map_has k (sp_activeIntervals (w_sprite w))); [|by apply Hw1].
    destruct fuel as [|fuel']; [done|].
    rewrite stop_truthy.
    2:{ destruct (truthy_name (Some (NameStr k))) eqn:E; [done|].
        by apply truthy_NameStr in E. }
    apply Hw1. rewrite stop_named_sprite. simpl.
    unfold Map_has in *. rewrite Map_get_delete_ne; done.
Qed.

(** A stop-all that returns has stopped, by name, each key it visited. *)
Lemma forEach_active_returns fuel ks :
  ∀ w w',
    forEach_active (λ w' animName, stop fuel w' (Some (NameStr animName)))
      ks w = Some w' →
    w' = stop_each ks w.
Proof.
  induction ks as [|k ks IH]; intros w w'; simpl.
  { by intros [= <-]. }
  unfold stop_each in *. simpl.
  destruct (Map_has k (sp_activeIntervals (w_sprite w))) eqn:Hhas;
    [|by apply IH].
  destruct (stop fuel w (Some (NameStr k))) as [w1|] eqn:Hstop; [|done].
  intros Hrest. apply IH in Hrest. subst w'. f_equal.
  destruct (truthy_name (Some (NameStr k))) eqn:Hk.
  - destruct fuel as [|fuel]; [done|].
    rewrite stop_truthy in Hstop by done. congruence.
  - apply truthy_NameStr in Hk. subst k.
    by rewrite stop_all_diverges in Hstop.
Qed.

Lemma stop_each_preserves_absent ks :
  ∀ w k,
    Map_get k (sp_activeIntervals (w_sprite w)) = None →
    Map_get k (sp_activeIntervals (w_sprite (stop_each ks w))) = None.
Proof.
  unfold stop_each.
  induction ks as [|k0 ks IH]; intros w k Hk; simpl; [done|].
  apply IH. destruct (Map_has k0 _); [|done].
  rewrite stop_named_sprite. simpl.
  destruct (decide (k0 = k)) as [->|Hne].
  - apply Map_get_delete_eq.
  - by rewrite Map_get_delete_ne.
Qed.

(** Without the empty key, two levels of calls are enough. *)
Lemma forEach_active_total fuel ks :
  ∀ w,
    Map_get EmptyString (sp_activeIntervals (w_sprite w)) = None →
    forEach_active
      (λ w' animName, stop (S fuel) w' (Some (NameStr animName))) ks w
    = Some (stop_each ks w).
Proof.
  unfold stop_each.
  induction ks as [|k ks IH]; intros w Hno; simpl; [done|].
  destruct (Map_has k (sp_activeIntervals (w_sprite w))) eqn:Hhas;
    [|by apply IH].
  assert (Hk : truthy_string k = true).
  { destruct k; [|done]. unfold Map_has in Hhas. by rewrite Hno in Hhas. }
  rewrite Hk. apply IH.
  apply (stop_each_preserves_absent [k] w EmptyString) in Hno.
  unfold stop_each in Hno. simpl in Hno. by rewrite Hhas in Hno.
Qed.

Lemma stop_all_returns fuel w name w' :
  truthy_name name = false →
  stop fuel w name = Some w' → w' = stop_all w.
Proof.
  intros Hname. rewrite (stop_falsy _ _ _ Hname).
  destruct fuel as [|fuel]; [done|]. simpl.
  destruct (forEach_active _ _ w) as [w1|] eqn:Hfe; [|done].
  intros [= <-]. apply forEach_active_returns in Hfe. by subst w1.
Qed.

Lemma stop_all_total fuel w name :
  truthy_name name = false →
  Map_get EmptyString (sp_activeIntervals (w_sprite w)) = None →
  stop (S (S fuel)) w name = Some (stop_all w).
Proof.
  intros Hname Hno. rewrite (stop_falsy _ _ _ Hname).
  change (stop (S (S fuel)) w None)
    with (match forEach_active
                  (λ w' animName, stop (S fuel) w' (Some (NameStr animName)))
                  (Map_keys (sp_activeIntervals (w_sprite w))) w with
          | Some w' => Some (log w')
          | None => None
          end).
  by rewrite forEach_active_total.
Qed.

(** From here on [stop] is used through the lemmas above. *)
Arguments stop : simpl never.

(** ** What a completed stop-all leaves behind *)

Lemma stop_named_timers_absent w name id :
  e_timers (w_env w) !! id = None →
  e_timers (w_env (stop_named w name)) !! id = None.
Proof.
  intros H. rewrite stop_named_env. simpl.
  destruct (Map_get _ _) as [interval|]; [|done].
  destruct (decide (interval = id)) as [->|Hne].
  - apply lookup_delete_eq.
  - by rewrite lookup_delete_ne.
Qed.

Lemma stop_each_timers_absent ks :
  ∀ w id,
    e_timers (w_env w) !! id = None →
    e_timers (w_env (stop_each ks w)) !! id = None.
Proof.
  unfold stop_each.
  induction ks as [|k ks IH]; intros w id H; simpl; [done|].
  apply IH. destruct (Map_has k _); [|done].
  by apply stop_named_timers_absent.
Qed.

Lemma stop_each_visited ks :
  ∀ w k,
    k ∈ ks →
    Map_get k (sp_activeIntervals (w_sprite (stop_each ks w))) = None.
Proof.
  induction ks as [|k0 ks IH]; intros w k Hin.
  { by apply elem_of_nil in Hin. }
  destruct (decide (k = k0)) as [->|Hne].
  - change (stop_each (k0 :: ks) w)
      with (stop_each ks
              (if Map_has k0 (sp_activeIntervals (w_sprite w))
               then stop_named w (NameStr k0) else w)).
    apply stop_each_preserves_absent.
    destruct (Map_has k0 _) eqn:Hhas.
    + rewrite stop_named_sprite. simpl. apply Map_get_delete_eq.
    + by apply Map_has_false_get.
  - apply elem_of_cons in Hin as [?|Hin]; [done|].
    change (stop_each (k0 :: ks) w)
      with (stop_each ks
              (if Map_has k0 (sp_activeIntervals (w_sprite w))
               then stop_named w (NameStr k0) else w)).
    by apply IH.
Qed.

Lemma stop_each_clears ks :
  ∀ w k id,
    k ∈ ks →
    Map_get k (sp_activeIntervals (w_sprite w)) = Some id →
    e_timers (w_env (stop_each ks w)) !! id = None.
Proof.
  induction ks as [|k0 ks IH]; intros w k id Hin Hget.
  { by apply elem_of_nil in Hin. }
  change (stop_each (k0 :: ks) w)
    with (stop_each ks
            (if Map_has k0 (sp_activeIntervals (w_sprite w))
             then stop_named w (NameStr k0) else w)).
  destruct (decide (k = k0)) as [->|Hne].
  - apply stop_each_timers_absent.
    unfold Map_has. rewrite Hget. rewrite stop_named_env. simpl.
    rewrite Hget. apply lookup_delete_eq.
  - apply elem_of_cons in Hin as [?|Hin]; [done|].
    apply (IH _ k); [done|].
    destruct (Map_has k0 _); [|done].
    rewrite stop_named_sprite. simpl. by rewrite Map_get_delete_ne.
Qed.

Lemma Map_all_absent {V} (m : list (string * V)) :
  (∀ k, Map_get k m = None) → m = [].
Proof.
  destruct m as [|[k v] m]; [done|]. intros H. specialize (H k).
  simpl in H. by rewrite decide_True in H.
Qed.

Lemma stop_all_active w : sp_activeIntervals (w_sprite (stop_all w)) = [].
Proof.
  unfold stop_all. rewrite log_sprite. apply Map_all_absent. intros k.
  destruct (Map_get k (sp_activeIntervals (w_sprite w))) as [id|] eqn:Hget.
  - apply stop_each_visited. apply Map_has_keys. unfold Map_has.
    by rewrite Hget.
  - by apply stop_each_preserves_absent.
Qed.

Lemma stop_all_clears w k id :
  Map_get k (sp_activeIntervals (w_sprite w)) = Some id →
  e_timers (w_env (stop_all w)) !! id = None.
Proof.
  intros Hget. unfold stop_all. rewrite log_env. simpl.
  apply (stop_each_clears _ _ k); [|done].
  apply Map_has_keys. unfold Map_has. by rewrite Hget.
Qed.

(** ** [start_playback], field by field *)

Lemma start_playback_active w1 name loop i a sh :
  sp_activeIntervals (w_sprite (start_playback w1 name loop i a sh))
  = Map_set (String_of_name name)
      (fresh (dom (e_timers (w_env w1))))
      (sp_activeIntervals (w_sprite w1)).
Proof.
  unfold start_playback. destruct w1 as [s [t ar r n tr]]; simpl.
  rewrite !log_sprite, !log_env. reflexivity.
Qed.

Lemma start_playback_timers w1 name loop i a sh :
  e_timers (w_env (start_playback w1 name loop i a sh))
  = <[fresh (dom (e_timers (w_env w1))) :=
        mkClosure name (anim_frames a) sh (default (anim_loop a) loop)
                  0%nat (anim_speed a)]> (e_timers (w_env w1)).
Proof.
  unfold start_playback. destruct w1 as [s [t ar r n tr]]; simpl.
  rewrite !log_env. reflexivity.
Qed.

Lemma start_playback_animations w1 name loop i a sh :
  sp_animations (w_sprite (start_playback w1 name loop i a sh))
  = alter (set_stopped false) i (sp_animations (w_sprite w1)).
Proof.
  unfold start_playback. destruct w1 as [s [t ar r n tr]]; simpl.
  rewrite !log_sprite. reflexivity.
Qed.

Lemma start_playback_log w1 name loop i a sh :
  let r := fresh (dom (e_records (w_env w1))) in
  log_refs (start_playback w1 name loop i a sh) = log_refs w1 ++ [r]
  ∧ e_records (w_env (start_playback w1 name loop i a sh))
    = <[r := mkPlayed (String_of_name name) (e_now (w_env w1)) 0
                      (default (anim_loop a) loop)]> (e_records (w_env w1)).
Proof.
  unfold start_playback, log_refs. destruct w1 as [s [t ar r n tr]]; simpl.
  rewrite !log_sprite, !log_env. simpl. rewrite lookup_insert_eq. done.
Qed.

(** ** The sample sessions are what the functions produce *)

Example player_created :
  createSprite true player_options page = (Some (w_sprite player), w_env player).
Proof. reflexivity. Qed.

Example player_sheet_added :
  fst (addSheet player "/player.png" (sheet_options "main")
                (Some (128, 64)) "sheet_0") = Some "main"
  ∧ (sheet_columns <$> Map_get "main" (sp_spritesheets (w_sprite player_sheet)))
    = Some 4
  ∧ (sheet_rows <$> Map_get "main" (sp_spritesheets (w_sprite player_sheet)))
    = Some 2
  ∧ (length ∘ sheet_cells
       <$> Map_get "main" (sp_spritesheets (w_sprite player_sheet)))
    = Some 8%nat.
Proof. repeat split; reflexivity. Qed.

Example player_walk_added :
  fst (addAnimation player_sheet walk_options) = Returned true
  ∧ fst (onEnd player_walk (NameStr "walk") on_walk_end) = true
  ∧ (fst <$> play 1 player_walk_cb (NameStr "walk") None) = Some true
  ∧ sp_activeIntervals (w_sprite player_walking) = [("walk", 1%positive)].
Proof. repeat split; vm_compute; reflexivity. Qed.

(** ** When [play] returns *)

Lemma play_succeeds_truthy fuel w name loop i a sh :
  find_animation name (sp_animations (w_sprite w)) = Some (i, a) →
  getSpriteSheetForAnimation (w_sprite w) a = Some sh →
  truthy_name (Some name) = true →
  ∃ w', play (S fuel) w name loop = Some (true, w').
Proof.
  intros Hfind Hsh Hname. unfold play.
  rewrite Hfind, Hsh, stop_truthy by done. eauto.
Qed.

Lemma play_succeeds_falsy fuel w name loop i a sh :
  find_animation name (sp_animations (w_sprite w)) = Some (i, a) →
  getSpriteSheetForAnimation (w_sprite w) a = Some sh →
  truthy_name (Some name) = false →
  Map_get EmptyString (sp_activeIntervals (w_sprite w)) = None →
  ∃ w', play (S (S fuel)) w name loop = Some (true, w').
Proof.
  intros Hfind Hsh Hname Hno. unfold play.
  rewrite Hfind, Hsh, stop_all_total by done. eauto.
Qed.

(** With the empty key active, a [play] that gets past its two checks
    never returns when the name is falsy. *)
Lemma play_diverges fuel w name loop i a sh :
  find_animation name (sp_animations (w_sprite w)) = Some (i, a) →
  getSpriteSheetForAnimation (w_sprite w) a = Some sh →
  truthy_name (Some name) = false →
  Map_has EmptyString (sp_activeIntervals (w_sprite w)) = true →
  play fuel w name loop = None.
Proof.
  intros Hfind Hsh Hname Hhas. unfold play.
  by rewrite Hfind, Hsh, stop_all_diverges.
Qed.

(** ** The name 0 *)

(** X22: [stop(sprite, 0)] runs the stop-all branch, because 0 is falsy:
    it is the same call as [stop(sprite)].  As long as no animation named
    by the empty string is playing, it returns, and then no animation is
    playing any more and the timer of every animation that was playing
    has been cleared.  A truthy name, by contrast, leaves the entries and
    timers of the other names alone.  Consequently [play(sprite, 0)],
    under the same condition and when the animation and a sheet are
    found, first stops everything and returns true: the new timer of 0 is
    the only active one afterwards. *)
Theorem X22_stop_zero_stops_all (fuel : nat) (w : World) :
  stop fuel w (Some (NameNum 0)) = stop fuel w None
  ∧ (Map_get EmptyString (sp_activeIntervals (w_sprite w)) = None →
     ∃ w', stop (S (S fuel)) w (Some (NameNum 0)) = Some w'
           ∧ sp_activeIntervals (w_sprite w') = []
           ∧ ∀ k id, Map_get k (sp_activeIntervals (w_sprite w)) = Some id →
                     e_timers (w_env w') !! id = None)
  ∧ (∀ w', stop fuel w (Some (NameNum 0)) = Some w' →
       sp_activeIntervals (w_sprite w') = []
       ∧ ∀ k id, Map_get k (sp_activeIntervals (w_sprite w)) = Some id →
                 e_timers (w_env w') !! id = None)
  ∧ (∀ n k, truthy_name (Some n) = true → k ≠ String_of_name n →
       ∃ w', stop (S fuel) w (Some n) = Some w'
             ∧ Map_get k (sp_activeIntervals (w_sprite w'))
               = Map_get k (sp_activeIntervals (w_sprite w))
             ∧ ∀ id, Map_get (String_of_name n)
                             (sp_activeIntervals (w_sprite w)) ≠ Some id →
                     e_timers (w_env w') !! id = e_timers (w_env w) !! id)
  ∧ (∀ loop w', play fuel w (NameNum 0) loop = Some (true, w') →
       ∃ w1 id,
         stop fuel w None = Some w1
         ∧ sp_activeIntervals (w_sprite w1) = []
         ∧ sp_activeIntervals (w_sprite w') = [("0"%string, id)]
         ∧ e_timers (w_env w1) !! id = None
         ∧ is_Some (e_timers (w_env w') !! id))
  ∧ (∀ loop i a sh,
       find_animation (NameNum 0) (sp_animations (w_sprite w)) = Some (i, a) →
       getSpriteSheetForAnimation (w_sprite w) a = Some sh →
       Map_get EmptyString (sp_activeIntervals (w_sprite w)) = None →
       ∃ w1 w' id,
         stop (S (S fuel)) w None = Some w1
         ∧ play (S (S fuel)) w (NameNum 0) loop = Some (true, w')
         ∧ sp_activeIntervals (w_sprite w1) = []
         ∧ (∀ k old, Map_get k (sp_activeIntervals (w_sprite w)) = Some old →
                     e_timers (w_env w1) !! old = None)
         ∧ sp_activeIntervals (w_sprite w') = [("0"%string, id)]
         ∧ e_timers (w_env w1) !! id = None
         ∧ is_Some (e_timers (w_env w') !! id)).
Proof.
  assert (H0 : truthy_name (Some (NameNum 0)) = false) by reflexivity.
  split; [by apply stop_falsy|].
  split.
  { intros Hno. eexists. split; [by apply stop_all_total|].
    split; [apply stop_all_active|]. intros k id. apply stop_all_clears. }
  split.
  { intros w' Hstop. apply stop_all_returns in Hstop; [|done]. subst w'.
    split; [apply stop_all_active|]. intros k id. apply stop_all_clears. }
  split.
  { intros n k Hn Hk. eexists. split; [by apply stop_truthy|].
    rewrite stop_named_sprite, stop_named_env. simpl. split.
    - by rewrite Map_get_delete_ne.
    - intros id Hid. destruct (Map_get _ _) as [interval|]; [|done].
      rewrite lookup_delete_ne; [done|]. congruence. }
  split.
  2:{ intros loop i a sh Hfind Hsh Hno.
      exists (stop_all w),
             (start_playback (stop_all w) (NameNum 0) loop i a sh),
             (fresh (dom (e_timers (w_env (stop_all w))))).
      split; [by apply stop_all_total|].
      split.
      { unfold play. by rewrite Hfind, Hsh, (stop_all_total _ _ _ H0 Hno). }
      split; [apply stop_all_active|].
      split; [intros k old; apply stop_all_clears|].
      rewrite start_playback_active, start_playback_timers, stop_all_active.
      split; [done|]. split.
      - apply not_elem_of_dom. apply is_fresh.
      - rewrite lookup_insert_eq. eauto. }
  intros loop w' Hplay. unfold play in Hplay.
  destruct (find_animation _ _) as [[i a]|]; [|done].
  destruct (getSpriteSheetForAnimation _ _) as [sh|]; [|done].
  destruct (stop fuel w (Some (NameNum 0))) as [w1|] eqn:Hstop; [|done].
  injection Hplay as <-.
  pose proof (stop_all_returns _ _ _ _ H0 Hstop) as ->.
  exists (stop_all w), (fresh (dom (e_timers (w_env (stop_all w))))).
  rewrite <- (stop_falsy _ _ _ H0). split; [done|].
  split; [apply stop_all_active|].
  rewrite start_playback_active, start_playback_timers, stop_all_active.
  split; [done|]. split.
  - apply not_elem_of_dom. apply is_fresh.
  - rewrite lookup_insert_eq. eauto.
Qed.

Lemma X22_stop_zero_stops_all_witness :
  sp_activeIntervals (w_sprite player_zero) = [("walk"%string, 1%positive)]
  ∧ (∃ w', stop 2 player_zero (Some (NameNum 0)) = Some w'
           ∧ sp_activeIntervals (w_sprite w') = []
           ∧ e_timers (w_env w') !! 1%positive = None)
  ∧ (∃ w', stop 1 player_zero (Some (NameNum 5)) = Some w'
           ∧ Map_get "walk"%string (sp_activeIntervals (w_sprite w'))
             = Some 1%positive)
  ∧ (∃ w' id, play 2 player_zero (NameNum 0) None = Some (true, w')
              ∧ sp_activeIntervals (w_sprite w') = [("0"%string, id)]).
Proof.
  split; [vm_compute; reflexivity|].
  destruct (X22_stop_zero_stops_all 0 player_zero)
    as (_ & Hret & _ & Hother & _ & Hplays).
  split.
  { destruct Hret as (w' & Hw' & Hempty & Hclear); [vm_compute; reflexivity|].
    exists w'. split; [exact Hw'|]. split; [exact Hempty|].
    apply (Hclear "walk"%string). vm_compute; reflexivity. }
  split.
  { destruct (Hother (NameNum 5) "walk"%string) as (w' & Hw' & Hsame & _);
      [reflexivity|vm_compute; congruence|].
    exists w'. split; [exact Hw'|]. rewrite Hsame. vm_compute; reflexivity. }
  edestruct (Hplays None 1%nat) as (w1 & w' & id & _ & Hw' & _ & _ & Hactive & _);
    [vm_compute; reflexivity|vm_compute; reflexivity|vm_compute; reflexivity|].
  exists w', id. split; [exact Hw'|exact Hactive].
Defined.

(** C10 on the code: the sprite has the animation 0, and the animation
    named by the empty string is playing.  [stop(sprite, 0)] takes the
    stop-all branch, which passes the key '' to [stop]; the empty string
    is falsy too, so that call takes the stop-all branch again, and so on
    without bound: no call depth lets [stop(sprite, 0)] return, it ends
    in the [RangeError] of the exhausted call stack.  [play(sprite, 0)]
    fails to return in the same way. *)
Theorem C10_stop_zero_never_returns :
  (∃ i a, find_animation (NameNum 0)
            (sp_animations (w_sprite player_blank_zero)) = Some (i, a))
  ∧ sp_activeIntervals (w_sprite player_blank_zero)
    = [(EmptyString, 1%positive)]
  ∧ ∀ fuel,
      stop fuel player_blank_zero (Some (NameNum 0)) = None
      ∧ play fuel player_blank_zero (NameNum 0) None = None.
Proof.
  split; [eexists _, _; vm_compute; reflexivity|].
  split; [vm_compute; reflexivity|].
  intros fuel. split.
  - by apply stop_all_diverges.
  - eapply play_diverges; [vm_compute; reflexivity|vm_compute; reflexivity
                           |reflexivity|reflexivity].
Qed.

(** ** End-callbacks *)

Lemma new_events_app w w' evs :
  e_trace (w_env w') = e_trace (w_env w) ++ evs → new_events w w' = evs.
Proof. unfold new_events. intros ->. by rewrite drop_app_length. Qed.

Lemma stop_named_new_events w name :
  new_events w (stop_named w name) = stop_named_events w name.
Proof. apply new_events_app. by rewrite stop_named_env. Qed.

Lemma stop_named_callbacks w name :
  callbacks_in (stop_named_events w name)
  = match find_animation name (sp_animations (w_sprite w)) with
    | Some _ =>
        default [] (Map_get (String_of_name name)
                            (sp_animationCallbacks (w_sprite w)))
    | None => []
    end.
Proof.
  unfold stop_named_events. rewrite !callbacks_in_app, callbacks_in_log.
  rewrite app_nil_r.
  destruct (Map_get _ (sp_activeIntervals _)); simpl;
    destruct (find_animation _ _); simpl;
    by rewrite ?callbacks_in_invoke_events.
Qed.

(** C1, as found in the code: the end-callbacks of a registered animation
    with a truthy name run, each once and in registration order, every
    time [stop] runs for that name.  That happens when the caller calls
    [stop] on the animation, and inside the tick handler both on natural
    completion (cursor exhausted, not looping) and when the frame at the
    cursor fails the range re-check.  A tick that shows a frame without
    exhausting a non-looping sequence calls none. *)
Theorem C1_callbacks_run_on_every_stop (fuel : nat) (w : World)
  (name : AnimName) (i : nat) (a : SpriteAnimation) :
  truthy_name (Some name) = true →
  find_animation name (sp_animations (w_sprite w)) = Some (i, a) →
  let cbs :=
    default [] (Map_get (String_of_name name)
                        (sp_animationCallbacks (w_sprite w))) in
  (∃ w', stop (S fuel) w (Some name) = Some w'
         ∧ callbacks_in (new_events w w') = cbs)
  ∧ (∀ id c,
       e_timers (w_env w) !! id = Some c →
       tk_animationName c = name →
       ∃ w', tick (S fuel) w id = Some w'
             ∧ callbacks_in (new_events w w')
               = match tk_frames c !! tk_frameIndex c with
                 | Some f =>
                     if validateFrameIndex f (tk_spritesheet c) then
                       if bool_decide
                            (length (tk_frames c) ≤ S (tk_frameIndex c))%nat
                          && negb (tk_shouldLoop c)
                       then cbs else []
                     else cbs
                 | None => cbs
                 end).
Proof.
  intros Hname Hfind cbs. split.
  { eexists. split; [by apply stop_truthy|].
    by rewrite stop_named_new_events, stop_named_callbacks, Hfind. }
  intros id c Hc Hcn. unfold tick. rewrite Hc, Hcn.
  assert (Hinvalid :
            ∃ w', stop (S fuel) (logError "play" w) (Some name) = Some w'
                  ∧ callbacks_in (new_events w w') = cbs).
  { eexists. split; [by apply stop_truthy|].
    erewrite new_events_app.
    2:{ rewrite stop_named_env. simpl. by rewrite <- app_assoc. }
    rewrite callbacks_in_app, stop_named_callbacks. simpl.
    by rewrite Hfind. }
  destruct (tk_frames c !! tk_frameIndex c) as [f|]; [|exact Hinvalid].
  destruct (validateFrameIndex f (tk_spritesheet c)); [|exact Hinvalid].
  simpl. case_bool_decide as Hlen; simpl.
  - destruct (tk_shouldLoop c); simpl.
    + eexists. split; [done|]. by erewrite new_events_app by by rewrite app_nil_r.
    + rewrite stop_truthy by done. eexists. split; [done|].
      erewrite new_events_app.
      2:{ rewrite log_env, stop_named_env. simpl. by rewrite <- app_assoc. }
      rewrite !callbacks_in_app, stop_named_callbacks, callbacks_in_log.
      simpl. by rewrite Hfind, app_nil_r.
  - eexists. split; [done|]. by erewrite new_events_app by by rewrite app_nil_r.
Qed.

Lemma C1_callbacks_run_on_every_stop_witness :
  (∃ w', stop 1 player_walking (Some (NameStr "walk")) = Some w'
         ∧ callbacks_in (new_events player_walking w') = [on_walk_end])
  ∧ (∃ w', tick 1 player_walking 1%positive = Some w'
           ∧ callbacks_in (new_events player_walking w') = [])
  ∧ (∃ w', tick 1 player_last_frame 1%positive = Some w'
           ∧ callbacks_in (new_events player_last_frame w') = [on_walk_end]).
Proof.
  assert (Hf1 : find_animation (NameStr "walk")
                  (sp_animations (w_sprite player_walking))
                = Some (0%nat, mkAnim (NameStr "walk") 0 2 [0; 1; 2] 100
                                      false false None))
    by (vm_compute; reflexivity).
  assert (Hf2 : find_animation (NameStr "walk")
                  (sp_animations (w_sprite player_last_frame))
                = Some (0%nat, mkAnim (NameStr "walk") 0 2 [0; 1; 2] 100
                                      false false None))
    by (vm_compute; reflexivity).
  destruct (C1_callbacks_run_on_every_stop 0 player_walking (NameStr "walk")
              _ _ eq_refl Hf1) as [Hstop Htick1].
  destruct (C1_callbacks_run_on_every_stop 0 player_last_frame
              (NameStr "walk") _ _ eq_refl Hf2) as [_ Htick3].
  split; [exact Hstop|]. split.
  - edestruct (Htick1 1%positive) as (w' & Hw' & Hcb);
      [vm_compute; reflexivity|reflexivity|].
    exists w'. split; [exact Hw'|]. rewrite Hcb. reflexivity.
  - edestruct (Htick3 1%positive) as (w' & Hw' & Hcb);
      [vm_compute; reflexivity|reflexivity|].
    exists w'. split; [exact Hw'|]. rewrite Hcb. reflexivity.
Defined.

(** C1 as stated fails: 'walk' is playing with one end-callback
    registered; the caller's [stop(sprite, 'walk')] calls it. *)
Lemma C1_counterexample :
  Map_get "walk"%string (sp_animationCallbacks (w_sprite player_walking))
  = Some [on_walk_end]
  ∧ ∃ w', stop 1 player_walking (Some (NameStr "walk")) = Some w'
          ∧ new_events player_walking w'
            = [EvClearInterval 1%positive; EvCallback on_walk_end].
Proof.
  split; [vm_compute; reflexivity|].
  eexists. split; [vm_compute; reflexivity|]. vm_compute. reflexivity.
Qed.

(** ** [stop] on a name that is not playing *)


Lemma play_with_inert fuel w name loop :
  truthy_name (Some name) = true →
  play (S fuel) w name loop = Some (play_with inert w name loop).
Proof.
  intros Hname. unfold play, play_with.
  destruct (find_animation _ _) as [[i a]|]; [|done].
  destruct (getSpriteSheetForAnimation _ _); [|done].
  by rewrite stop_truthy.
Qed.

Lemma tick_with_inert fuel w id c :
  e_timers (w_env w) !! id = Some c →
  truthy_name (Some (tk_animationName c)) = true →
  tick (S fuel) w id = Some (tick_with inert w id).
Proof.
  intros Hc Hname. unfold tick, tick_with. rewrite Hc.
  rewrite !stop_truthy by done.
  destruct (tk_frames c !! tk_frameIndex c) as [f|]; [|done].
  destruct (negb _); [done|].
  case_bool_decide; [|done].
  destruct (tk_shouldLoop c); [done|].
  by rewrite stop_truthy.
Qed.

Lemma start_playback_callbacks w1 name loop i a sh :
  sp_animationCallbacks (w_sprite (start_playback w1 name loop i a sh))
  = sp_animationCallbacks (w_sprite w1).
Proof.
  unfold start_playback. destruct w1 as [s [t ar r n tr]]; simpl.
  by rewrite !log_sprite.
Qed.

Lemma inert_keeps_callbacks : keeps_callbacks inert.
Proof. intros cb w. reflexivity. Qed.

Lemma return_to_idle_keeps_callbacks : keeps_callbacks return_to_idle.
Proof.
  intros cb w. unfold return_to_idle, play_with.
  destruct (find_animation _ _) as [[i a]|]; [|done].
  destruct (getSpriteSheetForAnimation _ _) as [sh|]; [|done].
  cbn [snd]. rewrite start_playback_callbacks.
  change (stop_named_with _ w (NameStr "idle"))
    with (stop_named w (NameStr "idle")).
  by rewrite stop_named_sprite.
Qed.

Lemma stop_named_with_not_found body w name :
  find_animation name (sp_animations (w_sprite w)) = None →
  stop_named_with body w name = stop_named w name.
Proof.
  intros Hfind. unfold stop_named_with, stop_named.
  destruct w as [s e]; simpl in *.
  destruct (Map_get (String_of_name name) (sp_activeIntervals s)); simpl;
    by rewrite Hfind.
Qed.

Lemma stop_named_with_found body w name i a :
  find_animation name (sp_animations (w_sprite w)) = Some (i, a) →
  stop_named_with body w name
  = log (foldl (invoke_with body) (stopped_state w name i)
               (default [] (Map_get (String_of_name name)
                                    (sp_animationCallbacks (w_sprite w))))).
Proof.
  intros Hfind. unfold stop_named_with, stopped_state, backfill, log_refs.
  destruct w as [s [t ar r n tr]]; simpl in *.
  destruct (Map_get (String_of_name name) (sp_activeIntervals s))
    as [interval|] eqn:Hget; simpl; rewrite Hfind; simpl.
  - destruct (find_played _ _ _) as [[r0 pa]|]; simpl;
      by destruct (Map_get (String_of_name name) (sp_animationCallbacks s)).
  - rewrite (Map_delete_absent _ _ Hget), app_nil_r.
    destruct (find_played _ _ _) as [[r0 pa]|]; simpl;
      destruct (Map_get (String_of_name name) (sp_animationCallbacks s));
      by destruct s.
Qed.

(** Whatever holds across a console line and across each callback holds
    across the whole loop over the callbacks. *)
Lemma foldl_invoke_with_rel (R : World → World → Prop) body cbs :
  (∀ w, R w w) →
  (∀ w1 w2 w3, R w1 w2 → R w2 w3 → R w1 w3) →
  (∀ w ev, R w (with_env (emit ev) w)) →
  (∀ cb w, cb ∈ cbs → R w (body cb w)) →
  ∀ w, R w (foldl (invoke_with body) w cbs).
Proof.
  intros Hrefl Htrans Hemit.
  induction cbs as [|cb cbs IH]; intros Hbody w; simpl; [done|].
  eapply Htrans; [|apply IH; intros cb' w' Hin; apply Hbody; by right].
  unfold invoke_with.
  assert (Hcall : R w (body cb (with_env (emit (EvCallback cb)) w))).
  { eapply Htrans; [apply Hemit|]. apply Hbody. by left. }
  destruct (cb_throws cb); [|done].
  eapply Htrans; [exact Hcall|]. apply Hemit.
Qed.

Lemma unchanged_refl w : unchanged w w.
Proof. by repeat split. Qed.

Lemma unchanged_trans w1 w2 w3 :
  unchanged w1 w2 → unchanged w2 w3 → unchanged w1 w3.
Proof.
  intros (Hs & Ht & Ha & Hr & Hn) (Hs' & Ht' & Ha' & Hr' & Hn').
  repeat split; congruence.
Qed.

Lemma unchanged_emit w ev : unchanged w (with_env (emit ev) w).
Proof. by repeat split. Qed.

Lemma unchanged_log w : unchanged w (log w).
Proof.
  unfold unchanged. rewrite log_sprite, log_env. by repeat split.
Qed.




(** ** The playback log *)

(** [find] returns the first match: no reference before the one found
    leads to an unfinished record of that name. *)
Lemma find_played_first nameStr records refs r pa :
  find_played nameStr records refs = Some (r, pa) →
  ∃ before after,
    refs = before ++ r :: after
    ∧ records !! r = Some pa
    ∧ unfinished nameStr pa = true
    ∧ ∀ r' pa', r' ∈ before → records !! r' = Some pa' →
                unfinished nameStr pa' = false.
Proof.
  induction refs as [|r0 refs IH]; simpl; [done|].
  destruct (records !! r0) as [pa0|] eqn:Hr0.
  - destruct (unfinished nameStr pa0) eqn:Hu.
    + intros [= <- <-]. exists [], refs. repeat split; try done.
      intros r' pa' Hin. by apply elem_of_nil in Hin.
    + intros H. destruct (IH H) as (before & after & -> & Hr & Hpa & Hbefore).
      exists (r0 :: before), after. repeat split; try done.
      intros r' pa' Hin Hr'. apply elem_of_cons in Hin as [->|Hin].
      * congruence.
      * by apply (Hbefore r').
  - intros H. destruct (IH H) as (before & after & -> & Hr & Hpa & Hbefore).
    exists (r0 :: before), after. repeat split; try done.
    intros r' pa' Hin Hr'. apply elem_of_cons in Hin as [->|Hin].
    + congruence.
    + by apply (Hbefore r').
Qed.

(** What [stop] does to the log: the record found by [find] gets its
    length, every other record object stays as it was, and the array is
    not touched. *)
Lemma stop_backfills_first_unfinished fuel w name i a :
  truthy_name (Some name) = true →
  find_animation name (sp_animations (w_sprite w)) = Some (i, a) →
  ∃ w', stop (S fuel) w (Some name) = Some w'
        ∧ log_refs w' = log_refs w
        ∧ match find_played (String_of_name name) (e_records (w_env w))
                  (log_refs w) with
          | Some (r, pa) =>
              e_records (w_env w') !! r
              = Some (set_length (e_now (w_env w) - pa_timestamp pa) pa)
              ∧ ∀ r', r' ≠ r →
                      e_records (w_env w') !! r' = e_records (w_env w) !! r'
          | None => e_records (w_env w') = e_records (w_env w)
          end.
Proof.
  intros Hname Hfind. eexists. split; [by apply stop_truthy|].
  unfold log_refs. rewrite stop_named_env, stop_named_sprite. simpl.
  split; [done|]. rewrite Hfind. unfold backfill, log_refs.
  destruct (find_played _ _ _) as [[r pa]|]; [|done].
  split; [apply lookup_insert_eq|]. intros r' Hne.
  by rewrite lookup_insert_ne.
Qed.

(** C3 on the code: 'walk' was played (looping) and restarted within one
    millisecond, so the record of the first playback keeps length 0.  The
    log holds two unfinished records; the [stop] at 1250 that ends the
    second playback writes the elapsed time into the first record, which
    had ended after 0 ms, and leaves the record of the playback that it
    ends (the latest one) at length 0. *)
Theorem C3_stop_backfills_earliest_record :
  playedAnimations player_toggled
  = [mkPlayed "walk" 1000 0 true; mkPlayed "walk" 1000 0 false]
  ∧ Map_get "walk"%string (sp_activeIntervals (w_sprite player_toggled))
    = Some 1%positive
  ∧ ∃ w', stop 1 player_toggled (Some (NameStr "walk")) = Some w'
          ∧ playedAnimations w'
            = [mkPlayed "walk" 1000 250 true; mkPlayed "walk" 1000 0 false].
Proof.
  split; [vm_compute; reflexivity|]. split; [vm_compute; reflexivity|].
  eexists. split; [vm_compute; reflexivity|]. vm_compute. reflexivity.
Qed.

(** ** destroy *)

Lemma clear_all_spec ids :
  ∀ e,
    e_arrays (clear_all ids e) = e_arrays e
    ∧ e_records (clear_all ids e) = e_records e
    ∧ e_now (clear_all ids e) = e_now e
    ∧ e_trace (clear_all ids e) = e_trace e ++ (EvClearInterval <$> ids)
    ∧ (∀ id, e_timers e !! id = None → e_timers (clear_all ids e) !! id = None)
    ∧ (∀ id, id ∈ ids → e_timers (clear_all ids e) !! id = None).
Proof.
  unfold clear_all.
  induction ids as [|id0 ids IH]; intros e; simpl.
  { rewrite app_nil_r. repeat split; try done.
    intros id Hin. by apply elem_of_nil in Hin. }
  destruct (IH (emit (EvClearInterval id0)
                  (set_timers (delete id0 (e_timers e)) e)))
    as (Ha & Hr & Hn & Ht & Hmono & Hin).
  rewrite Ha, Hr, Hn, Ht. simpl. rewrite <- app_assoc.
  repeat split; try done.
  - intros id Hid. apply Hmono. simpl.
    destruct (decide (id0 = id)) as [->|Hne];
      [apply lookup_delete_eq|by rewrite lookup_delete_ne].
  - intros id Hid. apply elem_of_cons in Hid as [->|Hid].
    + apply Hmono. simpl. apply lookup_delete_eq.
    + by apply Hin.
Qed.

(** What [destroy] does, for every sprite: the timers of all active
    animations are cleared, [activeIntervals], [animationCallbacks] and
    [spritesheets] are emptied, the log array is truncated, the element is
    removed once; [animations] is not touched. *)
Lemma destroy_effect w :
  sp_activeIntervals (w_sprite (destroy w)) = []
  ∧ sp_animationCallbacks (w_sprite (destroy w)) = []
  ∧ sp_spritesheets (w_sprite (destroy w)) = []
  ∧ playedAnimations (destroy w) = []
  ∧ (∀ k id, Map_get k (sp_activeIntervals (w_sprite w)) = Some id →
             e_timers (w_env (destroy w)) !! id = None)
  ∧ new_events w (destroy w)
    = (EvClearInterval <$> Map_values (sp_activeIntervals (w_sprite w)))
        ++ [EvRemoveElement] ++ log_events (w_sprite w)
  ∧ sp_animations (w_sprite (destroy w)) = sp_animations (w_sprite w).
Proof.
  unfold destroy. rewrite !log_sprite.
  destruct w as [s e]. simpl.
  destruct (clear_all_spec (Map_values (sp_activeIntervals s)) e)
    as (Ha & Hr & Hn & Ht & Hmono & Hin).
  split; [done|]. split; [done|]. split; [done|]. split.
  { unfold playedAnimations, log_refs. rewrite log_sprite, log_env. simpl.
    by rewrite lookup_insert_eq. }
  split.
  { intros k id Hget. rewrite log_env. simpl. apply Hin.
    apply Map_get_Some_elem in Hget. unfold Map_values.
    apply list_elem_of_fmap. by exists (k, id). }
  split; [|done].
  apply new_events_app. rewrite log_env. simpl. rewrite Ht.
  by rewrite <- !app_assoc.
Qed.

(** C4 on the code: 'walk' is registered and playing; after [destroy] the
    timer is cleared, the three maps and the log are empty and the element
    has been removed exactly once, but [sprite.animations] still holds
    the animation (and still says it is not stopped). *)
Theorem C4_destroy_leaves_animations :
  let w' := destroy player_walking in
  sp_spritesheets (w_sprite w') = []
  ∧ sp_activeIntervals (w_sprite w') = []
  ∧ sp_animationCallbacks (w_sprite w') = []
  ∧ playedAnimations w' = []
  ∧ e_timers (w_env w') = ∅
  ∧ new_events player_walking w' = [EvClearInterval 1%positive; EvRemoveElement]
  ∧ sp_animations (w_sprite w')
    = [mkAnim (NameStr "walk") 0 2 [0; 1; 2] 100 false false None].
Proof. repeat split; vm_compute; reflexivity. Qed.

(** ** play *)

Lemma validateFrameIndex_cell f sheet :
  validateFrameIndex f sheet = true →
  ∃ css, sheet_cells sheet !! Z.to_nat f = Some css.
Proof.
  unfold validateFrameIndex. intros H.
  apply andb_true_iff in H as [H1 H2].
  apply Z.leb_le in H1, H2.
  apply lookup_lt_is_Some. lia.
Qed.

Lemma stop_named_animations_length w name :
  length (sp_animations (w_sprite (stop_named w name)))
  = length (sp_animations (w_sprite w)).
Proof.
  rewrite stop_named_sprite. simpl.
  destruct (find_animation _ _) as [[i a]|]; [|done].
  apply length_alter.
Qed.

Lemma stop_each_animations_length ks :
  ∀ w, length (sp_animations (w_sprite (stop_each ks w)))
       = length (sp_animations (w_sprite w)).
Proof.
  unfold stop_each. induction ks as [|k ks IH]; intros w; simpl; [done|].
  rewrite IH. destruct (Map_has k _); [|done].
  apply stop_named_animations_length.
Qed.

(** Whatever branch [stop] takes, when it returns the playback registered
    under the name is over and no animation object has been added or
    removed. *)
Lemma stop_ends_playback fuel w name w1 :
  stop fuel w (Some name) = Some w1 →
  Map_get (String_of_name name) (sp_activeIntervals (w_sprite w1)) = None
  ∧ (∀ old, Map_get (String_of_name name) (sp_activeIntervals (w_sprite w))
            = Some old → e_timers (w_env w1) !! old = None)
  ∧ length (sp_animations (w_sprite w1)) = length (sp_animations (w_sprite w)).
Proof.
  intros Hstop. destruct (truthy_name (Some name)) eqn:Hname.
  - destruct fuel as [|fuel]; [done|].
    rewrite stop_truthy in Hstop by done. injection Hstop as <-.
    rewrite stop_named_sprite, stop_named_env. simpl. split.
    { apply Map_get_delete_eq. }
    split.
    { intros old ->. apply lookup_delete_eq. }
    destruct (find_animation _ _) as [[i a]|]; [|done]. apply length_alter.
  - apply stop_all_returns in Hstop; [|done]. subst w1.
    rewrite stop_all_active. split; [done|]. split.
    { intros old. apply stop_all_clears. }
    unfold stop_all. rewrite log_sprite. apply stop_each_animations_length.
Qed.

Lemma find_animation_lookup name l i a :
  find_animation name l = Some (i, a) → l !! i = Some a ∧ anim_name a = name.
Proof.
  unfold find_animation. intros H. apply list_find_Some in H. tauto.
Qed.

Lemma stop_each_keeps_clock ks :
  ∀ w, e_now (w_env (stop_each ks w)) = e_now (w_env w).
Proof.
  unfold stop_each. induction ks as [|k ks IH]; intros w; simpl; [done|].
  rewrite IH. destruct (Map_has k _); [|done]. by rewrite stop_named_env.
Qed.

Lemma stop_keeps_clock fuel w name w1 :
  stop fuel w name = Some w1 → e_now (w_env w1) = e_now (w_env w).
Proof.
  intros Hstop. destruct (truthy_name name) eqn:Hname.
  - destruct name as [n|]; [|done]. destruct fuel as [|fuel]; [done|].
    rewrite stop_truthy in Hstop by done. injection Hstop as <-.
    by rewrite stop_named_env.
  - apply stop_all_returns in Hstop; [|done]. subst w1.
    unfold stop_all. rewrite log_env. simpl. apply stop_each_keeps_clock.
Qed.

Lemma stop_named_keeps_log_refs w name :
  log_refs (stop_named w name) = log_refs w.
Proof.
  unfold log_refs. by rewrite stop_named_env, stop_named_sprite.
Qed.

Lemma stop_each_keeps_log_refs ks :
  ∀ w, log_refs (stop_each ks w) = log_refs w.
Proof.
  unfold stop_each. induction ks as [|k ks IH]; intros w; simpl; [done|].
  rewrite IH. destruct (Map_has k _); [|done].
  apply stop_named_keeps_log_refs.
Qed.

(** [stop] never touches the log array itself, only records. *)
Lemma stop_keeps_log_refs fuel w name w1 :
  stop fuel w name = Some w1 → log_refs w1 = log_refs w.
Proof.
  intros Hstop. destruct (truthy_name name) eqn:Hname.
  - destruct name as [n|]; [|done]. destruct fuel as [|fuel]; [done|].
    rewrite stop_truthy in Hstop by done. injection Hstop as <-.
    apply stop_named_keeps_log_refs.
  - apply stop_all_returns in Hstop; [|done]. subst w1.
    unfold stop_all.
    transitivity (log_refs (stop_each
                              (Map_keys (sp_activeIntervals (w_sprite w))) w));
      [|apply stop_each_keeps_log_refs].
    unfold log_refs. by rewrite log_env, log_sprite.
Qed.

Lemma play_fails_iff fuel w name loop :
  (∃ w', play fuel w name loop = Some (false, w'))
  ↔ (find_animation name (sp_animations (w_sprite w)) = None
     ∨ ∃ i a, find_animation name (sp_animations (w_sprite w)) = Some (i, a)
              ∧ getSpriteSheetForAnimation (w_sprite w) a = None).
Proof.
  unfold play.
  destruct (find_animation _ _) as [[i a]|]; [|split; eauto].
  destruct (getSpriteSheetForAnimation _ _) as [sh|] eqn:Hsh.
  - split.
    + intros [w' H]. destruct (stop _ _ _); done.
    + intros [?|(i' & a' & [= <- <-] & H)]; [done|]. congruence.
  - split; [|eauto]. intros _. right. eauto.
Qed.

Lemma play_failure_changes_nothing fuel w name loop w' :
  play fuel w name loop = Some (false, w') →
  w_sprite w' = w_sprite w
  ∧ e_timers (w_env w') = e_timers (w_env w)
  ∧ e_arrays (w_env w') = e_arrays (w_env w)
  ∧ e_records (w_env w') = e_records (w_env w)
  ∧ new_events w w' = [EvError "play"].
Proof.
  unfold play. intros H.
  assert (w' = logError "play" w) as ->.
  { destruct (find_animation _ _) as [[i a]|]; [|congruence].
    destruct (getSpriteSheetForAnimation _ _); [|congruence].
    destruct (stop _ _ _); done. }
  repeat split. by apply new_events_app.
Qed.

Lemma play_success fuel w name loop i a sh w' :
  find_animation name (sp_animations (w_sprite w)) = Some (i, a) →
  getSpriteSheetForAnimation (w_sprite w) a = Some sh →
  play fuel w name loop = Some (true, w') →
  ∃ w1 id r,
    stop fuel w (Some name) = Some w1
    ∧ (∀ old, Map_get (String_of_name name) (sp_activeIntervals (w_sprite w))
              = Some old → e_timers (w_env w1) !! old = None)
    ∧ Map_get (String_of_name name) (sp_activeIntervals (w_sprite w1)) = None
    ∧ log_refs w' = log_refs w ++ [r]
    ∧ e_records (w_env w1) !! r = None
    ∧ e_records (w_env w') !! r
      = Some (mkPlayed (String_of_name name) (e_now (w_env w)) 0
                       (default (anim_loop a) loop))
    ∧ (anim_stopped <$> sp_animations (w_sprite w') !! i) = Some false
    ∧ Map_get (String_of_name name) (sp_activeIntervals (w_sprite w'))
      = Some id
    ∧ e_timers (w_env w1) !! id = None
    ∧ e_timers (w_env w') !! id
      = Some (mkClosure name (anim_frames a) sh (default (anim_loop a) loop)
                        0%nat (anim_speed a)).
Proof.
  intros Hfind Hsh. unfold play. rewrite Hfind, Hsh.
  destruct (stop fuel w (Some name)) as [w1|] eqn:Hstop; [|done].
  intros [= <-].
  destruct (stop_ends_playback _ _ _ _ Hstop) as (Hgone & Hold & Hlen).
  exists w1, (fresh (dom (e_timers (w_env w1)))),
         (fresh (dom (e_records (w_env w1)))).
  destruct (start_playback_log w1 name loop i a sh) as [Hrefs Hrecs].
  rewrite Hrefs, Hrecs, start_playback_animations, start_playback_active,
    start_playback_timers.
  rewrite (stop_keeps_clock _ _ _ _ Hstop).
  rewrite (stop_keeps_log_refs _ _ _ _ Hstop).
  split; [done|]. split; [done|]. split; [done|]. split; [done|].
  split; [apply not_elem_of_dom, is_fresh|].
  split; [apply lookup_insert_eq|].
  split.
  { rewrite list_lookup_alter_eq.
    apply find_animation_lookup in Hfind as [Hi _].
    apply lookup_lt_Some in Hi. rewrite <- Hlen in Hi.
    apply lookup_lt_is_Some in Hi as [a1 ->]. done. }
  split; [apply Map_get_set_eq|].
  split; [apply not_elem_of_dom, is_fresh|].
  apply lookup_insert_eq.
Qed.

(** ** The tick handler *)

Lemma tick_valid_frame fuel w id c f :
  e_timers (w_env w) !! id = Some c →
  tk_frames c !! tk_frameIndex c = Some f →
  validateFrameIndex f (tk_spritesheet c) = true →
  ∃ css,
    sheet_cells (tk_spritesheet c) !! Z.to_nat f = Some css
    ∧ let shown cursor :=
        mkWorld
          (set_currentFrame (Some f)
             (set_background (Some css) (w_sprite w)))
          (set_timers (<[id := set_frameIndex cursor c]> (e_timers (w_env w)))
                      (w_env w)) in
      tick fuel w id
      = if bool_decide (S (tk_frameIndex c) < length (tk_frames c))%nat
        then Some (shown (S (tk_frameIndex c)))
        else if tk_shouldLoop c then Some (shown 0%nat)
             else log <$> stop fuel (shown (S (tk_frameIndex c)))
                               (Some (tk_animationName c)).
Proof.
  intros Hc Hf Hvalid.
  destruct (validateFrameIndex_cell _ _ Hvalid) as [css Hcss].
  exists css. split; [done|]. simpl.
  unfold tick. rewrite Hc, Hf, Hvalid, Hcss. simpl.
  repeat case_bool_decide; try lia; done.
Qed.

Lemma tick_completion_stops fuel w id c f :
  e_timers (w_env w) !! id = Some c →
  tk_frames c !! tk_frameIndex c = Some f →
  validateFrameIndex f (tk_spritesheet c) = true →
  (length (tk_frames c) ≤ S (tk_frameIndex c))%nat →
  tk_shouldLoop c = false →
  truthy_name (Some (tk_animationName c)) = true →
  ∃ w',
    tick (S fuel) w id = Some w'
    ∧ sp_currentFrame (w_sprite w') = Some f
    ∧ sp_background (w_sprite w')
      = sheet_cells (tk_spritesheet c) !! Z.to_nat f
    ∧ Map_get (String_of_name (tk_animationName c))
              (sp_activeIntervals (w_sprite w')) = None
    ∧ (Map_get (String_of_name (tk_animationName c))
               (sp_activeIntervals (w_sprite w)) = Some id →
       e_timers (w_env w') !! id = None)
    ∧ ∀ i a, find_animation (tk_animationName c)
                            (sp_animations (w_sprite w)) = Some (i, a) →
             (anim_stopped <$> sp_animations (w_sprite w') !! i) = Some true.
Proof.
  intros Hc Hf Hvalid Hlen Hloop Hname.
  destruct (tick_valid_frame (S fuel) w id c f Hc Hf Hvalid)
    as (css & Hcss & Htick).
  simpl in Htick. rewrite bool_decide_eq_false_2 in Htick by lia.
  rewrite Hloop, stop_truthy in Htick by done. simpl in Htick.
  eexists. split; [exact Htick|].
  rewrite log_sprite, log_env, stop_named_sprite, stop_named_env. simpl.
  split; [done|]. split; [done|]. split; [apply Map_get_delete_eq|].
  split.
  { intros ->. apply lookup_delete_eq. }
  intros i a Hfind. rewrite Hfind, list_lookup_alter_eq.
  apply find_animation_lookup in Hfind as [-> _]. done.
Qed.

Lemma tick_invalid_frame fuel w id c :
  e_timers (w_env w) !! id = Some c →
  (∀ f, tk_frames c !! tk_frameIndex c = Some f →
        validateFrameIndex f (tk_spritesheet c) = false) →
  tick fuel w id
  = stop fuel (logError "play" w) (Some (tk_animationName c)).
Proof.
  intros Hc Hinvalid. unfold tick. rewrite Hc.
  destruct (tk_frames c !! tk_frameIndex c) as [f|]; [|done].
  by rewrite (Hinvalid f eq_refl).
Qed.

Lemma tick_invalid_stops fuel w id c :
  e_timers (w_env w) !! id = Some c →
  (∀ f, tk_frames c !! tk_frameIndex c = Some f →
        validateFrameIndex f (tk_spritesheet c) = false) →
  truthy_name (Some (tk_animationName c)) = true →
  ∃ w',
    tick (S fuel) w id = Some w'
    ∧ sp_currentFrame (w_sprite w') = sp_currentFrame (w_sprite w)
    ∧ sp_background (w_sprite w') = sp_background (w_sprite w)
    ∧ Map_get (String_of_name (tk_animationName c))
              (sp_activeIntervals (w_sprite w')) = None
    ∧ (Map_get (String_of_name (tk_animationName c))
               (sp_activeIntervals (w_sprite w)) = Some id →
       e_timers (w_env w') !! id = None)
    ∧ ∀ i a, find_animation (tk_animationName c)
                            (sp_animations (w_sprite w)) = Some (i, a) →
             (anim_stopped <$> sp_animations (w_sprite w') !! i) = Some true.
Proof.
  intros Hc Hinvalid Hname.
  rewrite (tick_invalid_frame _ _ _ _ Hc Hinvalid), stop_truthy by done.
  eexists. split; [done|].
  rewrite stop_named_sprite, stop_named_env. simpl.
  split; [done|]. split; [done|]. split; [apply Map_get_delete_eq|].
  split.
  { intros ->. apply lookup_delete_eq. }
  intros i a Hfind. rewrite Hfind, list_lookup_alter_eq.
  apply find_animation_lookup in Hfind as [-> _]. done.
Qed.

(** C5, as found in the code.  [play] returns false exactly when the named
    animation does not exist or no sheet is resolved for it, and then
    changes nothing and starts no timer.  The sheet is the one bound to the
    animation, else the current sheet when it is registered, else the
    first sheet in insertion order.  A call that succeeds has stopped the
    playback registered under the name, appended a fresh record of length
    0 to the log, set [stopped] to false and registered a new timer whose
    handler starts at cursor 0 with the effective loop flag (the per-call
    override, else the animation's own); for a truthy name the call does
    succeed whenever the animation and a sheet are found.  A tick whose
    frame at the cursor is in range for the resolved sheet shows that
    frame, sets [currentFrame] and advances the cursor; when the cursor is
    exhausted it wraps to 0 if the loop flag is set and otherwise calls
    [stop] for the animation.  A tick that finds no frame at the cursor,
    or one that is out of range for the resolved sheet, shows nothing and
    calls [stop] for the animation.  For a truthy name either call of
    [stop] ends the playback: the entry is removed, the timer cleared and
    [stopped] set. *)
Theorem C5_play_and_tick (fuel : nat) (w : World) (name : AnimName)
  (loop : option bool) :
  ((∃ w', play fuel w name loop = Some (false, w'))
   ↔ (find_animation name (sp_animations (w_sprite w)) = None
      ∨ ∃ i a, find_animation name (sp_animations (w_sprite w)) = Some (i, a)
               ∧ getSpriteSheetForAnimation (w_sprite w) a = None))
  ∧ (∀ w', play fuel w name loop = Some (false, w') →
       w_sprite w' = w_sprite w
       ∧ e_timers (w_env w') = e_timers (w_env w)
       ∧ e_arrays (w_env w') = e_arrays (w_env w)
       ∧ e_records (w_env w') = e_records (w_env w))
  ∧ (∀ a,
       (∀ id, anim_spritesheet a = Some id → truthy_string id = true →
              getSpriteSheetForAnimation (w_sprite w) a
              = Map_get id (sp_spritesheets (w_sprite w)))
       ∧ (∀ cur sh, anim_spritesheet a = None →
                    sp_currentSpritesheetId (w_sprite w) = Some cur →
                    truthy_string cur = true →
                    Map_get cur (sp_spritesheets (w_sprite w)) = Some sh →
                    getSpriteSheetForAnimation (w_sprite w) a = Some sh)
       ∧ (anim_spritesheet a = None →
          (∀ cur, sp_currentSpritesheetId (w_sprite w) = Some cur →
                  Map_get cur (sp_spritesheets (w_sprite w)) = None) →
          getSpriteSheetForAnimation (w_sprite w) a
          = Map_first_value (sp_spritesheets (w_sprite w))))
  ∧ (∀ i a sh w',
       find_animation name (sp_animations (w_sprite w)) = Some (i, a) →
       getSpriteSheetForAnimation (w_sprite w) a = Some sh →
       play fuel w name loop = Some (true, w') →
       ∃ w1 id r,
         stop fuel w (Some name) = Some w1
         ∧ (∀ old, Map_get (String_of_name name)
                           (sp_activeIntervals (w_sprite w)) = Some old →
                   e_timers (w_env w1) !! old = None)
         ∧ Map_get (String_of_name name) (sp_activeIntervals (w_sprite w1))
           = None
         ∧ log_refs w' = log_refs w ++ [r]
         ∧ e_records (w_env w1) !! r = None
         ∧ e_records (w_env w') !! r
           = Some (mkPlayed (String_of_name name) (e_now (w_env w)) 0
                            (default (anim_loop a) loop))
         ∧ (anim_stopped <$> sp_animations (w_sprite w') !! i) = Some false
         ∧ Map_get (String_of_name name) (sp_activeIntervals (w_sprite w'))
           = Some id
         ∧ e_timers (w_env w1) !! id = None
         ∧ e_timers (w_env w') !! id
           = Some (mkClosure name (anim_frames a) sh
                             (default (anim_loop a) loop) 0%nat
                             (anim_speed a)))
  ∧ (∀ i a sh,
       find_animation name (sp_animations (w_sprite w)) = Some (i, a) →
       getSpriteSheetForAnimation (w_sprite w) a = Some sh →
       truthy_name (Some name) = true →
       ∃ w', play (S fuel) w name loop = Some (true, w'))
  ∧ (∀ id c f,
       e_timers (w_env w) !! id = Some c →
       tk_frames c !! tk_frameIndex c = Some f →
       validateFrameIndex f (tk_spritesheet c) = true →
       (∃ css,
          sheet_cells (tk_spritesheet c) !! Z.to_nat f = Some css
          ∧ let shown cursor :=
              mkWorld
                (set_currentFrame (Some f)
                   (set_background (Some css) (w_sprite w)))
                (set_timers
                   (<[id := set_frameIndex cursor c]> (e_timers (w_env w)))
                   (w_env w)) in
            tick fuel w id
            = if bool_decide (S (tk_frameIndex c) < length (tk_frames c))%nat
              then Some (shown (S (tk_frameIndex c)))
              else if tk_shouldLoop c then Some (shown 0%nat)
                   else log <$> stop fuel (shown (S (tk_frameIndex c)))
                                     (Some (tk_animationName c)))
       ∧ ((length (tk_frames c) ≤ S (tk_frameIndex c))%nat →
          tk_shouldLoop c = false →
          truthy_name (Some (tk_animationName c)) = true →
          ∃ w',
            tick (S fuel) w id = Some w'
            ∧ sp_currentFrame (w_sprite w') = Some f
            ∧ sp_background (w_sprite w')
              = sheet_cells (tk_spritesheet c) !! Z.to_nat f
            ∧ Map_get (String_of_name (tk_animationName c))
                      (sp_activeIntervals (w_sprite w')) = None
            ∧ (Map_get (String_of_name (tk_animationName c))
                       (sp_activeIntervals (w_sprite w)) = Some id →
               e_timers (w_env w') !! id = None)
            ∧ ∀ i a, find_animation (tk_animationName c)
                                    (sp_animations (w_sprite w))
                     = Some (i, a) →
                     (anim_stopped <$> sp_animations (w_sprite w') !! i)
                     = Some true))
  ∧ (∀ id c,
       e_timers (w_env w) !! id = Some c →
       (∀ f, tk_frames c !! tk_frameIndex c = Some f →
             validateFrameIndex f (tk_spritesheet c) = false) →
       tick fuel w id
       = stop fuel (logError "play" w) (Some (tk_animationName c))
       ∧ (truthy_name (Some (tk_animationName c)) = true →
          ∃ w',
            tick (S fuel) w id = Some w'
            ∧ sp_currentFrame (w_sprite w') = sp_currentFrame (w_sprite w)
            ∧ sp_background (w_sprite w') = sp_background (w_sprite w)
            ∧ Map_get (String_of_name (tk_animationName c))
                      (sp_activeIntervals (w_sprite w')) = None
            ∧ (Map_get (String_of_name (tk_animationName c))
                       (sp_activeIntervals (w_sprite w)) = Some id →
               e_timers (w_env w') !! id = None)
            ∧ ∀ i a, find_animation (tk_animationName c)
                                    (sp_animations (w_sprite w))
                     = Some (i, a) →
                     (anim_stopped <$> sp_animations (w_sprite w') !! i)
                     = Some true)).
Proof.
  split; [apply play_fails_iff|].
  split.
  { intros w' H. apply play_failure_changes_nothing in H. tauto. }
  split.
  { intros a. unfold getSpriteSheetForAnimation. repeat split.
    - intros id -> Hid. simpl. by rewrite Hid.
    - intros cur sh -> -> Hcur Hsh. simpl. unfold Map_has.
      by rewrite Hcur, Hsh.
    - intros -> Hcur. simpl.
      destruct (sp_currentSpritesheetId (w_sprite w)) as [cur|]; [|done].
      unfold Map_has. rewrite (Hcur cur eq_refl).
      by rewrite andb_false_r. }
  split.
  { intros i a sh w'. apply play_success. }
  split.
  { intros i a sh. apply play_succeeds_truthy. }
  split.
  { intros id c f Hc Hf Hvalid. split.
    - by apply tick_valid_frame.
    - by apply tick_completion_stops. }
  intros id c Hc Hinvalid. split.
  - by apply tick_invalid_frame.
  - by apply tick_invalid_stops.
Qed.

Lemma C5_play_and_tick_witness :
  (∃ w', play 1 player_walk_cb (NameStr "nope") None = Some (false, w'))
  ∧ (∃ w' id,
       play 1 player_walk_cb (NameStr "walk") None = Some (true, w')
       ∧ Map_get "walk"%string (sp_activeIntervals (w_sprite w')) = Some id
       ∧ (tk_frameIndex <$> e_timers (w_env w') !! id) = Some 0%nat
       ∧ playedAnimations w' = [mkPlayed "walk" 1000 0 false])
  ∧ (∃ w', tick 1 player_walking 1%positive = Some w'
           ∧ sp_currentFrame (w_sprite w') = Some 0
           ∧ sp_background (w_sprite w')
             = Some "url('/player.png') 0px 0px"%string
           ∧ (tk_frameIndex <$> e_timers (w_env w') !! 1%positive)
             = Some 1%nat)
  ∧ (∃ w', tick 1 player_last_frame 1%positive = Some w'
           ∧ sp_currentFrame (w_sprite w') = Some 2
           ∧ e_timers (w_env w') !! 1%positive = None)
  ∧ ∃ w', tick 1 player_icon_tick1 1%positive = Some w'
          ∧ sp_currentFrame (w_sprite w') = Some 0
          ∧ e_timers (w_env w') !! 1%positive = None.
Proof.
  split.
  { destruct (C5_play_and_tick 1 player_walk_cb (NameStr "nope") None)
      as [Hiff _].
    apply Hiff. left. reflexivity. }
  split.
  { destruct (C5_play_and_tick 1 player_walk_cb (NameStr "walk") None)
      as (_ & _ & _ & Hok & _).
    edestruct (Hok 0%nat) as (w1 & id & r & _ & _ & _ & _ & _ & _ & _ & Hid & _ & Ht);
      [vm_compute; reflexivity|vm_compute; reflexivity
      |vm_compute; reflexivity|].
    eexists _, id. split; [vm_compute; reflexivity|].
    split; [exact Hid|]. split; [by rewrite Ht|].
    vm_compute. reflexivity. }
  split.
  { destruct (C5_play_and_tick 1 player_walking (NameStr "walk") None)
      as (_ & _ & _ & _ & _ & Htick & _).
    edestruct (Htick 1%positive) as [(css & Hcss & Heq) _];
      [vm_compute; reflexivity|reflexivity|reflexivity|].
    assert (Hcell : css = "url('/player.png') 0px 0px"%string).
    { vm_compute in Hcss. congruence. }
    subst css. clear Heq Hcss.
    eexists. split; [vm_compute; reflexivity|].
    repeat split; vm_compute; reflexivity. }
  split.
  { destruct (C5_play_and_tick 0 player_last_frame (NameStr "walk") None)
      as (_ & _ & _ & _ & _ & Htick & _).
    edestruct (Htick 1%positive) as [_ Hdone];
      [vm_compute; reflexivity|reflexivity|reflexivity|].
    destruct Hdone as (w' & Hw' & Hframe & _ & _ & Hgone & _);
      [vm_compute; lia|reflexivity|reflexivity|].
    exists w'. split; [exact Hw'|]. split; [exact Hframe|].
    apply Hgone. vm_compute. reflexivity. }
  destruct (C5_play_and_tick 0 player_icon_tick1 (NameStr "walk") None)
    as (_ & _ & _ & _ & _ & _ & Hbad).
  edestruct (Hbad 1%positive) as [_ Hstops]; [vm_compute; reflexivity| |].
  { intros f Hf. vm_compute in Hf. injection Hf as <-. reflexivity. }
  destruct Hstops as (w' & Hw' & Hframe & _ & _ & Hgone & _); [reflexivity|].
  exists w'. split; [exact Hw'|]. split.
  - rewrite Hframe. reflexivity.
  - apply Hgone. vm_compute. reflexivity.
Defined.

(** C5 as stated fails: the unbound 'walk' (frames 0, 1, 2) is playing on
    the one-cell sheet that became current after its registration.  The
    second tick finds frame 1 at the cursor, which that sheet does not
    have: it shows nothing, leaves [currentFrame] at 0 and stops the
    animation instead of advancing the cursor. *)
Lemma C5_counterexample :
  (tk_frameIndex <$> e_timers (w_env player_icon_tick1) !! 1%positive)
  = Some 1%nat
  ∧ ((λ c, tk_frames c !! tk_frameIndex c)
       <$> e_timers (w_env player_icon_tick1) !! 1%positive)
    = Some (Some 1)
  ∧ sp_currentFrame (w_sprite player_icon_tick1) = Some 0
  ∧ ∃ w', tick 1 player_icon_tick1 1%positive = Some w'
          ∧ sp_currentFrame (w_sprite w') = Some 0
          ∧ sp_background (w_sprite w')
            = sp_background (w_sprite player_icon_tick1)
          ∧ e_timers (w_env w') = ∅
          ∧ new_events player_icon_tick1 w'
            = [EvError "play"; EvClearInterval 1%positive;
               EvCallback on_walk_end].
Proof.
  split; [vm_compute; reflexivity|]. split; [vm_compute; reflexivity|].
  split; [vm_compute; reflexivity|].
  eexists. split; [vm_compute; reflexivity|].
  repeat split; vm_compute; reflexivity.
Qed.

(** ** addAnimation *)

Lemma find_animation_None name l :
  find_animation name l = None ↔ ¬ ∃ a, a ∈ l ∧ anim_name a = name.
Proof.
  unfold find_animation. rewrite list_find_None, Forall_forall. split.
  - intros H (a & Hin & Ha). by apply (H a).
  - intros H a Hin Ha. apply H. eauto.
Qed.

Lemma filter_empty_iff {A} (P : A → Prop) `{∀ x, Decision (P x)} (l : list A) :
  length (filter P l) = 0%nat ↔ ∀ x, x ∈ l → ¬ P x.
Proof.
  induction l as [|x l IH].
  - split; [|done]. intros _ y Hy. by apply elem_of_nil in Hy.
  - rewrite filter_cons. destruct (decide (P x)) as [HP|HP]; simpl.
    + split; [done|]. intros Hall. exfalso. apply (Hall x); [left|done].
    + rewrite IH. split.
      * intros Hall y Hy. apply elem_of_cons in Hy as [->|Hy]; auto.
      * intros Hall y Hy. apply Hall. by right.
Qed.

Lemma sequential_frames_spec start end_ :
  sequential_frames start end_
  = if bool_decide (2 ^ 32 ≤ end_ - start + 1) then None
    else Some (map (λ i : nat, start + Z.of_nat i)
                   (seq 0 (Z.to_nat (end_ - start + 1)))).
Proof.
  unfold sequential_frames, upto. rewrite map_map.
  destruct (Z.leb_spec (2 ^ 32) (end_ - start + 1)); case_bool_decide;
    try lia; done.
Qed.

Lemma animation_frames_spec o :
  let start := default 0 (ao_start o) in
  match animation_frames o with
  | Frames frames =>
      match ao_frames o with
      | Some l => frames = l
      | None =>
          ∃ end_, ao_end o = Some end_ ∧ end_ - start + 1 < 2 ^ 32
                  ∧ frames = map (λ i : nat, start + Z.of_nat i)
                                 (seq 0 (Z.to_nat (end_ - start + 1)))
      end
  | Unspecified => ao_frames o = None ∧ ao_end o = None
  | TooLong =>
      ao_frames o = None
      ∧ ∃ end_, ao_end o = Some end_ ∧ 2 ^ 32 ≤ end_ - start + 1
  end.
Proof.
  unfold animation_frames. destruct (ao_frames o) as [l|]; [done|].
  destruct (ao_end o) as [end_|]; [|done].
  rewrite sequential_frames_spec. case_bool_decide.
  - split; [done|]. by exists end_.
  - exists end_. split; [done|]. split; [lia|done].
Qed.

(** X21: the decision table of [addAnimation].  The call throws a
    [RangeError] exactly when the name is new, no [frames] list is given
    and [end - start + 1] is 2^32 or more; nothing has been written or
    logged then.  Otherwise it returns false exactly when the name is
    already registered on the sprite, or neither [frames] nor [end] is
    given, or no sheet is resolved (the explicit id, else
    [getSheet(sprite)]: the sprite's current sheet), or some frame lies
    outside [0, cells.length - 1] of that sheet; a false call leaves the
    sprite as it was.  The frames are the given list, else [start],
    [start + 1], ..., [end].  A true call appends the new animation,
    built from the options and their defaults, with these frames and
    [stopped] true. *)
Theorem X21_addAnimation_decision_table (w : World)
  (o : SpriteAnimationOptions) :
  let sprite := w_sprite w in
  let start := default 0 (ao_start o) in
  let target := target_sheet sprite (ao_spritesheet o) in
  let name_taken := ∃ a, a ∈ sp_animations sprite ∧ anim_name a = ao_name o in
  let too_long :=
    ao_frames o = None
    ∧ ∃ end_, ao_end o = Some end_ ∧ 2 ^ 32 ≤ end_ - start + 1 in
  let built (frames : list Z) :=
    match ao_frames o with
    | Some l => frames = l
    | None =>
        ∃ end_, ao_end o = Some end_ ∧ end_ - start + 1 < 2 ^ 32
                ∧ frames = map (λ i : nat, start + Z.of_nat i)
                               (seq 0 (Z.to_nat (end_ - start + 1)))
    end in
  let out_of_range :=
    ∃ frames sheet frame,
      built frames ∧ target = Some sheet ∧ frame ∈ frames
      ∧ (frame < 0 ∨ frame > Z.of_nat (length (sheet_cells sheet)) - 1) in
  (fst (addAnimation w o) = RangeError ↔ ¬ name_taken ∧ too_long)
  ∧ (fst (addAnimation w o) = Returned false
     ↔ name_taken ∨ (ao_frames o = None ∧ ao_end o = None)
       ∨ (¬ too_long ∧ target = None) ∨ out_of_range)
  ∧ (fst (addAnimation w o) = RangeError → snd (addAnimation w o) = w)
  ∧ (fst (addAnimation w o) = Returned false →
     w_sprite (snd (addAnimation w o)) = sprite
     ∧ e_timers (w_env (snd (addAnimation w o))) = e_timers (w_env w)
     ∧ e_arrays (w_env (snd (addAnimation w o))) = e_arrays (w_env w)
     ∧ e_records (w_env (snd (addAnimation w o))) = e_records (w_env w))
  ∧ (fst (addAnimation w o) = Returned true →
     ∃ frames,
       built frames
       ∧ sp_animations (w_sprite (snd (addAnimation w o)))
         = sp_animations sprite
             ++ [mkAnim (ao_name o) start
                        (or_num (ao_end o)
                           (start + Z.of_nat (length frames) - 1))
                        frames (default 100 (ao_speed o)) true
                        (default false (ao_loop o))
                        (if truthy_opt_string (ao_spritesheet o)
                         then ao_spritesheet o else None)])
  ∧ (∀ id, ao_spritesheet o = Some id → truthy_string id = true →
           target = Map_get id (sp_spritesheets sprite))
  ∧ (∀ cur, ao_spritesheet o = None →
            sp_currentSpritesheetId sprite = Some cur →
            truthy_string cur = true →
            target = Map_get cur (sp_spritesheets sprite)).
Proof.
  intros sprite start target name_taken too_long built out_of_range.
  pose proof (animation_frames_spec o) as Hspec. simpl in Hspec.
  fold start in Hspec.
  assert (Hfun : ∀ f1 f2, built f1 → built f2 → f1 = f2).
  { unfold built. intros f1 f2. destruct (ao_frames o); [congruence|].
    intros (e1 & He1 & _ & ->) (e2 & He2 & _ & ->). congruence. }
  assert (Hexcl : ∀ f, built f → ¬ too_long).
  { unfold built, too_long. intros f Hf [Hnone (e2 & He2 & Hlong)].
    rewrite Hnone in Hf. destruct Hf as (e1 & He1 & Hshort & _).
    assert (e1 = e2) by congruence. subst. lia. }
  assert (Htail :
            (∀ id, ao_spritesheet o = Some id → truthy_string id = true →
                   target = Map_get id (sp_spritesheets sprite))
            ∧ (∀ cur, ao_spritesheet o = None →
                      sp_currentSpritesheetId sprite = Some cur →
                      truthy_string cur = true →
                      target = Map_get cur (sp_spritesheets sprite))).
  { split.
    - intros id Hid Ht. unfold target, target_sheet. by rewrite Hid, Ht.
    - intros cur Hid Hcur Ht. unfold target, target_sheet, getSheet.
      rewrite Hid, Hcur. simpl. unfold or_string. simpl. by rewrite Ht, Ht. }
  unfold addAnimation. fold sprite. fold target. fold start.
  destruct (find_animation (ao_name o) (sp_animations sprite))
    as [[i a]|] eqn:Hfind.
  { assert (name_taken) as Htaken.
    { apply find_animation_lookup in Hfind as [Hi Ha].
      exists a. split; [|done]. by apply list_elem_of_lookup_2 in Hi. }
    simpl. split; [split; [done|tauto]|]. split; [tauto|].
    split; [done|]. split; [done|]. split; [done|]. exact Htail. }
  apply find_animation_None in Hfind. fold name_taken in Hfind.
  destruct (animation_frames o) as [frames| |] eqn:Hfr.
  - fold (built frames) in Hspec.
    pose proof (Hexcl frames Hspec) as Hshort.
    assert (Hspecified : ¬ (ao_frames o = None ∧ ao_end o = None)).
    { intros [Hf He]. unfold built in Hspec. rewrite Hf in Hspec.
      destruct Hspec as (e & He' & _). congruence. }
    destruct target as [sheet|] eqn:Htarget.
    2:{ simpl. split; [split; [done|tauto]|]. split; [tauto|].
        split; [done|]. split; [done|]. split; [done|]. exact Htail. }
    case_bool_decide as Hinv; simpl.
    + split; [split; [done|tauto]|].
      split; [|split; [done|split; [done|split; [done|exact Htail]]]].
      split; [|done]. intros _. right. right. right.
      destruct (filter _ frames) as [|frame rest] eqn:Hfilter;
        [simpl in Hinv; lia|].
      assert (Hin : frame ∈ filter
                      (λ frame, frame < 0
                                ∨ frame > Z.of_nat (length (sheet_cells sheet)) - 1)
                      frames) by (rewrite Hfilter; left).
      apply list_elem_of_filter in Hin as [Hbad Hin].
      exists frames, sheet, frame. done.
    + rewrite log_sprite. simpl.
      split; [split; [done|tauto]|].
      split; [|split; [done|split; [done|split; [|exact Htail]]]].
      * split; [done|].
        intros [Ht|[Hn|[[_ Hn]|(fs & sh & f & Hfs & [= <-] & Hin & Hbad)]]].
        -- done.
        -- done.
        -- done.
        -- exfalso. apply Hinv.
           assert (fs = frames) as -> by by apply Hfun.
           assert (Hlen : length (filter
                            (λ frame, frame < 0
                               ∨ frame > Z.of_nat (length (sheet_cells sheet)) - 1)
                            frames) ≠ 0%nat); [|lia].
           rewrite filter_empty_iff. intros Hall. by apply (Hall f).
      * intros _. exists frames. done.
  - simpl. split; [split; [done|]|].
    { intros [_ [_ (e & He & _)]]. destruct Hspec. congruence. }
    split; [tauto|]. split; [done|]. split; [done|]. split; [done|].
    exact Htail.
  - simpl. fold too_long in Hspec.
    split; [tauto|].
    split.
    { split; [done|].
      intros [Ht|[[_ Hn]|[[Hn _]|(fs & sh & f & Hfs & _)]]].
      - done.
      - destruct Hspec as [_ (e & He & _)]. congruence.
      - done.
      - by destruct (Hexcl fs Hfs). }
    split; [done|]. split; [done|]. split; [done|]. exact Htail.
Qed.

Lemma X21_addAnimation_decision_table_witness :
  fst (addAnimation player_one_cell blink_options) = Returned false
  ∧ sp_animations (w_sprite (snd (addAnimation player_one_cell blink_options)))
    = sp_animations (w_sprite player_one_cell)
  ∧ sp_animations (w_sprite (snd (addAnimation player_sheet walk_options)))
    = [mkAnim (NameStr "walk") 0 2 [0; 1; 2] 100 true false None].
Proof.
  destruct (X21_addAnimation_decision_table player_one_cell blink_options)
    as (_ & Hiff & _ & Hsame & _).
  assert (Hf : fst (addAnimation player_one_cell blink_options)
               = Returned false).
  { apply Hiff. right. right. right.
    eexists [0; 1], _, 1. split.
    { exists 1. split; [reflexivity|]. split; [simpl; lia|reflexivity]. }
    split; [reflexivity|]. split; [by right; left|]. right.
    vm_compute. reflexivity. }
  split; [exact Hf|].
  split; [by rewrite (proj1 (Hsame Hf))|].
  destruct (X21_addAnimation_decision_table player_sheet walk_options)
    as (_ & _ & _ & _ & Hok & _).
  destruct Hok as (frames & Hframes & Hanims); [reflexivity|].
  rewrite Hanims. destruct Hframes as (e & [= <-] & _ & ->). reflexivity.
Defined.

(** C6 on the code: the sprite has one 8-cell sheet and no animation; the
    options ask for the run of frames 0 .. 4294967295 under a new name.
    Every condition under which the claim lets the call succeed fails
    (the frames from 8 on are out of range), so the claim has it return
    false.  [addAnimation] builds the frame list before it looks at the
    sheet; [Array.from] refuses the length 2^32 with a [RangeError], and
    the call throws instead of returning. *)
Theorem C6_addAnimation_range_error :
  sp_animations (w_sprite player_sheet) = []
  ∧ (length ∘ sheet_cells <$> getSheet (w_sprite player_sheet) None)
    = Some 8%nat
  ∧ ao_end long_run_options = Some (2 ^ 32 - 1)
  ∧ addAnimation player_sheet long_run_options = (RangeError, player_sheet).
Proof. repeat split; vm_compute; reflexivity. Qed.

Example addAnimation_one_cell :
  (length ∘ sheet_cells
     <$> Map_get "dot"%string (sp_spritesheets (w_sprite player_one_cell)))
  = Some 1%nat
  ∧ fst (addAnimation player_one_cell blink_options) = Returned false
  ∧ sp_animations (w_sprite (snd (addAnimation player_one_cell blink_options)))
    = [].
Proof. repeat split; vm_compute; reflexivity. Qed.

(** ** addSheet and the grid of cells *)

Lemma or_num_nonzero a b : b ≠ 0 → or_num a b ≠ 0.
Proof.
  unfold or_num, truthy_num. intros Hb. destruct a as [x|]; [|done].
  destruct (x =? 0) eqn:E; simpl; [done|]. by apply Z.eqb_neq.
Qed.

Lemma or_num_cases a b :
  (∃ x, a = Some x ∧ x ≠ 0 ∧ or_num a b = x)
  ∨ ((a = None ∨ a = Some 0) ∧ or_num a b = b).
Proof.
  unfold or_num, truthy_num. destruct a as [x|]; [|right; auto].
  destruct (x =? 0) eqn:E; simpl.
  - apply Z.eqb_eq in E as ->. right; auto.
  - apply Z.eqb_neq in E. left; eauto.
Qed.

(** Row [r], column [c] of a grid laid out row by row. *)
Lemma grid_lookup {A} (g : Z → Z → A) (C : nat) :
  ∀ (R start r c : nat),
    (r < R)%nat → (c < C)%nat →
    flat_map (λ row, map (g row) (map Z.of_nat (seq 0 C)))
             (map Z.of_nat (seq start R))
      !! (r * C + c)%nat
    = Some (g (Z.of_nat (start + r)) (Z.of_nat c)).
Proof.
  induction R as [|R IH]; intros start r c Hr Hc; [lia|].
  simpl. destruct r as [|r].
  - rewrite lookup_app_l by (rewrite !length_map, length_seq; lia).
    simpl. rewrite !list_lookup_fmap, lookup_seq_lt by lia. simpl.
    by rewrite Nat.add_0_r.
  - rewrite lookup_app_r by (rewrite !length_map, length_seq; lia).
    rewrite !length_map, length_seq.
    replace (S r * C + c - C)%nat with (r * C + c)%nat by lia.
    rewrite IH by lia. do 2 f_equal. lia.
Qed.

Lemma grid_length {A} (g : Z → Z → A) (C : nat) :
  ∀ (R start : nat),
    length (flat_map (λ row, map (g row) (map Z.of_nat (seq 0 C)))
                     (map Z.of_nat (seq start R)))
    = (R * C)%nat.
Proof.
  induction R as [|R IH]; intros start; [done|].
  simpl. rewrite length_app, IH, !length_map, length_seq. done.
Qed.

Lemma createSpriteCells_length sheet :
  length (createSpriteCells sheet)
  = (Z.to_nat (sheet_rows sheet) * Z.to_nat (sheet_columns sheet))%nat.
Proof. unfold createSpriteCells, upto. apply grid_length. Qed.

Lemma createSpriteCells_lookup sheet row col :
  0 ≤ row < sheet_rows sheet →
  0 ≤ col < sheet_columns sheet →
  createSpriteCells sheet !! Z.to_nat (row * sheet_columns sheet + col)
  = Some (cell_css (sheet_spritesheet sheet)
                   (- (col * sheet_width sheet))
                   (- (row * sheet_height sheet))).
Proof.
  intros Hrow Hcol. unfold createSpriteCells, upto.
  replace (Z.to_nat (row * sheet_columns sheet + col))
    with (Z.to_nat row * Z.to_nat (sheet_columns sheet) + Z.to_nat col)%nat
    by nia.
  rewrite (grid_lookup
             (λ r c, cell_css (sheet_spritesheet sheet)
                              (- (c * sheet_width sheet))
                              (- (r * sheet_height sheet)))) by lia.
  simpl. by rewrite !Z2Nat.id by lia.
Qed.

(** C7, as found in the code.  For a sprite with positive width and height
    the cell sizes are never 0, and [addSheet] takes as columns the
    explicit [columns] when it is given and not 0, else
    [floor (imageWidth / cellWidth)] (an explicit 0 counts as not given);
    likewise for rows.  With columns or rows not positive it returns null
    and leaves the sprite as it was.  Otherwise it returns the id and
    registers a sheet with [columns * rows] cells in row-major order: the
    cell of row [row] and column [col] is at index [row * columns + col]
    and encodes the url with the offsets [-(col * cellWidth)] and
    [-(row * cellHeight)]; index 0 is the top-left cell.  A failed image
    load returns null and changes nothing. *)
Theorem C7_addSheet_grid (w : World) (url : string) (o : SheetOptions)
  (dw dh : Z) (generated_id : string) :
  0 < sp_width (w_sprite w) →
  0 < sp_height (w_sprite w) →
  let sprite := w_sprite w in
  let id := default generated_id (sh_id o) in
  let cellWidth :=
    or_num (sh_cellSize o) (or_num (sh_cellWidth o) (sp_width sprite)) in
  let cellHeight :=
    or_num (sh_cellSize o) (or_num (sh_cellHeight o) (sp_height sprite)) in
  let columns :=
    match sh_columns o with
    | Some c => if c =? 0 then dw / cellWidth else c
    | None => dw / cellWidth
    end in
  let rows :=
    match sh_rows o with
    | Some r => if r =? 0 then dh / cellHeight else r
    | None => dh / cellHeight
    end in
  let result := addSheet w url o (Some (dw, dh)) generated_id in
  cellWidth ≠ 0 ∧ cellHeight ≠ 0
  ∧ (columns ≤ 0 ∨ rows ≤ 0 →
     fst result = None ∧ w_sprite (snd result) = sprite)
  ∧ (0 < columns → 0 < rows →
     fst result = Some id
     ∧ ∃ sheet,
         sp_spritesheets (w_sprite (snd result))
         = Map_set id sheet (sp_spritesheets sprite)
         ∧ sheet_spritesheet sheet = url
         ∧ sheet_columns sheet = columns
         ∧ sheet_rows sheet = rows
         ∧ sheet_width sheet = cellWidth
         ∧ sheet_height sheet = cellHeight
         ∧ length (sheet_cells sheet) = Z.to_nat (columns * rows)
         ∧ (∀ row col,
              0 ≤ row < rows → 0 ≤ col < columns →
              sheet_cells sheet !! Z.to_nat (row * columns + col)
              = Some (cell_css url (- (col * cellWidth))
                               (- (row * cellHeight))))
         ∧ sheet_cells sheet !! 0%nat = Some (cell_css url 0 0))
  ∧ fst (addSheet w url o None generated_id) = None
  ∧ w_sprite (snd (addSheet w url o None generated_id)) = sprite.
Proof.
  intros Hw Hh sprite id cellWidth cellHeight columns rows result.
  assert (Hcw : cellWidth ≠ 0)
    by (apply or_num_nonzero, or_num_nonzero; unfold sprite; lia).
  assert (Hch : cellHeight ≠ 0)
    by (apply or_num_nonzero, or_num_nonzero; unfold sprite; lia).
  assert (Hcols : or_num (sh_columns o) (dw / cellWidth) = columns).
  { unfold or_num, truthy_num, columns.
    destruct (sh_columns o) as [c|]; [|done]. by destruct (c =? 0). }
  assert (Hrows : or_num (sh_rows o) (dh / cellHeight) = rows).
  { unfold or_num, truthy_num, rows.
    destruct (sh_rows o) as [r|]; [|done]. by destruct (r =? 0). }
  split; [done|]. split; [done|].
  unfold result, addSheet. fold sprite. fold cellWidth. fold cellHeight.
  rewrite Hcols, Hrows.
  split; [|split; [|done]].
  - intros Hbad.
    assert ((columns <=? 0) || (rows <=? 0) = true) as ->.
    { apply orb_true_iff. destruct Hbad; [left|right]; by apply Z.leb_le. }
    done.
  - intros Hc Hr.
    assert ((columns <=? 0) || (rows <=? 0) = false) as ->.
    { apply orb_false_iff. split; apply Z.leb_gt; lia. }
    simpl. split; [done|]. rewrite log_sprite.
    eexists (mkSheet url columns rows _ cellWidth cellHeight).
    split.
    { destruct (negb _); reflexivity. }
    simpl. repeat split.
    + rewrite createSpriteCells_length. simpl. nia.
    + intros row col Hrow Hcol.
      by rewrite (createSpriteCells_lookup
                    (mkSheet url columns rows [] cellWidth cellHeight)).
    + pose proof (createSpriteCells_lookup
                    (mkSheet url columns rows [] cellWidth cellHeight) 0 0)
        as H0.
      apply H0; simpl; lia.
Qed.

Lemma C7_addSheet_grid_witness :
  fst (addSheet player "/player.png" (sheet_options "main")
                (Some (128, 64)) "sheet_0") = Some "main"%string
  ∧ ∃ sheet,
      Map_get "main"%string (sp_spritesheets (w_sprite player_sheet))
      = Some sheet
      ∧ sheet_columns sheet = 4 ∧ sheet_rows sheet = 2
      ∧ length (sheet_cells sheet) = 8%nat
      ∧ sheet_cells sheet !! 5%nat = Some "url('/player.png') -32px -32px"%string.
Proof.
  destruct (C7_addSheet_grid player "/player.png" (sheet_options "main")
              128 64 "sheet_0")
    as (_ & _ & _ & Hok & _); [simpl; lia|simpl; lia|].
  destruct Hok as (Hid & sheet & Hsheets & _ & Hc & Hr & _ & _ & Hlen & Hcell & _);
    [vm_compute; reflexivity|vm_compute; reflexivity|].
  split; [exact Hid|]. exists sheet.
  unfold player_sheet. rewrite Hsheets.
  split; [reflexivity|]. split; [exact Hc|]. split; [exact Hr|].
  split; [exact Hlen|].
  apply (Hcell 1 1); vm_compute; split; congruence.
Defined.

(** C7 as stated fails: with an explicit [columns: 0] the explicit value
    does not win.  The code computes [floor (128 / 32) = 4] columns and
    adds an 8-cell sheet, where the claim has 0 columns and a null
    result. *)
Lemma C7_counterexample :
  sh_columns zero_columns_options = Some 0
  ∧ fst (addSheet player "/player.png" zero_columns_options
                  (Some (128, 64)) "sheet_0") = Some "main"%string
  ∧ (sheet_columns
       <$> Map_get "main"%string
             (sp_spritesheets
                (w_sprite (snd (addSheet player "/player.png"
                                         zero_columns_options
                                         (Some (128, 64)) "sheet_0")))))
    = Some 4.
Proof. repeat split; vm_compute; reflexivity. Qed.

(** ** Failing calls *)

Lemma logError_unchanged op w : unchanged w (logError op w).
Proof. by repeat split. Qed.

Lemma setFrame_false w index sid :
  fst (setFrame w index sid) = false →
  snd (setFrame w index sid) = logError "setFrame" w.
Proof.
  unfold setFrame.
  destruct (or_string sid _) as [target|]; [|done].
  destruct (negb (truthy_string target)); [done|].
  destruct (Map_get target _) as [sheet|]; [|done].
  destruct (negb (validateFrameIndex index sheet)); done.
Qed.

Lemma addAnimation_throws w o :
  fst (addAnimation w o) = RangeError → snd (addAnimation w o) = w.
Proof.
  unfold addAnimation.
  destruct (find_animation _ _); [done|].
  destruct (animation_frames o); [|done|done].
  destruct (target_sheet _ _); [|done].
  case_bool_decide; done.
Qed.

Lemma addAnimation_false w o :
  fst (addAnimation w o) = Returned false →
  snd (addAnimation w o) = logError "addAnimation" w.
Proof.
  unfold addAnimation.
  destruct (find_animation _ _); [done|].
  destruct (animation_frames o); [|done|done].
  destruct (target_sheet _ _); [|done].
  case_bool_decide; done.
Qed.

Lemma addSheet_null w url o image generated_id :
  fst (addSheet w url o image generated_id) = None →
  snd (addSheet w url o image generated_id) = logError "addSheet" w.
Proof.
  unfold addSheet. destruct image as [[dw dh]|]; [|done].
  destruct (_ || _); done.
Qed.

Lemma removeSheet_false w id :
  fst (removeSheet w id) = false → snd (removeSheet w id) = w.
Proof.
  unfold removeSheet.
  destruct (Map_has id (sp_spritesheets (w_sprite w))) eqn:Hhas.
  - by destruct (decide _).
  - intros _. simpl. apply Map_has_false_get in Hhas.
    unfold with_sprite. rewrite (Map_delete_absent _ _ Hhas).
    by destruct w as [[] ?].
Qed.

Lemma onEnd_null w name cb :
  fst (onEnd w name cb) = false → snd (onEnd w name cb) = logError "onEnd" w.
Proof. unfold onEnd. by destruct (find_animation _ _). Qed.

Lemma appendTo_false w parent_ok append_ok :
  fst (appendTo w parent_ok append_ok) = false →
  snd (appendTo w parent_ok append_ok) = logError "appendTo" w.
Proof. unfold appendTo. by destruct parent_ok, append_ok. Qed.

(** X20: a call that returns its failure value ([false], [null]) leaves
    the sprite, the timers and the heap as they were; the only effect is
    the error written to the console ([removeSheet] writes none).  In
    particular [setFrame] with index -1, or with any index and a sheet id
    that is not registered, returns false and leaves [currentFrame] and
    [currentSpritesheetId] unchanged, and [createSprite] with an empty
    name or a non-positive width or height returns null without creating
    an element or allocating anything.  The failing paths of [play] return
    without any call to [stop], whatever the call depth available, and an
    [addAnimation] that throws has changed nothing either. *)
Theorem X20_failing_calls_change_nothing (w : World) :
  (∀ index sid,
     fst (setFrame w index sid) = false →
     unchanged w (snd (setFrame w index sid))
     ∧ sp_currentFrame (w_sprite (snd (setFrame w index sid)))
       = sp_currentFrame (w_sprite w)
     ∧ sp_currentSpritesheetId (w_sprite (snd (setFrame w index sid)))
       = sp_currentSpritesheetId (w_sprite w))
  ∧ (∀ sid, fst (setFrame w (-1) sid) = false)
  ∧ (∀ index id,
       truthy_string id = true →
       Map_get id (sp_spritesheets (w_sprite w)) = None →
       fst (setFrame w index (Some id)) = false)
  ∧ (∀ dom_ok options e,
       so_name options = EmptyString ∨ so_width options ≤ 0
       ∨ so_height options ≤ 0 →
       createSprite dom_ok options e
       = (None, emit (EvError "createSprite") e))
  ∧ (∀ o, (fst (addAnimation w o) = Returned false →
           unchanged w (snd (addAnimation w o)))
          ∧ (fst (addAnimation w o) = RangeError →
             snd (addAnimation w o) = w))
  ∧ (∀ url o image generated_id,
       fst (addSheet w url o image generated_id) = None →
       unchanged w (snd (addSheet w url o image generated_id)))
  ∧ (∀ id, fst (removeSheet w id) = false → snd (removeSheet w id) = w)
  ∧ (∀ name cb, fst (onEnd w name cb) = false →
                unchanged w (snd (onEnd w name cb)))
  ∧ (∀ parent_ok append_ok,
       fst (appendTo w parent_ok append_ok) = false →
       unchanged w (snd (appendTo w parent_ok append_ok)))
  ∧ (∀ fuel name loop w',
       play fuel w name loop = Some (false, w') → unchanged w w')
  ∧ (∀ fuel name loop,
       (find_animation name (sp_animations (w_sprite w)) = None
        ∨ ∃ i a, find_animation name (sp_animations (w_sprite w))
                 = Some (i, a)
                 ∧ getSpriteSheetForAnimation (w_sprite w) a = None) →
       play fuel w name loop = Some (false, logError "play" w)).
Proof.
  split.
  { intros index sid H. rewrite (setFrame_false _ _ _ H).
    split; [apply logError_unchanged|done]. }
  split.
  { intros sid. unfold setFrame.
    destruct (or_string sid _) as [target|]; [|done].
    destruct (negb (truthy_string target)); [done|].
    destruct (Map_get target _) as [sheet|]; [|done].
    assert (validateFrameIndex (-1) sheet = false) as -> by done. done. }
  split.
  { intros index id Hid Hget. unfold setFrame, or_string. simpl.
    by rewrite Hid, Hid, Hget. }
  split.
  { intros dom_ok options e H. unfold createSprite.
    destruct (so_name options) eqn:Hname; [done|]. simpl.
    destruct H as [H|[H|H]]; [done| |].
    - assert ((so_width options <=? 0) = true) as -> by by apply Z.leb_le.
      by rewrite orb_true_r.
    - destruct (negb (truthy_num (so_width options)) || _); [done|].
      assert ((so_height options <=? 0) = true) as -> by by apply Z.leb_le.
      by rewrite orb_true_r. }
  split.
  { intros o. split; [|apply addAnimation_throws].
    intros H. rewrite (addAnimation_false _ _ H).
    apply logError_unchanged. }
  split.
  { intros url o image gid H. rewrite (addSheet_null _ _ _ _ _ H).
    apply logError_unchanged. }
  split; [apply removeSheet_false|].
  split.
  { intros name cb H. rewrite (onEnd_null _ _ _ H). apply logError_unchanged. }
  split.
  { intros p a H. rewrite (appendTo_false _ _ _ H). apply logError_unchanged. }
  split.
  { intros fuel name loop w' H.
    assert (w' = logError "play" w) as ->; [|apply logError_unchanged].
    unfold play in H.
    destruct (find_animation _ _) as [[i a]|]; [|congruence].
    destruct (getSpriteSheetForAnimation _ _); [|congruence].
    destruct (stop _ _ _); done. }
  intros fuel name loop [H|(i & a & Hf & Hs)]; unfold play.
  - by rewrite H.
  - by rewrite Hf, Hs.
Qed.

Lemma X20_failing_calls_change_nothing_witness :
  fst (setFrame player_sheet (-1) None) = false
  ∧ fst (setFrame player_sheet 3 (Some "no-such-sheet"%string)) = false
  ∧ sp_currentFrame
      (w_sprite (snd (setFrame player_sheet 3 (Some "no-such-sheet"%string))))
    = sp_currentFrame (w_sprite player_sheet)
  ∧ createSprite true (mkSpriteOpts "player" 0 32 None) page
    = (None, emit (EvError "createSprite") page)
  ∧ unchanged player_one_cell (snd (addAnimation player_one_cell blink_options))
  ∧ play 0 player_sheet (NameStr "walk") None
    = Some (false, logError "play" player_sheet).
Proof.
  destruct (X20_failing_calls_change_nothing player_sheet)
    as (Hsame & Hneg & Hunknown & Hcreate & _ & _ & _ & _ & _ & _ & Hplay).
  destruct (X20_failing_calls_change_nothing player_one_cell)
    as (_ & _ & _ & _ & Hadd & _).
  split; [apply Hneg|].
  assert (Hf : fst (setFrame player_sheet 3 (Some "no-such-sheet"%string))
               = false)
    by (apply Hunknown; reflexivity).
  split; [exact Hf|].
  split; [apply (Hsame 3 (Some "no-such-sheet"%string) Hf)|].
  split; [apply Hcreate; right; left; simpl; lia|].
  split; [apply Hadd; reflexivity|].
  apply Hplay. left. reflexivity.
Defined.

(** C8 on the code: two calls of fallible operations that throw instead
    of returning their failure value.  [addAnimation] with the run of
    frames 0 .. 4294967295 throws the [RangeError] of [Array.from].  And
    on a sprite where the animation named by the empty string has been
    registered and played, [play(sprite, '')] passes both of its checks
    and calls [stop(sprite, '')], which takes the stop-all branch and
    re-enters itself on the key '' without bound: whatever the call depth
    available the call does not return, it ends in the [RangeError] of
    the exhausted call stack. *)
Theorem C8_calls_that_throw :
  addAnimation player_sheet long_run_options = (RangeError, player_sheet)
  ∧ fst (addAnimation player_sheet blank_options) = Returned true
  ∧ play 2 player_blank (NameStr EmptyString) None
    = Some (true, player_blank_playing)
  ∧ ∀ fuel, play fuel player_blank_playing (NameStr EmptyString) None = None.
Proof.
  split; [vm_compute; reflexivity|]. split; [vm_compute; reflexivity|].
  split; [vm_compute; reflexivity|].
  intros fuel.
  eapply play_diverges; [vm_compute; reflexivity|vm_compute; reflexivity
                         |reflexivity|reflexivity].
Qed.

(** ** getMemory *)

(** C9: the array returned by [getMemory] is a new object holding the
    elements of the sprite's log in the same order.  Whatever its holder
    does to that array (adding, removing or reordering elements: any
    replacement [f] of its element list) takes effect on the copy only;
    [sprite.memory.playedAnimations] and the sprite are as before. *)
Theorem C9_getMemory_copy_is_independent (w : World)
  (f : list loc → list loc) :
  is_Some (e_arrays (w_env w) !! sp_playedAnimations (w_sprite w)) →
  let copy := fst (getMemory w) in
  let w1 := snd (getMemory w) in
  let w2 := mutate_array copy f w1 in
  copy ≠ sp_playedAnimations (w_sprite w)
  ∧ e_arrays (w_env w1) !! copy = Some (log_refs w)
  ∧ e_arrays (w_env w2) !! copy = Some (f (log_refs w))
  ∧ log_refs w1 = log_refs w
  ∧ log_refs w2 = log_refs w
  ∧ playedAnimations w2 = playedAnimations w
  ∧ w_sprite w2 = w_sprite w.
Proof.
  intros Halloc copy w1 w2.
  assert (Hne : copy ≠ sp_playedAnimations (w_sprite w)).
  { intros Heq. apply elem_of_dom in Halloc. rewrite <- Heq in Halloc.
    by apply is_fresh in Halloc. }
  split; [done|].
  unfold w2, w1, copy, getMemory, mutate_array, playedAnimations, log_refs
    in *.
  destruct w as [s [t a r n tr]]; simpl in *.
  rewrite lookup_alter_eq, !lookup_insert_eq.
  rewrite lookup_alter_ne, !lookup_insert_ne by done.
  done.
Qed.

Lemma C9_getMemory_copy_is_independent_witness :
  fst (getMemory player_walking) = 1%nat
  ∧ sp_playedAnimations (w_sprite player_walking) = 0%nat
  ∧ playedAnimations
      (mutate_array (fst (getMemory player_walking)) (λ _, [])
                    (snd (getMemory player_walking)))
    = [mkPlayed "walk" 1000 0 false].
Proof.
  split; [vm_compute; reflexivity|]. split; [reflexivity|].
  destruct (C9_getMemory_copy_is_independent player_walking (λ _, []))
    as (_ & _ & _ & _ & _ & Hlog & _); [vm_compute; eauto|].
  rewrite Hlog. vm_compute. reflexivity.
Defined.

(** The copy is shallow: the record objects are shared, so a write to a
    record reached through the copy shows in the sprite's log. *)
Example getMemory_shares_records :
  e_arrays (w_env (snd (getMemory player_walking))) !! 1%nat = Some [0%nat]
  ∧ playedAnimations
      (mutate_record 0%nat (set_length 77) (snd (getMemory player_walking)))
    = [mkPlayed "walk" 1000 77 false].
Proof. split; vm_compute; reflexivity. Qed.

(** * Further properties of the code *)

(** ** createSprite *)

(** X1: [createSprite] returns a sprite exactly when the name is not
    empty, width and height are positive and the element can be created.
    The sprite then carries the given name and size, has no sheets,
    animations, timers or callbacks, no current frame or sheet, and a
    newly allocated empty log; timers, records and the other arrays of the
    page are untouched. *)
Theorem X1_createSprite_result (dom_ok : bool) (o : SpriteOptions) (e : Env) :
  ((∃ s e', createSprite dom_ok o e = (Some s, e'))
   ↔ so_name o ≠ EmptyString ∧ 0 < so_width o ∧ 0 < so_height o
     ∧ dom_ok = true)
  ∧ ∀ s e',
      createSprite dom_ok o e = (Some s, e') →
      s = mkSprite (so_name o) (so_width o) (so_height o) None [] [] [] []
                   (sp_playedAnimations s) None None None
                   (default false (so_help o))
      ∧ e_arrays e !! sp_playedAnimations s = None
      ∧ e_arrays e' !! sp_playedAnimations s = Some []
      ∧ (∀ a, a ≠ sp_playedAnimations s → e_arrays e' !! a = e_arrays e !! a)
      ∧ e_timers e' = e_timers e
      ∧ e_records e' = e_records e.
Proof.
  unfold createSprite.
  destruct (so_name o) as [|ch name] eqn:Hname; simpl.
  { split; [|intros s e' [=]]. split; [intros (s & e' & [=])|tauto]. }
  assert (Hguard : ∀ x, negb (truthy_num x) || (x <=? 0) = true ↔ x ≤ 0).
  { intros x. unfold truthy_num. rewrite negb_involutive, orb_true_iff.
    rewrite Z.eqb_eq, Z.leb_le. lia. }
  destruct (negb (truthy_num (so_width o)) || _) eqn:Hw.
  { apply Hguard in Hw. split; [|intros s e' [=]].
    split; [intros (s & e' & [=])|lia]. }
  destruct (negb (truthy_num (so_height o)) || _) eqn:Hh.
  { apply Hguard in Hh. split; [|intros s e' [=]].
    split; [intros (s & e' & [=])|lia]. }
  assert (0 < so_width o) by (destruct (Hguard (so_width o)); destruct (decide (so_width o ≤ 0)); [|lia]; rewrite H0 in Hw; done).
  assert (0 < so_height o) by (destruct (Hguard (so_height o)) as [? H2]; destruct (decide (so_height o ≤ 0)); [|lia]; rewrite H2 in Hh; done).
  destruct dom_ok.
  2:{ split; [|intros s e' [=]].
      split; [intros (s & e' & [=])|intros (_ & _ & _ & [=])]. }
  split.
  { split; [intros _; repeat split; [done|lia|lia]|eauto]. }
  intros s e' [= <- <-]. simpl.
  assert (Hfresh : e_arrays e !! fresh (dom (e_arrays e)) = None)
    by apply not_elem_of_dom, is_fresh.
  split; [done|]. split; [done|].
  destruct (default false (so_help o)); simpl;
    rewrite lookup_insert_eq; (split; [done|]);
    (split; [|done]); intros a Ha; by rewrite lookup_insert_ne.
Qed.

Lemma X1_createSprite_result_witness :
  ∃ s e', createSprite true player_options page = (Some s, e')
          ∧ sp_width s = 32 ∧ sp_animations s = []
          ∧ e_arrays e' !! sp_playedAnimations s = Some [].
Proof.
  destruct (X1_createSprite_result true player_options page) as [Hiff Hok].
  destruct (proj2 Hiff) as (s & e' & Hs);
    [repeat split; try done; simpl; lia|].
  destruct (Hok s e' Hs) as (Heq & _ & Harr & _).
  exists s, e'. split; [exact Hs|]. rewrite Heq at 1 2. simpl.
  split; [done|]. split; [done|exact Harr].
Defined.

(** ** Sheets: adding, looking up, removing *)

Section JsMapMoreFacts.
Context {V : Type}.
Implicit Types (m : list (string * V)) (k : string).

Lemma Map_delete_set m k v : Map_delete k (Map_set k v m) = Map_delete k m.
Proof.
  induction m as [|[k' v'] m IH]; simpl.
  - by rewrite decide_True.
  - destruct (decide (k' = k)) as [->|Hne]; simpl.
    + by rewrite decide_True.
    + by rewrite decide_False, IH.
Qed.

Lemma Map_keys_set m k v :
  Map_keys (Map_set k v m)
  = if Map_has k m then Map_keys m else Map_keys m ++ [k].
Proof.
  unfold Map_has, Map_keys. induction m as [|[k' v'] m IH]; simpl; [done|].
  destruct (decide (k' = k)) as [->|Hne]; simpl; [done|].
  rewrite IH. by destruct (Map_get k m).
Qed.

Lemma Map_keys_delete m k k' :
  k' ∈ Map_keys (Map_delete k m) ↔ k' ∈ Map_keys m ∧ k' ≠ k.
Proof.
  unfold Map_keys. induction m as [|[k0 v0] m IH]; simpl.
  - split; [intros H; by apply elem_of_nil in H
           |intros [H _]; by apply elem_of_nil in H].
  - destruct (decide (k0 = k)) as [->|Hne]; simpl.
    + rewrite IH, elem_of_cons. split; [tauto|].
      intros [[->|H] Hk]; [done|tauto].
    + rewrite !elem_of_cons, IH. split.
      * intros [->|[H Hk]]; [split; [by left|done]|tauto].
      * intros [[->|H] Hk]; [by left|tauto].
Qed.

Lemma Map_keys_delete_NoDup m k :
  NoDup (Map_keys m) → NoDup (Map_keys (Map_delete k m)).
Proof.
  induction m as [|[k0 v0] m IH]; simpl; [done|].
  intros Hnd. apply NoDup_cons in Hnd as [Hk0 Hnd].
  destruct (decide (k0 = k)) as [->|Hne]; [by apply IH|].
  change (NoDup (k0 :: Map_keys (Map_delete k m))).
  apply NoDup_cons. split; [|by apply IH].
  rewrite Map_keys_delete. tauto.
Qed.

Lemma Map_first_key_delete m k : Map_first_key (Map_delete k m) ≠ Some k.
Proof.
  unfold Map_first_key. intros H.
  assert (k ∈ Map_keys (Map_delete k m)) as Hin.
  { destruct (Map_keys (Map_delete k m)) as [|k0 ks]; [done|].
    simpl in H. injection H as ->. left. }
  apply Map_keys_delete in Hin. tauto.
Qed.

Lemma Map_first_key_has m k : Map_first_key m = Some k → Map_has k m = true.
Proof.
  unfold Map_first_key. intros H. apply Map_has_keys.
  destruct (Map_keys m) as [|k0 ks]; [done|]. injection H as ->. left.
Qed.

Lemma Map_has_set m k k' v :
  Map_has k' (Map_set k v m) = true ↔ k' = k ∨ Map_has k' m = true.
Proof.
  unfold Map_has. destruct (decide (k = k')) as [->|Hne].
  - rewrite Map_get_set_eq. tauto.
  - rewrite Map_get_set_ne by done. split; [tauto|].
    intros [->|H]; done.
Qed.

Lemma Map_has_delete m k k' :
  Map_has k' (Map_delete k m) = true ↔ k' ≠ k ∧ Map_has k' m = true.
Proof.
  unfold Map_has. destruct (decide (k = k')) as [->|Hne].
  - rewrite Map_get_delete_eq. split; [done|tauto].
  - rewrite Map_get_delete_ne by done. split; [|tauto].
    intros H. split; [congruence|done].
Qed.
End JsMapMoreFacts.

(** On success [addSheet] has returned [options.id], else the generated
    id, and written exactly one sheet. *)
Lemma addSheet_success w url o dw dh generated_id id :
  fst (addSheet w url o (Some (dw, dh)) generated_id) = Some id →
  id = default generated_id (sh_id o)
  ∧ ∃ sheet,
      w_sprite (snd (addSheet w url o (Some (dw, dh)) generated_id))
      = (if truthy_opt_string (sp_currentSpritesheetId (w_sprite w))
         then set_spritesheets
                (Map_set id sheet (sp_spritesheets (w_sprite w))) (w_sprite w)
         else set_currentSpritesheetId (Some id)
                (set_spritesheets
                   (Map_set id sheet (sp_spritesheets (w_sprite w)))
                   (w_sprite w)))
      ∧ sheet_spritesheet sheet = url
      ∧ 0 < sheet_columns sheet ∧ 0 < sheet_rows sheet
      ∧ sheet_cells sheet = createSpriteCells sheet
      ∧ e_timers (w_env (snd (addSheet w url o (Some (dw, dh)) generated_id)))
        = e_timers (w_env w)
      ∧ e_arrays (w_env (snd (addSheet w url o (Some (dw, dh)) generated_id)))
        = e_arrays (w_env w)
      ∧ e_records (w_env (snd (addSheet w url o (Some (dw, dh)) generated_id)))
        = e_records (w_env w).
Proof.
  unfold addSheet.
  destruct ((_ <=? 0) || (_ <=? 0)) eqn:Hbad; [done|].
  apply orb_false_iff in Hbad as [Hc Hr]. apply Z.leb_gt in Hc, Hr.
  simpl. intros [= <-]. split; [done|].
  rewrite log_sprite, log_env.
  eexists (mkSheet url _ _ _ _ _). split.
  { destruct (truthy_opt_string _); reflexivity. }
  simpl. repeat split; try done.
  all: by destruct (negb _).
Qed.

(** X2: a sheet that [addSheet] has added is stored under the returned
    id with [columns * rows] cells, and [removeSheet] of that id returns
    true and removes it; if the id was new, the two calls leave the
    sprite's sheets exactly as they were.  When the id is not the empty
    string, [hasSheet] and [getSheet] find the sheet under it after the
    addition and no longer find it after the removal.  The empty string
    is an id that [addSheet] accepts but the lookups read as no id:
    [getSheet(sprite, '')] is [getSheet(sprite)] and
    [hasSheet(sprite, '')] says whether any sheet is registered. *)
Theorem X2_sheet_add_lookup_remove (w : World) (url : string)
  (o : SheetOptions) (dw dh : Z) (generated_id id : string) :
  fst (addSheet w url o (Some (dw, dh)) generated_id) = Some id →
  let w1 := snd (addSheet w url o (Some (dw, dh)) generated_id) in
  let w2 := snd (removeSheet w1 id) in
  hasSheet (w_sprite w1) (Some id) = true
  ∧ (∃ sheet,
       Map_get id (sp_spritesheets (w_sprite w1)) = Some sheet
       ∧ (truthy_string id = true →
          getSheet (w_sprite w1) (Some id) = Some sheet)
       ∧ sheet_spritesheet sheet = url
       ∧ length (sheet_cells sheet)
         = Z.to_nat (sheet_columns sheet * sheet_rows sheet))
  ∧ fst (removeSheet w1 id) = true
  ∧ Map_get id (sp_spritesheets (w_sprite w2)) = None
  ∧ (truthy_string id = true →
     hasSheet (w_sprite w2) (Some id) = false
     ∧ getSheet (w_sprite w2) (Some id) = None)
  ∧ (Map_get id (sp_spritesheets (w_sprite w)) = None →
     sp_spritesheets (w_sprite w2) = sp_spritesheets (w_sprite w))
  ∧ (truthy_string id = false →
     ∀ s, getSheet s (Some id) = getSheet s None
          ∧ hasSheet s (Some id)
            = bool_decide (0 < length (sp_spritesheets s))%nat).
Proof.
  intros Hadd w1 w2.
  destruct (addSheet_success _ _ _ _ _ _ _ Hadd)
    as (_ & sheet & Hs & Hurl & Hc & Hr & Hcells & _).
  fold w1 in Hs.
  assert (Hsheets : sp_spritesheets (w_sprite w1)
                    = Map_set id sheet (sp_spritesheets (w_sprite w))).
  { rewrite Hs. by destruct (truthy_opt_string _). }
  assert (Hget : Map_get id (sp_spritesheets (w_sprite w1)) = Some sheet)
    by (rewrite Hsheets; apply Map_get_set_eq).
  assert (Hrem : sp_spritesheets (w_sprite w2)
                 = Map_delete id (sp_spritesheets (w_sprite w1))).
  { unfold w2, removeSheet. unfold Map_has. rewrite Hget.
    destruct (decide _); simpl; by rewrite ?log_sprite. }
  split.
  { unfold hasSheet. destruct (truthy_string id).
    - unfold Map_has. by rewrite Hget.
    - rewrite Hsheets. apply bool_decide_eq_true_2.
      destruct (sp_spritesheets (w_sprite w)) as [|[k v] m]; simpl; [lia|].
      destruct (decide (k = id)); simpl; lia. }
  split.
  { exists sheet. split; [done|]. split.
    - intros Hid. unfold getSheet, or_string. simpl. by rewrite Hid, Hid.
    - split; [done|]. rewrite Hcells, createSpriteCells_length. nia. }
  split.
  { unfold removeSheet, Map_has. rewrite Hget. by destruct (decide _). }
  split; [rewrite Hrem; apply Map_get_delete_eq|].
  split.
  { intros Hid. unfold hasSheet, getSheet, or_string, Map_has. simpl.
    by rewrite Hid, Hid, Hrem, Map_get_delete_eq. }
  split.
  { intros Habs. rewrite Hrem, Hsheets, Map_delete_set.
    by apply Map_delete_absent. }
  intros Hid s. unfold getSheet, hasSheet, or_string. simpl.
  by rewrite Hid.
Qed.

Lemma X2_sheet_add_lookup_remove_witness :
  hasSheet (w_sprite player_sheet) (Some "main"%string) = true
  ∧ sp_spritesheets
      (w_sprite (snd (removeSheet player_sheet "main"%string)))
    = sp_spritesheets (w_sprite player).
Proof.
  destruct (X2_sheet_add_lookup_remove player "/player.png"
              (sheet_options "main") 128 64 "sheet_0" "main")
    as (Hhas & _ & _ & _ & _ & Hback & _); [reflexivity|].
  split; [exact Hhas|]. apply Hback. reflexivity.
Defined.

(** X3: a successful [addSheet] touches nothing but the entry of its id
    and, when no truthy current sheet was set, [currentSpritesheetId]: the
    other sheets keep their values and their order (a new id goes last, a
    known id keeps its place), ids stay unique, a truthy current sheet is
    kept, and animations, timers, callbacks, the log and the displayed
    frame are as before. *)
Theorem X3_addSheet_keeps_the_rest (w : World) (url : string)
  (o : SheetOptions) (dw dh : Z) (generated_id id : string) :
  fst (addSheet w url o (Some (dw, dh)) generated_id) = Some id →
  let s := w_sprite w in
  let w1 := snd (addSheet w url o (Some (dw, dh)) generated_id) in
  let s1 := w_sprite w1 in
  (∀ k, k ≠ id →
        Map_get k (sp_spritesheets s1) = Map_get k (sp_spritesheets s))
  ∧ Map_keys (sp_spritesheets s1)
    = (if Map_has id (sp_spritesheets s) then Map_keys (sp_spritesheets s)
       else Map_keys (sp_spritesheets s) ++ [id])
  ∧ (NoDup (Map_keys (sp_spritesheets s)) →
     NoDup (Map_keys (sp_spritesheets s1)))
  ∧ sp_currentSpritesheetId s1
    = (if truthy_opt_string (sp_currentSpritesheetId s)
       then sp_currentSpritesheetId s else Some id)
  ∧ sp_animations s1 = sp_animations s
  ∧ sp_activeIntervals s1 = sp_activeIntervals s
  ∧ sp_animationCallbacks s1 = sp_animationCallbacks s
  ∧ sp_currentFrame s1 = sp_currentFrame s
  ∧ sp_background s1 = sp_background s
  ∧ e_timers (w_env w1) = e_timers (w_env w)
  ∧ e_arrays (w_env w1) = e_arrays (w_env w)
  ∧ e_records (w_env w1) = e_records (w_env w).
Proof.
  intros Hadd s w1 s1.
  destruct (addSheet_success _ _ _ _ _ _ _ Hadd)
    as (_ & sheet & Hs & _ & _ & _ & _ & Ht & Ha & Hr).
  fold w1 in Hs, Ht, Ha, Hr. fold s1 in Hs. fold s in Hs.
  assert (Hsheets : sp_spritesheets s1 = Map_set id sheet (sp_spritesheets s)).
  { rewrite Hs. by destruct (truthy_opt_string _). }
  rewrite Hsheets, Map_keys_set.
  split; [intros k Hk; by apply Map_get_set_ne|].
  split; [done|].
  split.
  { intros Hnd. destruct (Map_has id (sp_spritesheets s)) eqn:Hhas; [done|].
    apply NoDup_app. split; [done|]. split; [|apply NoDup_singleton].
    intros k Hk Hin. apply list_elem_of_singleton in Hin as ->.
    apply Map_has_keys in Hk. congruence. }
  rewrite Hs. destruct (truthy_opt_string _); by repeat split.
Qed.

Lemma X3_addSheet_keeps_the_rest_witness :
  Map_keys (sp_spritesheets (w_sprite player_icon))
  = ["main"%string; "icon"%string]
  ∧ sp_currentSpritesheetId
      (w_sprite (snd (addSheet player_walk_cb "/icon.png" icon_options
                               (Some (32, 32)) "sheet_1")))
    = Some "main"%string.
Proof.
  destruct (X3_addSheet_keeps_the_rest player_walk_cb "/icon.png"
              icon_options 32 32 "sheet_1" "icon")
    as (_ & _ & _ & Hcur & _); [reflexivity|].
  split; [vm_compute; reflexivity|]. rewrite Hcur. reflexivity.
Defined.

(** X4: [removeSheet] returns whether the id was registered, removes that
    entry only, and stops nothing: animations, active timers and callbacks
    are as before.  After a removal the current sheet is never the removed
    id: if it was, it becomes the first remaining sheet in insertion order
    (undefined when none remains, or when that id is the empty string);
    otherwise it is kept. *)
Theorem X4_removeSheet_effect (w : World) (id : string) :
  let s := w_sprite w in
  let w1 := snd (removeSheet w id) in
  let s1 := w_sprite w1 in
  fst (removeSheet w id) = Map_has id (sp_spritesheets s)
  ∧ sp_spritesheets s1 = Map_delete id (sp_spritesheets s)
  ∧ (∀ k, k ≠ id →
          Map_get k (sp_spritesheets s1) = Map_get k (sp_spritesheets s))
  ∧ (NoDup (Map_keys (sp_spritesheets s)) →
     NoDup (Map_keys (sp_spritesheets s1)))
  ∧ (fst (removeSheet w id) = true → sp_currentSpritesheetId s1 ≠ Some id)
  ∧ (sp_currentSpritesheetId s ≠ Some id →
     sp_currentSpritesheetId s1 = sp_currentSpritesheetId s)
  ∧ (fst (removeSheet w id) = true → sp_currentSpritesheetId s = Some id →
     sp_currentSpritesheetId s1
     = match Map_first_key (Map_delete id (sp_spritesheets s)) with
       | Some next => if truthy_string next then Some next else None
       | None => None
       end)
  ∧ sp_animations s1 = sp_animations s
  ∧ sp_activeIntervals s1 = sp_activeIntervals s
  ∧ sp_animationCallbacks s1 = sp_animationCallbacks s
  ∧ e_timers (w_env w1) = e_timers (w_env w).
Proof.
  intros s w1 s1. unfold s1, w1, s, removeSheet, log.
  destruct w as [s0 e]. simpl.
  assert (Hnext : or_string
                    (Map_first_key (Map_delete id (sp_spritesheets s0))) None
                  = match Map_first_key
                            (Map_delete id (sp_spritesheets s0)) with
                    | Some next =>
                        if truthy_string next then Some next else None
                    | None => None
                    end).
  { unfold or_string. destruct (Map_first_key _) as [next|]; [|done].
    simpl. by destruct (truthy_string next). }
  assert (Hfresh : match Map_first_key
                           (Map_delete id (sp_spritesheets s0)) with
                   | Some next =>
                       if truthy_string next then Some next else None
                   | None => None
                   end ≠ Some id).
  { intros H. destruct (Map_first_key _) as [next|] eqn:Hfirst; [|done].
    destruct (truthy_string next); [|done]. injection H as ->.
    by apply Map_first_key_delete in Hfirst. }
  destruct (Map_has id (sp_spritesheets s0)) eqn:Hhas; simpl;
    destruct (sp_help s0) eqn:Hhelp; simpl; rewrite ?Hhelp; simpl;
    try (destruct (decide (sp_currentSpritesheetId s0 = Some id))
           as [Hcur|Hcur]; simpl; rewrite ?Hnext);
    (split; [done|]); (split; [done|]);
    (split; [intros k Hk; by apply Map_get_delete_ne|]);
    (split; [apply Map_keys_delete_NoDup|]);
    repeat split; try done; try congruence.
Qed.

Lemma X4_removeSheet_effect_witness :
  sp_currentSpritesheetId (w_sprite player_icon) = Some "icon"%string
  ∧ sp_currentSpritesheetId
      (w_sprite (snd (removeSheet player_icon "icon"%string)))
    = Some "main"%string.
Proof.
  split; [reflexivity|].
  destruct (X4_removeSheet_effect player_icon "icon"%string)
    as (_ & _ & _ & _ & _ & _ & Hnext & _).
  rewrite Hnext; [|reflexivity|reflexivity]. vm_compute. reflexivity.
Defined.

(** ** The current sheet across operations *)

Lemma stop_named_keeps_sheets w name :
  sp_spritesheets (w_sprite (stop_named w name)) = sp_spritesheets (w_sprite w)
  ∧ sp_currentSpritesheetId (w_sprite (stop_named w name))
    = sp_currentSpritesheetId (w_sprite w).
Proof. by rewrite stop_named_sprite. Qed.

Lemma stop_each_keeps_sheets ks :
  ∀ w,
    sp_spritesheets (w_sprite (stop_each ks w)) = sp_spritesheets (w_sprite w)
    ∧ sp_currentSpritesheetId (w_sprite (stop_each ks w))
      = sp_currentSpritesheetId (w_sprite w).
Proof.
  unfold stop_each. induction ks as [|k ks IH]; intros w; simpl; [done|].
  destruct (IH (if Map_has k (sp_activeIntervals (w_sprite w))
                then stop_named w (NameStr k) else w)) as [-> ->].
  destruct (Map_has k _); [|done]. apply stop_named_keeps_sheets.
Qed.

Lemma stop_keeps_sheets fuel w name w1 :
  stop fuel w name = Some w1 →
  sp_spritesheets (w_sprite w1) = sp_spritesheets (w_sprite w)
  ∧ sp_currentSpritesheetId (w_sprite w1)
    = sp_currentSpritesheetId (w_sprite w).
Proof.
  intros Hstop. destruct (truthy_name name) eqn:Hname.
  - destruct name as [n|]; [|done]. destruct fuel as [|fuel]; [done|].
    rewrite stop_truthy in Hstop by done. injection Hstop as <-.
    apply stop_named_keeps_sheets.
  - apply stop_all_returns in Hstop; [|done]. subst w1.
    unfold stop_all. rewrite log_sprite. apply stop_each_keeps_sheets.
Qed.

Lemma start_playback_keeps_sheets w1 name loop i a sh :
  sp_spritesheets (w_sprite (start_playback w1 name loop i a sh))
  = sp_spritesheets (w_sprite w1)
  ∧ sp_currentSpritesheetId (w_sprite (start_playback w1 name loop i a sh))
    = sp_currentSpritesheetId (w_sprite w1).
Proof.
  unfold start_playback. destruct w1 as [s [t ar r n tr]]; simpl.
  by rewrite !log_sprite.
Qed.

Lemma play_keeps_sheets fuel w name loop b w' :
  play fuel w name loop = Some (b, w') →
  sp_spritesheets (w_sprite w') = sp_spritesheets (w_sprite w)
  ∧ sp_currentSpritesheetId (w_sprite w')
    = sp_currentSpritesheetId (w_sprite w).
Proof.
  unfold play.
  destruct (find_animation _ _) as [[i a]|]; [|by intros [= <- <-]].
  destruct (getSpriteSheetForAnimation _ _) as [sh|];
    [|by intros [= <- <-]].
  destruct (stop fuel w (Some name)) as [w1|] eqn:Hstop; [|done].
  intros [= <- <-].
  destruct (stop_keeps_sheets _ _ _ _ Hstop) as [<- <-].
  apply start_playback_keeps_sheets.
Qed.

Lemma tick_keeps_sheets fuel w id w' :
  tick fuel w id = Some w' →
  sp_spritesheets (w_sprite w') = sp_spritesheets (w_sprite w)
  ∧ sp_currentSpritesheetId (w_sprite w')
    = sp_currentSpritesheetId (w_sprite w).
Proof.
  unfold tick. destruct (e_timers (w_env w) !! id) as [c|];
    [|by intros [= <-]].
  assert (Hinvalid :
            stop fuel (logError "play" w) (Some (tk_animationName c))
            = Some w' →
            sp_spritesheets (w_sprite w') = sp_spritesheets (w_sprite w)
            ∧ sp_currentSpritesheetId (w_sprite w')
              = sp_currentSpritesheetId (w_sprite w)).
  { intros H. by apply stop_keeps_sheets in H. }
  destruct (tk_frames c !! tk_frameIndex c) as [f|]; [|exact Hinvalid].
  destruct (negb _); [exact Hinvalid|].
  case_bool_decide; [|by intros [= <-]].
  destruct (tk_shouldLoop c); [by intros [= <-]|].
  clear Hinvalid.
  match goal with
  | |- context [stop fuel ?w0 ?n] =>
      destruct (stop fuel w0 n) as [w2|] eqn:Hstop; [|done]
  end.
  intros [= <-]. rewrite log_sprite.
  by apply stop_keeps_sheets in Hstop.
Qed.

Lemma removeSheet_sprite w id :
  sp_spritesheets (w_sprite (snd (removeSheet w id)))
  = Map_delete id (sp_spritesheets (w_sprite w))
  ∧ sp_currentSpritesheetId (w_sprite (snd (removeSheet w id)))
    = if Map_has id (sp_spritesheets (w_sprite w))
         && bool_decide (sp_currentSpritesheetId (w_sprite w) = Some id)
      then match Map_first_key
                   (Map_delete id (sp_spritesheets (w_sprite w))) with
           | Some next => if truthy_string next then Some next else None
           | None => None
           end
      else sp_currentSpritesheetId (w_sprite w).
Proof.
  unfold removeSheet, log. destruct w as [s0 e]. simpl.
  destruct (Map_has id (sp_spritesheets s0)); simpl; [|done].
  destruct (sp_help s0) eqn:Hhelp; simpl; rewrite ?Hhelp; simpl;
    (destruct (decide (sp_currentSpritesheetId s0 = Some id)) as [Hc|Hc];
     simpl;
     [rewrite bool_decide_eq_true_2 by done
     |rewrite bool_decide_eq_false_2 by done]; split; try done);
    unfold or_string; destruct (Map_first_key _) as [next|]; simpl; try done;
    by destruct (truthy_string next).
Qed.

(** X5: once a truthy [currentSpritesheetId] names a registered sheet it
    does so after every call of [addSheet], [removeSheet], [setFrame],
    [addAnimation], [onEnd], [stop], [play] and after every tick.  In such
    a state the current sheet is what [getSheet(sprite)] returns and what
    every animation without a bound sheet is played on. *)
Theorem X5_current_sheet_stays_registered (w : World) :
  current_registered (w_sprite w) →
  (∀ url o image generated_id,
     current_registered (w_sprite (snd (addSheet w url o image generated_id))))
  ∧ (∀ id, current_registered (w_sprite (snd (removeSheet w id))))
  ∧ (∀ index sid, current_registered (w_sprite (snd (setFrame w index sid))))
  ∧ (∀ o, current_registered (w_sprite (snd (addAnimation w o))))
  ∧ (∀ name cb, current_registered (w_sprite (snd (onEnd w name cb))))
  ∧ (∀ fuel name w', stop fuel w name = Some w' →
                     current_registered (w_sprite w'))
  ∧ (∀ fuel name loop b w', play fuel w name loop = Some (b, w') →
                            current_registered (w_sprite w'))
  ∧ (∀ fuel id w', tick fuel w id = Some w' →
                   current_registered (w_sprite w'))
  ∧ (∀ cur, sp_currentSpritesheetId (w_sprite w) = Some cur →
            truthy_string cur = true →
            ∃ sheet,
              Map_get cur (sp_spritesheets (w_sprite w)) = Some sheet
              ∧ getSheet (w_sprite w) None = Some sheet
              ∧ ∀ a, anim_spritesheet a = None →
                     getSpriteSheetForAnimation (w_sprite w) a = Some sheet).
Proof.
  intros Hinv.
  assert (Hsame : ∀ s', sp_spritesheets s' = sp_spritesheets (w_sprite w) →
                        sp_currentSpritesheetId s'
                        = sp_currentSpritesheetId (w_sprite w) →
                        current_registered s').
  { intros s' Hs Hc cur. rewrite Hs, Hc. apply Hinv. }
  split.
  { intros url o image gid.
    destruct (fst (addSheet w url o image gid)) as [id|] eqn:Hadd.
    - destruct image as [[dw dh]|]; [|done].
      destruct (addSheet_success _ _ _ _ _ _ _ Hadd)
        as (_ & sheet & -> & _).
      intros cur.
      destruct (truthy_opt_string _) eqn:Hcur; simpl.
      + intros Hc Ht. apply Map_has_set. right. by apply Hinv.
      + intros [= <-] _. apply Map_has_set. by left.
    - rewrite addSheet_null by done. by apply Hsame. }
  split.
  { intros id cur. destruct (removeSheet_sprite w id) as [-> ->].
    destruct (Map_has id _ && bool_decide _) eqn:Hcase.
    - destruct (Map_first_key _) as [next|] eqn:Hfirst; [|done].
      destruct (truthy_string next); [|done].
      intros [= <-] _. by apply Map_first_key_has.
    - intros Hc Ht. pose proof (Hinv cur Hc Ht) as Hreg.
      apply Map_has_delete. split; [|done]. intros ->.
      rewrite Hreg in Hcase. simpl in Hcase.
      by rewrite bool_decide_eq_true_2 in Hcase. }
  split.
  { intros index sid.
    destruct (fst (setFrame w index sid)) eqn:Hset.
    - revert Hset. unfold setFrame.
      destruct (or_string sid _) as [target|]; [|done].
      destruct (negb (truthy_string target)); [done|].
      destruct (Map_get target _) as [sheet|] eqn:Hget; [|done].
      destruct (negb (validateFrameIndex index sheet)); [done|].
      intros _. simpl. rewrite log_sprite. simpl.
      intros cur [= <-] _. simpl. unfold Map_has. by rewrite Hget.
    - rewrite setFrame_false by done. by apply Hsame. }
  split.
  { intros o. destruct (fst (addAnimation w o)) as [[|]|] eqn:Hadd.
    - revert Hadd. unfold addAnimation.
      destruct (find_animation _ _); [done|].
      destruct (animation_frames o); [|done|done].
      destruct (target_sheet _ _); [|done].
      case_bool_decide; [done|]. intros _. simpl. rewrite log_sprite.
      by apply Hsame.
    - rewrite addAnimation_false by done. by apply Hsame.
    - rewrite addAnimation_throws by done. by apply Hsame. }
  split.
  { intros name cb. unfold onEnd.
    destruct (find_animation _ _); [|by apply Hsame].
    destruct (negb _); by apply Hsame. }
  split.
  { intros fuel name w' H. apply stop_keeps_sheets in H as [? ?].
    by apply Hsame. }
  split.
  { intros fuel name loop b w' H. apply play_keeps_sheets in H as [? ?].
    by apply Hsame. }
  split.
  { intros fuel id w' H. apply tick_keeps_sheets in H as [? ?].
    by apply Hsame. }
  intros cur Hcur Ht. specialize (Hinv cur Hcur Ht).
  unfold Map_has in Hinv.
  destruct (Map_get cur (sp_spritesheets (w_sprite w))) as [sheet|] eqn:Hget;
    [|done].
  exists sheet. split; [done|]. split.
  - unfold getSheet, or_string. rewrite Hcur. simpl. by rewrite Ht, Ht.
  - intros a Ha. unfold getSpriteSheetForAnimation. rewrite Ha, Hcur. simpl.
    unfold Map_has. by rewrite Ht, Hget.
Qed.

Lemma X5_current_sheet_stays_registered_witness :
  current_registered (w_sprite player_icon)
  ∧ current_registered
      (w_sprite (snd (removeSheet player_icon "icon"%string)))
  ∧ ∃ sheet, getSheet (w_sprite player_icon) None = Some sheet
             ∧ length (sheet_cells sheet) = 1%nat.
Proof.
  assert (Hinv : current_registered (w_sprite player_icon)).
  { intros cur [= <-] _. reflexivity. }
  destruct (X5_current_sheet_stays_registered player_icon Hinv)
    as (_ & Hrem & _ & _ & _ & _ & _ & _ & Hcur).
  split; [exact Hinv|]. split; [apply Hrem|].
  destruct (Hcur "icon"%string) as (sheet & Hget & Hsheet & _);
    [reflexivity|reflexivity|].
  exists sheet. split; [exact Hsheet|].
  vm_compute in Hget. injection Hget as <-. reflexivity.
Defined.

(** ** setFrame *)

Lemma validateFrameIndex_range index sheet :
  validateFrameIndex index sheet = true
  ↔ 0 ≤ index < Z.of_nat (length (sheet_cells sheet)).
Proof.
  unfold validateFrameIndex. rewrite andb_true_iff, !Z.leb_le. lia.
Qed.

(** X6: [setFrame] returns true exactly when the target id (the given id,
    else the current one) is truthy, names a registered sheet, and the
    index is one of that sheet's cells.  It then shows that cell and makes
    the index the current frame and the target the current sheet, and
    touches nothing else; animations that are playing keep playing. *)
Theorem X6_setFrame_result (w : World) (index : Z) (sid : option string) :
  let target := or_string sid (sp_currentSpritesheetId (w_sprite w)) in
  (fst (setFrame w index sid) = true
   ↔ ∃ t sheet,
       target = Some t ∧ truthy_string t = true
       ∧ Map_get t (sp_spritesheets (w_sprite w)) = Some sheet
       ∧ 0 ≤ index < Z.of_nat (length (sheet_cells sheet)))
  ∧ (fst (setFrame w index sid) = true →
     ∃ t sheet css,
       target = Some t
       ∧ Map_get t (sp_spritesheets (w_sprite w)) = Some sheet
       ∧ sheet_cells sheet !! Z.to_nat index = Some css
       ∧ w_sprite (snd (setFrame w index sid))
         = set_currentSpritesheetId (Some t)
             (set_currentFrame (Some index)
                (set_background (Some css) (w_sprite w)))
       ∧ e_timers (w_env (snd (setFrame w index sid))) = e_timers (w_env w)
       ∧ e_arrays (w_env (snd (setFrame w index sid))) = e_arrays (w_env w)
       ∧ e_records (w_env (snd (setFrame w index sid)))
         = e_records (w_env w)).
Proof.
  intros target. unfold setFrame. fold target.
  destruct target as [t|]; simpl.
  2:{ split; [|done]. split; [done|]. by intros (t & sheet & [=] & _). }
  destruct (truthy_string t) eqn:Ht; simpl.
  2:{ split; [|done]. split; [done|].
      intros (t' & sheet & [= <-] & Ht' & _). congruence. }
  destruct (Map_get t (sp_spritesheets (w_sprite w))) as [sheet|] eqn:Hget.
  2:{ split; [|done]. split; [done|].
      intros (t' & sheet & [= <-] & _ & Hg & _). congruence. }
  destruct (validateFrameIndex index sheet) eqn:Hvalid; simpl.
  - split.
    + split; [|done]. intros _. exists t, sheet.
      by apply validateFrameIndex_range in Hvalid.
    + intros _. destruct (validateFrameIndex_cell _ _ Hvalid) as [css Hcss].
      exists t, sheet, css. rewrite log_sprite, log_env. simpl.
      by rewrite Hcss.
  - split; [|done]. split; [done|].
    intros (t' & sheet' & [= <-] & _ & Hg & Hrange).
    rewrite Hget in Hg. injection Hg as <-.
    apply validateFrameIndex_range in Hrange. congruence.
Qed.

Lemma X6_setFrame_result_witness :
  fst (setFrame player_sheet 5 None) = true
  ∧ sp_currentFrame (w_sprite (snd (setFrame player_sheet 5 None))) = Some 5
  ∧ sp_background (w_sprite (snd (setFrame player_sheet 5 None)))
    = Some "url('/player.png') -32px -32px"%string.
Proof.
  destruct (X6_setFrame_result player_sheet 5 None) as [Hiff Hok].
  assert (Ht : fst (setFrame player_sheet 5 None) = true).
  { apply Hiff. eexists "main"%string, _.
    split; [reflexivity|]. split; [reflexivity|]. split; [reflexivity|].
    vm_compute. split; congruence. }
  split; [exact Ht|].
  destruct (Hok Ht) as (t & sheet & css & Htarget & Hget & Hcss & -> & _).
  split; [reflexivity|]. simpl. rewrite <- Hcss.
  injection Htarget as <-.
  vm_compute in Hget. injection Hget as <-. reflexivity.
Defined.

(** X7: on a sheet that [addSheet] has just added under a truthy id,
    [setFrame] accepts exactly the indices [0 .. columns * rows - 1], and
    index [i] shows the cell of row [i / columns] and column
    [i mod columns]: the background is the sheet's url with the offsets
    [-(i mod columns) * cellWidth] and [-(i / columns) * cellHeight]. *)
Theorem X7_setFrame_on_added_sheet (w : World) (url : string)
  (o : SheetOptions) (dw dh : Z) (generated_id id : string) :
  fst (addSheet w url o (Some (dw, dh)) generated_id) = Some id →
  truthy_string id = true →
  let w1 := snd (addSheet w url o (Some (dw, dh)) generated_id) in
  ∃ sheet,
    Map_get id (sp_spritesheets (w_sprite w1)) = Some sheet
    ∧ ∀ index,
        (fst (setFrame w1 index (Some id)) = true
         ↔ 0 ≤ index < sheet_columns sheet * sheet_rows sheet)
        ∧ (0 ≤ index < sheet_columns sheet * sheet_rows sheet →
           sp_background (w_sprite (snd (setFrame w1 index (Some id))))
           = Some (cell_css url
                     (- (index `mod` sheet_columns sheet * sheet_width sheet))
                     (- (index `div` sheet_columns sheet
                         * sheet_height sheet)))
           ∧ sp_currentFrame (w_sprite (snd (setFrame w1 index (Some id))))
             = Some index
           ∧ sp_currentSpritesheetId
               (w_sprite (snd (setFrame w1 index (Some id))))
             = Some id).
Proof.
  intros Hadd Hid w1.
  destruct (addSheet_success _ _ _ _ _ _ _ Hadd)
    as (_ & sheet & Hs & Hurl & Hc & Hr & Hcells & _).
  fold w1 in Hs.
  assert (Hget : Map_get id (sp_spritesheets (w_sprite w1)) = Some sheet).
  { rewrite Hs. destruct (truthy_opt_string _); apply Map_get_set_eq. }
  assert (Hlen : Z.of_nat (length (sheet_cells sheet))
                 = sheet_columns sheet * sheet_rows sheet).
  { rewrite Hcells, createSpriteCells_length. nia. }
  exists sheet. split; [done|]. intros index.
  assert (Hrun : setFrame w1 index (Some id)
                 = if negb (validateFrameIndex index sheet)
                   then (false, logError "setFrame" w1)
                   else (true,
                         log (with_sprite
                                (λ s, set_currentSpritesheetId (Some id)
                                        (set_currentFrame (Some index)
                                           (set_background
                                              (sheet_cells sheet
                                                 !! Z.to_nat index) s)))
                                w1))).
  { unfold setFrame, or_string. simpl. by rewrite Hid, Hid, Hget. }
  rewrite Hrun.
  destruct (validateFrameIndex index sheet) eqn:Hvalid; simpl.
  - apply validateFrameIndex_range in Hvalid. rewrite Hlen in Hvalid.
    split; [tauto|]. intros _. rewrite log_sprite. simpl.
    split; [|done].
    pose proof (Z.div_mod index (sheet_columns sheet)) as Hdm.
    pose proof (Z.mod_pos_bound index (sheet_columns sheet) Hc) as Hmod.
    assert (Hrow : 0 ≤ index `div` sheet_columns sheet < sheet_rows sheet).
    { split; [apply Z.div_pos; lia|].
      apply Z.div_lt_upper_bound; lia. }
    rewrite Hcells at 1.
    replace index
      with (index `div` sheet_columns sheet * sheet_columns sheet
            + index `mod` sheet_columns sheet) at 1 by lia.
    rewrite createSpriteCells_lookup by done. by rewrite Hurl.
  - split; [|intros Hrange]; [split; [done|]; intros Hrange|];
      rewrite <- Hlen in Hrange;
      apply validateFrameIndex_range in Hrange; congruence.
Qed.

Lemma X7_setFrame_on_added_sheet_witness :
  fst (setFrame player_sheet 7 (Some "main"%string)) = true
  ∧ fst (setFrame player_sheet 8 (Some "main"%string)) = false
  ∧ sp_background
      (w_sprite (snd (setFrame player_sheet 7 (Some "main"%string))))
    = Some "url('/player.png') -96px -32px"%string.
Proof.
  destruct (X7_setFrame_on_added_sheet player "/player.png"
              (sheet_options "main") 128 64 "sheet_0" "main")
    as (sheet & Hget & Hall); [reflexivity|reflexivity|].
  vm_compute in Hget. injection Hget as <-.
  destruct (Hall 7) as [Hiff7 Hshow]. destruct (Hall 8) as [Hiff8 _].
  split; [apply Hiff7; simpl; lia|].
  split.
  { apply not_true_is_false. intros E. apply Hiff8 in E. simpl in E. lia. }
  destruct Hshow as (Hbg & _); [simpl; lia|].
  etransitivity; [exact Hbg|]. reflexivity.
Defined.

(** ** From registration to playback *)

Lemma find_animation_app_new name l a :
  find_animation name l = None → anim_name a = name →
  find_animation name (l ++ [a]) = Some (length l, a).
Proof.
  unfold find_animation. intros Hnone Ha.
  apply list_find_Some. split.
  { rewrite lookup_app_r by lia. by rewrite Nat.sub_diag. }
  split; [done|]. intros j b Hj Hlt.
  rewrite lookup_app_l in Hj by done.
  rewrite list_find_None, Forall_forall in Hnone.
  apply Hnone. by apply list_elem_of_lookup_2 in Hj.
Qed.

(** What a successful [addAnimation] has checked and stored. *)
Lemma addAnimation_success w o :
  fst (addAnimation w o) = Returned true →
  ∃ frames target,
    animation_frames o = Frames frames
    ∧ target_sheet (w_sprite w) (ao_spritesheet o) = Some target
    ∧ Forall (λ f, validateFrameIndex f target = true) frames
    ∧ find_animation (ao_name o) (sp_animations (w_sprite w)) = None
    ∧ w_sprite (snd (addAnimation w o))
      = set_animations
          (sp_animations (w_sprite w)
             ++ [mkAnim (ao_name o) (default 0 (ao_start o))
                        (or_num (ao_end o)
                           (default 0 (ao_start o)
                            + Z.of_nat (length frames) - 1))
                        frames (default 100 (ao_speed o)) true
                        (default false (ao_loop o))
                        (if truthy_opt_string (ao_spritesheet o)
                         then ao_spritesheet o else None)])
          (w_sprite w).
Proof.
  unfold addAnimation.
  destruct (find_animation _ _) eqn:Hfind; [done|].
  destruct (animation_frames o) as [frames| |]; [|done|done].
  destruct (target_sheet _ _) as [target|]; [|done].
  case_bool_decide as Hinv; [done|]. intros _.
  exists frames, target. simpl. rewrite log_sprite. simpl.
  split; [done|]. split; [done|]. split; [|done].
  apply Forall_forall. intros f Hf. apply validateFrameIndex_range.
  assert (Hnone : length (filter
                    (λ frame, frame < 0
                       ∨ frame > Z.of_nat (length (sheet_cells target)) - 1)
                    frames) = 0%nat) by lia.
  rewrite filter_empty_iff in Hnone. specialize (Hnone f Hf). lia.
Qed.

(** X8: every frame of an animation that [addAnimation] accepted is a
    cell of the sheet it was checked against.  When the animation is
    bound to a sheet, or a truthy current sheet is set, [play] right after
    the registration resolves that same sheet: it cannot return false,
    and when it returns the new timer's handler starts at cursor 0 with a
    frame list that lies entirely within its sheet. *)
Theorem X8_registered_animation_plays_in_range (w : World)
  (o : SpriteAnimationOptions) (fuel : nat) (loop : option bool) :
  fst (addAnimation w o) = Returned true →
  truthy_opt_string (ao_spritesheet o) = true
  ∨ truthy_opt_string (sp_currentSpritesheetId (w_sprite w)) = true →
  let w1 := snd (addAnimation w o) in
  (∃ frames target,
     animation_frames o = Frames frames
     ∧ target_sheet (w_sprite w) (ao_spritesheet o) = Some target
     ∧ Forall (λ f, 0 ≤ f < Z.of_nat (length (sheet_cells target))) frames)
  ∧ (∀ w', play fuel w1 (ao_name o) loop ≠ Some (false, w'))
  ∧ (∀ w2, play fuel w1 (ao_name o) loop = Some (true, w2) →
       ∃ id c,
         Map_get (String_of_name (ao_name o))
                 (sp_activeIntervals (w_sprite w2)) = Some id
         ∧ e_timers (w_env w2) !! id = Some c
         ∧ tk_frameIndex c = 0%nat
         ∧ animation_frames o = Frames (tk_frames c)
         ∧ target_sheet (w_sprite w) (ao_spritesheet o)
           = Some (tk_spritesheet c)
         ∧ closure_valid c).
Proof.
  intros Hadd Hbound w1.
  destruct (addAnimation_success _ _ Hadd)
    as (frames & target & Hframes & Htarget & Hvalid & Hnone & Hs).
  fold w1 in Hs.
  set (a := mkAnim (ao_name o) (default 0 (ao_start o))
                   (or_num (ao_end o)
                      (default 0 (ao_start o)
                       + Z.of_nat (length frames) - 1))
                   frames (default 100 (ao_speed o)) true
                   (default false (ao_loop o))
                   (if truthy_opt_string (ao_spritesheet o)
                    then ao_spritesheet o else None)) in *.
  assert (Hfind : find_animation (ao_name o) (sp_animations (w_sprite w1))
                  = Some (length (sp_animations (w_sprite w)), a)).
  { rewrite Hs. simpl. by apply find_animation_app_new. }
  assert (Hsheet : getSpriteSheetForAnimation (w_sprite w1) a = Some target).
  { unfold getSpriteSheetForAnimation. rewrite Hs. simpl.
    unfold target_sheet in Htarget.
    assert (Hunbound :
              truthy_opt_string (sp_currentSpritesheetId (w_sprite w)) = true →
              getSheet (w_sprite w) None = Some target →
              match sp_currentSpritesheetId (w_sprite w) with
              | Some cur =>
                  if truthy_string cur
                     && Map_has cur (sp_spritesheets (w_sprite w))
                  then Map_get cur (sp_spritesheets (w_sprite w))
                  else Map_first_value (sp_spritesheets (w_sprite w))
              | None => Map_first_value (sp_spritesheets (w_sprite w))
              end = Some target).
    { intros Hcur Hget. unfold getSheet, or_string in Hget. simpl in Hget.
      rewrite Hcur in Hget.
      destruct (sp_currentSpritesheetId (w_sprite w)) as [cur|]; [|done].
      simpl in Hcur. rewrite Hcur in Hget. unfold Map_has.
      by rewrite Hcur, Hget. }
    clear Hs Hfind. subst a. revert Hbound Htarget.
    destruct (ao_spritesheet o) as [bound|]; simpl.
    - destruct (truthy_string bound) eqn:Htb; simpl.
      + intros _ Htarget. by rewrite Htb.
      + intros [?|Hcur] Htarget; [done|]. by apply Hunbound.
    - intros [?|Hcur] Htarget; [done|]. by apply Hunbound. }
  split.
  { exists frames, target. split; [done|]. split; [done|].
    eapply Forall_impl; [exact Hvalid|]. intros f Hf.
    by apply validateFrameIndex_range. }
  split.
  { intros w' H. unfold play in H. rewrite Hfind, Hsheet in H.
    by destruct (stop _ _ _). }
  intros w2 Hplay.
  destruct (play_success _ _ _ _ _ _ _ _ Hfind Hsheet Hplay)
    as (w0 & id & r & _ & _ & _ & _ & _ & _ & _ & Hid & _ & Hc).
  eexists id, _. split; [exact Hid|]. split; [exact Hc|]. by repeat split.
Qed.

Lemma X8_registered_animation_plays_in_range_witness :
  ∃ id c,
    Map_get "walk"%string (sp_activeIntervals (w_sprite (play_walk player_walk)))
    = Some id
    ∧ e_timers (w_env (play_walk player_walk)) !! id = Some c
    ∧ closure_valid c.
Proof.
  destruct (X8_registered_animation_plays_in_range player_sheet walk_options
              1 None)
    as (_ & _ & Hok); [reflexivity|by right|].
  destruct (Hok (play_walk player_walk)) as (id & c & Hid & Hc & _ & _ & _ & Hv);
    [vm_compute; reflexivity|].
  by exists id, c.
Defined.

(** ** A whole playback, tick by tick *)

Lemma set_frameIndex_twice i j c :
  set_frameIndex j (set_frameIndex i c) = set_frameIndex j c.
Proof. done. Qed.

Lemma closure_valid_frame c i :
  closure_valid c → (i < length (tk_frames c))%nat →
  ∃ f, tk_frames c !! i = Some f
       ∧ validateFrameIndex f (tk_spritesheet c) = true.
Proof.
  intros Hv Hi. apply lookup_lt_is_Some in Hi as [f Hf]. exists f.
  split; [done|]. unfold closure_valid in Hv.
  rewrite Forall_lookup in Hv. by apply (Hv i).
Qed.

(** While the cursor stays inside the frame list, [k] ticks show the next
    [k] frames and change nothing else on the sprite. *)
Lemma ticks_advance fuel id c k :
  closure_valid c →
  ∀ w i,
    e_timers (w_env w) !! id = Some (set_frameIndex i c) →
    (i + k < length (tk_frames c))%nat →
    ∃ w',
      ticks fuel k w id = Some w'
      ∧ e_timers (w_env w') !! id = Some (set_frameIndex (i + k) c)
      ∧ sp_activeIntervals (w_sprite w') = sp_activeIntervals (w_sprite w)
      ∧ sp_animations (w_sprite w') = sp_animations (w_sprite w)
      ∧ sp_animationCallbacks (w_sprite w')
        = sp_animationCallbacks (w_sprite w)
      ∧ (0 < k → sp_currentFrame (w_sprite w')
                 = tk_frames c !! (i + k - 1))%nat.
Proof.
  intros Hv. induction k as [|k IH]; intros w i Hc Hlt.
  { exists w. rewrite Nat.add_0_r. repeat split; try done. lia. }
  destruct (closure_valid_frame c i Hv) as (f & Hf & Hvalid); [lia|].
  destruct (tick_valid_frame fuel w id (set_frameIndex i c) f Hc Hf Hvalid)
    as (css & Hcss & Htick).
  simpl in Htick. rewrite bool_decide_eq_true_2 in Htick by lia.
  simpl. rewrite Htick.
  match type of Htick with
  | _ = Some ?w1 =>
      destruct (IH w1 (S i)) as (w' & Hw' & Ht & Ha & Han & Hcb & Hframe);
        [simpl; apply lookup_insert_eq|lia|]
  end.
  exists w'. rewrite Hw'. replace (i + S k)%nat with (S i + k)%nat by lia.
  repeat split; try done.
  intros _. destruct k as [|k].
  - simpl in Hw'. injection Hw' as <-. simpl.
    replace (i + 0 - 0)%nat with i by lia. by rewrite Hf.
  - rewrite Hframe by lia. f_equal.
Qed.

(** X9: a playback whose frames all lie within its sheet, not looping,
    under a truthy name: starting from cursor 0, the first [k] ticks
    ([k] below the number of frames) show frames [0 .. k-1] and leave the
    cursor at [k]; the tick that shows the last frame stops the animation
    (timer cleared, entry removed, [stopped] set); every later firing of
    the handle does nothing. *)
Theorem X9_one_shot_playback (fuel : nat) (w : World) (id : handle)
  (c : Closure) :
  e_timers (w_env w) !! id = Some c →
  tk_frameIndex c = 0%nat →
  closure_valid c →
  tk_shouldLoop c = false →
  truthy_name (Some (tk_animationName c)) = true →
  Map_get (String_of_name (tk_animationName c))
          (sp_activeIntervals (w_sprite w)) = Some id →
  let n := length (tk_frames c) in
  (∀ k, (k < n)%nat →
        ∃ w', ticks (S fuel) k w id = Some w'
              ∧ (tk_frameIndex <$> e_timers (w_env w') !! id) = Some k
              ∧ (0 < k → sp_currentFrame (w_sprite w')
                         = tk_frames c !! (k - 1))%nat)
  ∧ ((0 < n)%nat →
     ∃ w', ticks (S fuel) n w id = Some w'
           ∧ sp_currentFrame (w_sprite w') = tk_frames c !! (n - 1)%nat
           ∧ e_timers (w_env w') !! id = None
           ∧ Map_get (String_of_name (tk_animationName c))
                     (sp_activeIntervals (w_sprite w')) = None
           ∧ (∀ i a, find_animation (tk_animationName c)
                                    (sp_animations (w_sprite w))
                     = Some (i, a) →
                     (anim_stopped <$> sp_animations (w_sprite w') !! i)
                     = Some true)
           ∧ ∀ m, ticks (S fuel) m w' id = Some w').
Proof.
  intros Hc H0 Hv Hloop Hname Hactive n.
  assert (Hc0 : e_timers (w_env w) !! id = Some (set_frameIndex 0 c)).
  { rewrite Hc. f_equal. destruct c. simpl in H0. by subst. }
  split.
  { intros k Hk.
    destruct (ticks_advance (S fuel) id c k Hv w 0%nat Hc0)
      as (w' & Hw' & Ht & _ & _ & _ & Hframe); [simpl; lia|].
    exists w'. split; [done|]. rewrite Ht. split; [done|]. exact Hframe. }
  intros Hn.
  destruct (ticks_advance (S fuel) id c (n - 1) Hv w 0%nat Hc0)
    as (w1 & Hw1 & Ht & Ha & Han & _ & _); [simpl; lia|].
  simpl in Ht.
  destruct (closure_valid_frame c (n - 1) Hv) as (f & Hf & Hvalid);
    [lia|].
  destruct (tick_completion_stops fuel w1 id (set_frameIndex (n - 1) c) f)
    as (w' & Hw' & Hframe & _ & Hgone & Htimer & Hstopped);
    try done; [simpl; lia|].
  simpl in *.
  assert (Hticks : ticks (S fuel) n w id = Some w').
  { replace n with (n - 1 + 1)%nat at 1 by lia.
    clear -Hw1 Hw'. revert w Hw1.
    generalize (n - 1)%nat as k.
    induction k as [|k IH]; intros w Hw1; simpl in *.
    - injection Hw1 as ->. by rewrite Hw'.
    - destruct (tick (S fuel) w id) as [w0|]; [|done]. by apply IH. }
  exists w'. split; [done|]. split; [by rewrite Hframe|].
  assert (Hdead : e_timers (w_env w') !! id = None).
  { apply Htimer. by rewrite Ha. }
  split; [done|]. split; [done|]. split.
  { intros i a Hfind. apply (Hstopped i a). by rewrite Han. }
  intros m. induction m as [|m IH]; [done|]. simpl.
  unfold tick at 1. by rewrite Hdead.
Qed.

Lemma X9_one_shot_playback_witness :
  ∃ w', ticks 1 3 player_walking 1%positive = Some w'
        ∧ sp_currentFrame (w_sprite w') = Some 2
        ∧ e_timers (w_env w') !! 1%positive = None
        ∧ ticks 1 5 w' 1%positive = Some w'.
Proof.
  edestruct (X9_one_shot_playback 0 player_walking 1%positive)
    as [_ Hend];
    [vm_compute; reflexivity|reflexivity
    |repeat constructor|reflexivity|reflexivity|vm_compute; reflexivity|].
  destruct Hend as (w' & Hw' & Hframe & Hdead & _ & _ & Hafter);
    [simpl; lia|].
  exists w'. split; [exact Hw'|]. split; [exact Hframe|].
  split; [exact Hdead|apply Hafter].
Defined.

(** X10: a looping playback with at least one frame, whose frames all
    lie within its sheet, never stops by itself: after any number [k] of
    ticks from cursor 0 the timer is still registered and its cursor is
    [k mod n], [n] the number of frames.  With no frame at all the loop
    flag is never consulted: the first tick finds nothing at the cursor
    and calls [stop] for the animation. *)
Theorem X10_looping_playback_wraps (fuel : nat) (w : World) (id : handle)
  (c : Closure) (k : nat) :
  e_timers (w_env w) !! id = Some c →
  tk_frameIndex c = 0%nat →
  closure_valid c →
  tk_shouldLoop c = true →
  ((0 < length (tk_frames c))%nat →
   ∃ w', ticks fuel k w id = Some w'
         ∧ e_timers (w_env w') !! id
           = Some (set_frameIndex (k `mod` length (tk_frames c)) c)
         ∧ sp_activeIntervals (w_sprite w') = sp_activeIntervals (w_sprite w)
         ∧ sp_animations (w_sprite w') = sp_animations (w_sprite w))
  ∧ (tk_frames c = [] →
     tick fuel w id
     = stop fuel (logError "play" w) (Some (tk_animationName c))).
Proof.
  intros Hc H0 Hv Hloop. split.
  2:{ intros Hnil. apply tick_invalid_frame; [done|].
      intros f. by rewrite Hnil. }
  intros Hn.
  assert (Hc0 : e_timers (w_env w) !! id = Some (set_frameIndex 0 c)).
  { rewrite Hc. f_equal. destruct c. simpl in H0. by subst. }
  clear Hc H0.
  assert (Hgen : ∀ k w i,
            (i < length (tk_frames c))%nat →
            e_timers (w_env w) !! id = Some (set_frameIndex i c) →
            ∃ w', ticks fuel k w id = Some w'
                  ∧ e_timers (w_env w') !! id
                    = Some (set_frameIndex
                              ((i + k) `mod` length (tk_frames c)) c)
                  ∧ sp_activeIntervals (w_sprite w')
                    = sp_activeIntervals (w_sprite w)
                  ∧ sp_animations (w_sprite w') = sp_animations (w_sprite w)).
  { clear k w Hc0. induction k as [|k IH]; intros w i Hi Hc.
    { exists w. rewrite Nat.add_0_r, Nat.mod_small by done. by repeat split. }
    destruct (closure_valid_frame c i Hv Hi) as (f & Hf & Hvalid).
    destruct (tick_valid_frame fuel w id (set_frameIndex i c) f Hc Hf Hvalid)
      as (css & Hcss & Htick).
    simpl in Htick. rewrite Hloop in Htick. simpl. rewrite Htick.
    case_bool_decide as Hlast.
    - match type of Htick with
      | _ = Some ?w1 =>
          destruct (IH w1 (S i)) as (w' & Hw' & Ht & Ha & Han);
            [exact Hlast|simpl; apply lookup_insert_eq|]
      end.
      exists w'. rewrite Hw', Ht.
      replace (S i + k)%nat with (i + S k)%nat by lia. by repeat split.
    - match type of Htick with
      | _ = Some ?w1 =>
          destruct (IH w1 0%nat) as (w' & Hw' & Ht & Ha & Han);
            [exact Hn|simpl; apply lookup_insert_eq|]
      end.
      exists w'. rewrite Hw', Ht. split; [done|]. split; [|done].
      do 2 f_equal. simpl.
      replace (i + S k)%nat with (k + 1 * length (tk_frames c))%nat by lia.
      by rewrite Nat.Div0.mod_add. }
  destruct (Hgen k w 0%nat Hn Hc0) as (w' & Hw' & Ht & Ha & Han).
  exists w'. by repeat split.
Qed.

Lemma X10_looping_playback_wraps_witness :
  ∃ w', ticks 0 7 (played (play 1 player_walk (NameStr "walk") (Some true))
                          player_walk) 1%positive = Some w'
        ∧ (tk_frameIndex <$> e_timers (w_env w') !! 1%positive) = Some 1%nat.
Proof.
  destruct (X10_looping_playback_wraps 0
              (played (play 1 player_walk (NameStr "walk") (Some true))
                      player_walk) 1%positive
              (mkClosure (NameStr "walk") [0; 1; 2]
                 (mkSheet "/player.png" 4 2
                    (createSpriteCells
                       (mkSheet "/player.png" 4 2 [] 32 32)) 32 32)
                 true 0%nat 100) 7)
    as [Hwraps _];
    [vm_compute; reflexivity|reflexivity|repeat constructor|reflexivity|].
  destruct Hwraps as (w' & Hw' & Ht & _); [simpl; lia|].
  exists w'. split; [exact Hw'|].
  apply (f_equal (fmap tk_frameIndex)) in Ht. exact Ht.
Defined.

(** ** Timers and [activeIntervals] *)

Lemma timers_registered_same w w' :
  sp_activeIntervals (w_sprite w') = sp_activeIntervals (w_sprite w) →
  (∀ id, is_Some (e_timers (w_env w') !! id)
         ↔ is_Some (e_timers (w_env w) !! id)) →
  timers_registered w → timers_registered w'.
Proof.
  intros Ha Ht [Hlive Hinj]. split.
  - intros id. rewrite Ht, Ha. apply Hlive.
  - rewrite Ha. apply Hinj.
Qed.

Lemma timers_registered_log w : timers_registered w → timers_registered (log w).
Proof.
  apply timers_registered_same; [by rewrite log_sprite|].
  intros id. by rewrite log_env.
Qed.

Lemma timers_registered_stop_named w name :
  timers_registered w → timers_registered (stop_named w name).
Proof.
  intros [Hlive Hinj]. unfold timers_registered.
  rewrite stop_named_sprite, stop_named_env. simpl.
  set (k := String_of_name name).
  destruct (Map_get k (sp_activeIntervals (w_sprite w))) as [id0|] eqn:Hk.
  - split.
    + intros id. split.
      * intros Hsome. destruct (decide (id = id0)) as [->|Hne].
        { rewrite lookup_delete_eq in Hsome. by destruct Hsome. }
        rewrite lookup_delete_ne in Hsome by done.
        apply Hlive in Hsome as [k' Hk']. exists k'.
        rewrite Map_get_delete_ne; [done|]. intros <-. congruence.
      * intros [k' Hk']. destruct (decide (k = k')) as [<-|Hne].
        { by rewrite Map_get_delete_eq in Hk'. }
        rewrite Map_get_delete_ne in Hk' by done.
        rewrite lookup_delete_ne.
        { apply Hlive. eauto. }
        intros <-. apply Hne. by apply (Hinj k k' id0).
    + intros k1 k2 id H1 H2.
      destruct (decide (k = k1)) as [<-|Hne1];
        [by rewrite Map_get_delete_eq in H1|].
      destruct (decide (k = k2)) as [<-|Hne2];
        [by rewrite Map_get_delete_eq in H2|].
      rewrite Map_get_delete_ne in H1, H2 by done. by apply (Hinj k1 k2 id).
  - rewrite (Map_delete_absent _ _ Hk). by split.
Qed.

Lemma timers_registered_stop_each ks :
  ∀ w, timers_registered w → timers_registered (stop_each ks w).
Proof.
  unfold stop_each. induction ks as [|k ks IH]; intros w Hinv; simpl; [done|].
  apply IH. destruct (Map_has k _); [|done].
  by apply timers_registered_stop_named.
Qed.

Lemma timers_registered_stop fuel w name w' :
  timers_registered w → stop fuel w name = Some w' → timers_registered w'.
Proof.
  intros Hinv Hstop. destruct (truthy_name name) eqn:Hname.
  - destruct name as [n|]; [|done]. destruct fuel as [|fuel]; [done|].
    rewrite stop_truthy in Hstop by done. injection Hstop as <-.
    by apply timers_registered_stop_named.
  - apply stop_all_returns in Hstop; [|done]. subst w'.
    by apply timers_registered_log, timers_registered_stop_each.
Qed.

Lemma timers_registered_start_playback w1 name loop i a sh :
  timers_registered w1 →
  Map_get (String_of_name name) (sp_activeIntervals (w_sprite w1)) = None →
  timers_registered (start_playback w1 name loop i a sh).
Proof.
  intros [Hlive Hinj] Habs. unfold timers_registered.
  rewrite start_playback_active, start_playback_timers.
  set (k := String_of_name name) in *.
  set (id := fresh (dom (e_timers (w_env w1)))).
  assert (Hfresh : e_timers (w_env w1) !! id = None)
    by apply not_elem_of_dom, is_fresh.
  assert (Hnot : ∀ k', Map_get k' (sp_activeIntervals (w_sprite w1))
                       ≠ Some id).
  { intros k' Hk'. assert (is_Some (e_timers (w_env w1) !! id)) as [? ?]
      by (apply Hlive; eauto). congruence. }
  split.
  - intros id'. split.
    + intros Hsome. destruct (decide (id = id')) as [<-|Hne].
      { exists k. apply Map_get_set_eq. }
      rewrite lookup_insert_ne in Hsome by done.
      apply Hlive in Hsome as [k' Hk']. exists k'.
      rewrite Map_get_set_ne; [done|]. intros <-. congruence.
    + intros [k' Hk']. destruct (decide (k = k')) as [<-|Hne].
      { rewrite Map_get_set_eq in Hk'. injection Hk' as <-.
        rewrite lookup_insert_eq. eauto. }
      rewrite Map_get_set_ne in Hk' by done.
      destruct (decide (id = id')) as [<-|Hid]; [by apply Hnot in Hk'|].
      rewrite lookup_insert_ne by done. apply Hlive. eauto.
  - intros k1 k2 id' H1 H2.
    destruct (decide (k = k1)) as [<-|Hne1];
      destruct (decide (k = k2)) as [<-|Hne2]; [done| | |].
    + rewrite Map_get_set_eq in H1. injection H1 as <-.
      rewrite Map_get_set_ne in H2 by done. by apply Hnot in H2.
    + rewrite Map_get_set_eq in H2. injection H2 as <-.
      rewrite Map_get_set_ne in H1 by done. by apply Hnot in H1.
    + rewrite Map_get_set_ne in H1, H2 by done. by apply (Hinj k1 k2 id').
Qed.

Lemma timers_registered_play fuel w name loop b w' :
  timers_registered w → play fuel w name loop = Some (b, w') →
  timers_registered w'.
Proof.
  intros Hinv. unfold play.
  destruct (find_animation _ _) as [[i a]|]; [|by intros [= <- <-]].
  destruct (getSpriteSheetForAnimation _ _) as [sh|];
    [|by intros [= <- <-]].
  destruct (stop fuel w (Some name)) as [w1|] eqn:Hstop; [|done].
  intros [= <- <-].
  apply timers_registered_start_playback.
  - by apply (timers_registered_stop _ _ _ _ Hinv Hstop).
  - by apply stop_ends_playback in Hstop as [? _].
Qed.




(** ** Registering and unregistering end-callbacks *)

Lemma Set_delete_absent {A} `{EqDecision A} (x : A) (s : list A) :
  x ∉ s → Set_delete x s = s.
Proof.
  unfold Set_delete. induction s as [|y s IH]; [done|].
  intros Hx. apply not_elem_of_cons in Hx as [Hne Hx].
  rewrite filter_cons_True by done. by rewrite IH.
Qed.

Lemma Set_delete_add {A} `{EqDecision A} (x : A) (s : list A) :
  x ∉ s → Set_delete x (Set_add x s) = s.
Proof.
  intros Hx. unfold Set_add. rewrite bool_decide_eq_false_2 by done.
  unfold Set_delete. rewrite filter_app. simpl.
  rewrite filter_cons_False by (intros H'; by apply H').
  rewrite filter_nil, app_nil_r. by apply Set_delete_absent.
Qed.

Lemma Map_set_set {V} (m : list (string * V)) k v v' :
  Map_set k v' (Map_set k v m) = Map_set k v' m.
Proof.
  induction m as [|[k0 v0] m IH]; simpl.
  - by rewrite decide_True.
  - destruct (decide (k0 = k)) as [->|Hne]; simpl.
    + by rewrite decide_True.
    + by rewrite decide_False, IH.
Qed.

Lemma Map_set_same {V} (m : list (string * V)) k v :
  Map_get k m = Some v → Map_set k v m = m.
Proof.
  induction m as [|[k0 v0] m IH]; simpl; [done|].
  destruct (decide (k0 = k)) as [->|Hne]; [by intros [= ->]|].
  intros H. by rewrite IH.
Qed.

(** The callbacks of a name after [onEnd] has accepted one. *)
Lemma onEnd_callbacks w name cb :
  fst (onEnd w name cb) = true →
  w_sprite (snd (onEnd w name cb))
  = set_animationCallbacks
      (Map_set (String_of_name name)
         (Set_add cb
            (default [] (Map_get (String_of_name name)
                           (sp_animationCallbacks (w_sprite w)))))
         (sp_animationCallbacks (w_sprite w)))
      (w_sprite w)
  ∧ w_env (snd (onEnd w name cb)) = w_env w.
Proof.
  unfold onEnd. destruct (find_animation _ _); [|done]. intros _. simpl.
  unfold Map_has.
  destruct (Map_get (String_of_name name)
              (sp_animationCallbacks (w_sprite w))) as [cbs|] eqn:Hget;
    simpl.
  - by rewrite Hget.
  - by rewrite Map_get_set_eq, Map_set_set.
Qed.

(** X12: [onEnd] succeeds exactly for a registered animation name, and
    then adds the callback to the set kept under [String(name)], leaving
    the sets of the other names alone.  Registering a callback that is
    already there changes nothing, and so does registering the same
    callback again.  The function that [onEnd] returned undoes the
    registration: if the callback was new (and the name had no empty
    callback set), calling it restores the sprite exactly. *)
Theorem X12_onEnd_register_unregister (w : World) (name : AnimName)
  (cb : Callback) :
  let k := String_of_name name in
  let cbs := default [] (Map_get k (sp_animationCallbacks (w_sprite w))) in
  let w1 := snd (onEnd w name cb) in
  (fst (onEnd w name cb) = true
   ↔ ∃ i a, find_animation name (sp_animations (w_sprite w)) = Some (i, a))
  ∧ (fst (onEnd w name cb) = true →
     Map_get k (sp_animationCallbacks (w_sprite w1)) = Some (Set_add cb cbs)
     ∧ cb ∈ Set_add cb cbs
     ∧ (∀ k', k' ≠ k →
              Map_get k' (sp_animationCallbacks (w_sprite w1))
              = Map_get k' (sp_animationCallbacks (w_sprite w)))
     ∧ (cb ∈ cbs → w1 = w)
     ∧ snd (onEnd w1 name cb) = w1
     ∧ (cb ∉ cbs →
        Map_get k (sp_animationCallbacks (w_sprite w)) ≠ Some [] →
        unregister w1 name cb = w)).
Proof.
  intros k cbs w1.
  split.
  { unfold onEnd. destruct (find_animation _ _) as [[i a]|]; simpl.
    - split; eauto.
    - split; [done|]. by intros (i & a & [=]). }
  intros Hok. destruct (onEnd_callbacks _ _ _ Hok) as [Hs He].
  fold w1 k cbs in Hs, He.
  assert (Hget1 : Map_get k (sp_animationCallbacks (w_sprite w1))
                  = Some (Set_add cb cbs))
    by (rewrite Hs; apply Map_get_set_eq).
  split; [done|].
  split.
  { unfold Set_add. case_bool_decide; [done|].
    apply elem_of_app. right. left. }
  split.
  { intros k' Hk'. rewrite Hs. simpl. by apply Map_get_set_ne. }
  assert (Hidem : cb ∈ cbs → w1 = w).
  { intros Hin.
    destruct w as [s e], w1 as [s1 e1]. simpl in *. subst e1. f_equal.
    rewrite Hs. unfold Set_add. rewrite bool_decide_eq_true_2 by done.
    unfold cbs in *.
    destruct (Map_get k (sp_animationCallbacks s)) as [l|] eqn:Hl;
      [|by apply elem_of_nil in Hin].
    simpl. rewrite (Map_set_same _ _ _ Hl). by destruct s. }
  split; [done|].
  split.
  { assert (Hok1 : fst (onEnd w1 name cb) = true).
    { revert Hok. unfold onEnd. rewrite Hs. simpl.
      by destruct (find_animation _ _). }
    destruct (onEnd_callbacks _ _ _ Hok1) as [Hs2 He2].
    fold k in Hs2. rewrite Hget1 in Hs2. simpl in Hs2.
    destruct (snd (onEnd w1 name cb)) as [s2 e2], w1 as [s1 e1].
    simpl in *. subst e2. f_equal. rewrite Hs2.
    assert (Set_add cb (Set_add cb cbs) = Set_add cb cbs) as ->.
    { unfold Set_add at 1. rewrite bool_decide_eq_true_2; [done|].
      unfold Set_add. case_bool_decide; [done|].
      apply elem_of_app. right. left. }
    rewrite (Map_set_same _ _ _ Hget1). by destruct s1. }
  intros Hnew Hnonempty. unfold unregister. fold k. rewrite Hget1.
  rewrite Set_delete_add by done.
  destruct w as [s e], w1 as [s1 e1]. simpl in *. subst e1.
  unfold cbs in *.
  destruct (Map_get k (sp_animationCallbacks s)) as [l|] eqn:Hl; simpl.
  - rewrite bool_decide_eq_false_2.
    2:{ destruct l; [done|]. simpl. lia. }
    unfold with_sprite. simpl. f_equal. rewrite Hs. simpl.
    rewrite Map_set_set, (Map_set_same _ _ _ Hl). by destruct s.
  - unfold with_sprite. simpl. f_equal. rewrite Hs. simpl.
    rewrite Map_delete_set, (Map_delete_absent _ _ Hl). by destruct s.
Qed.

Lemma X12_onEnd_register_unregister_witness :
  snd (onEnd player_walk_cb (NameStr "walk") on_walk_end) = player_walk_cb
  ∧ unregister player_walk_cb (NameStr "walk") on_walk_end = player_walk.
Proof.
  destruct (X12_onEnd_register_unregister player_walk (NameStr "walk")
              on_walk_end) as [_ Hok].
  destruct Hok as (_ & _ & _ & _ & Hidem & Hundo); [reflexivity|].
  split; [exact Hidem|]. apply Hundo.
  - intros H. by apply elem_of_nil in H.
  - done.
Defined.

(** ** After destroy *)

Lemma destroy_sprite w :
  w_sprite (destroy w)
  = set_spritesheets []
      (set_animationCallbacks [] (set_activeIntervals [] (w_sprite w))).
Proof. unfold destroy. by rewrite log_sprite. Qed.

(** X13: a destroyed sprite can no longer show or play anything: every
    [play] and [setFrame] on it returns false, so no timer can be started,
    whatever the arguments, and no [addAnimation] succeeds: it returns
    false, unless it throws because the name is new, no [frames] list is
    given and [end - start + 1] is 2^32 or more.  What [destroy] leaves in
    place is the list of animations with their [stopped] flags, the
    current frame and the (now dangling) current sheet id. *)
Theorem X13_destroyed_sprite_is_inert (w : World) :
  let w' := destroy w in
  (∀ fuel name loop, play fuel w' name loop = Some (false, logError "play" w'))
  ∧ (∀ index sid, fst (setFrame w' index sid) = false)
  ∧ (∀ o, fst (addAnimation w' o) ≠ Returned true
          ∧ (fst (addAnimation w' o) = RangeError
             ↔ find_animation (ao_name o) (sp_animations (w_sprite w)) = None
               ∧ ao_frames o = None
               ∧ ∃ end_, ao_end o = Some end_
                         ∧ 2 ^ 32 ≤ end_ - default 0 (ao_start o) + 1))
  ∧ sp_animations (w_sprite w') = sp_animations (w_sprite w)
  ∧ sp_currentFrame (w_sprite w') = sp_currentFrame (w_sprite w)
  ∧ sp_currentSpritesheetId (w_sprite w')
    = sp_currentSpritesheetId (w_sprite w)
  ∧ sp_background (w_sprite w') = sp_background (w_sprite w).
Proof.
  intros w'.
  assert (Hs : sp_spritesheets (w_sprite w') = []).
  { unfold w'. by rewrite destroy_sprite. }
  split.
  { intros fuel name loop. unfold play.
    destruct (find_animation _ _) as [[i a]|]; [|done].
    assert (getSpriteSheetForAnimation (w_sprite w') a = None) as ->; [|done].
    unfold getSpriteSheetForAnimation. rewrite Hs.
    destruct (truthy_opt_string _); [by destruct (anim_spritesheet a)|].
    destruct (sp_currentSpritesheetId _) as [cur|]; [|done].
    by rewrite andb_false_r. }
  split.
  { intros index sid. unfold setFrame. rewrite Hs.
    destruct (or_string _ _) as [t|]; [|done].
    by destruct (negb _). }
  split.
  { intros o.
    assert (Hanims : sp_animations (w_sprite w') = sp_animations (w_sprite w)).
    { unfold w'. by rewrite destroy_sprite. }
    pose proof (animation_frames_spec o) as Hspec. simpl in Hspec.
    unfold addAnimation. rewrite Hanims.
    destruct (find_animation _ _) eqn:Hfind.
    { simpl. split; [done|]. split; [done|]. by intros [? _]. }
    destruct (animation_frames o) as [frames| |].
    3:{ simpl. split; [done|]. split; [|done]. intros _. by split. }
    2:{ simpl. split; [done|]. split; [done|].
        intros (_ & _ & e & He & _). destruct Hspec. congruence. }
    assert (Hshort : ¬ (@None (nat * SpriteAnimation) = None
                        ∧ ao_frames o = None
                        ∧ ∃ end_, ao_end o = Some end_
                                  ∧ 2 ^ 32
                                    ≤ end_ - default 0 (ao_start o) + 1)).
    { intros (_ & Hnone & e & He & Hlong). rewrite Hnone in Hspec.
      destruct Hspec as (e' & He' & Hshort & _).
      assert (e' = e) by congruence. subst. lia. }
    assert (Hfalse : ∀ p : Completion * World,
              fst p = Returned false →
              fst p ≠ Returned true
              ∧ (fst p = RangeError
                 ↔ @None (nat * SpriteAnimation) = None
                   ∧ ao_frames o = None
                   ∧ ∃ end_, ao_end o = Some end_
                             ∧ 2 ^ 32
                               ≤ end_ - default 0 (ao_start o) + 1)).
    { intros p ->. split; [done|]. split; [done|]. intros H.
      by destruct (Hshort H). }
    apply Hfalse.
    assert (target_sheet (w_sprite w') (ao_spritesheet o) = None) as ->;
      [|done].
    unfold target_sheet, getSheet. rewrite Hs. simpl.
    assert (Hcur : match or_string None
                           (or_string (sp_currentSpritesheetId (w_sprite w'))
                                      None) with
                   | Some t => if truthy_string t then None else None
                   | None => None
                   end = @None SpriteSheet).
    { destruct (or_string _ _) as [t|]; [|done]. by destruct (truthy_string t). }
    destruct (ao_spritesheet o) as [id|]; [|exact Hcur].
    destruct (truthy_string id); [done|exact Hcur]. }
  unfold w'. by rewrite destroy_sprite.
Qed.

(** ** Removing the sheet of a running playback *)

(** X14: [removeSheet] does not reach a playback that is already running,
    not even one that runs on the removed sheet: the timer and its
    handler are as before, and the next tick shows the frame at the
    cursor from the sheet the handler captured when [play] was called.
    A new [play] of an animation bound to the removed id, however,
    returns false. *)
Theorem X14_removeSheet_spares_running_playback (fuel : nat) (w : World)
  (sheet_id : string) (id : handle) (c : Closure) (f : Z) :
  e_timers (w_env w) !! id = Some c →
  tk_frames c !! tk_frameIndex c = Some f →
  validateFrameIndex f (tk_spritesheet c) = true →
  let w1 := snd (removeSheet w sheet_id) in
  e_timers (w_env w1) !! id = Some c
  ∧ sp_activeIntervals (w_sprite w1) = sp_activeIntervals (w_sprite w)
  ∧ ((S (tk_frameIndex c) < length (tk_frames c))%nat
     ∨ tk_shouldLoop c = true →
     ∃ w2 css,
       tick fuel w1 id = Some w2
       ∧ sheet_cells (tk_spritesheet c) !! Z.to_nat f = Some css
       ∧ sp_background (w_sprite w2) = Some css
       ∧ sp_currentFrame (w_sprite w2) = Some f
       ∧ is_Some (e_timers (w_env w2) !! id))
  ∧ (∀ name loop i a,
       find_animation name (sp_animations (w_sprite w)) = Some (i, a) →
       anim_spritesheet a = Some sheet_id →
       truthy_string sheet_id = true →
       play fuel w1 name loop = Some (false, logError "play" w1)).
Proof.
  intros Hc Hf Hvalid w1.
  assert (Hw1 : e_timers (w_env w1) = e_timers (w_env w)
                ∧ sp_activeIntervals (w_sprite w1)
                  = sp_activeIntervals (w_sprite w)
                ∧ sp_animations (w_sprite w1) = sp_animations (w_sprite w)
                ∧ sp_spritesheets (w_sprite w1)
                  = Map_delete sheet_id (sp_spritesheets (w_sprite w))).
  { unfold w1, removeSheet, log. destruct w as [s e]. simpl.
    destruct (Map_has sheet_id (sp_spritesheets s)); simpl; [|done].
    destruct (sp_help s) eqn:Hhelp; simpl; rewrite ?Hhelp; simpl;
      by destruct (decide _). }
  destruct Hw1 as (Ht & Ha & Han & Hs).
  assert (Hc1 : e_timers (w_env w1) !! id = Some c) by by rewrite Ht.
  split; [done|]. split; [done|]. split.
  { intros Hcase.
    destruct (tick_valid_frame fuel w1 id c f Hc1 Hf Hvalid)
      as (css & Hcss & Htick).
    simpl in Htick. case_bool_decide as Hlt.
    - eexists _, css. split; [exact Htick|]. simpl.
      rewrite lookup_insert_eq. eauto.
    - destruct Hcase as [?|Hloop]; [done|]. rewrite Hloop in Htick.
      eexists _, css. split; [exact Htick|]. simpl.
      rewrite lookup_insert_eq. eauto. }
  intros name loop i a Hfind Hbound Hid. unfold play.
  rewrite Han, Hfind.
  assert (getSpriteSheetForAnimation (w_sprite w1) a = None) as ->; [|done].
  unfold getSpriteSheetForAnimation. rewrite Hbound. simpl.
  by rewrite Hid, Hs, Map_get_delete_eq.
Qed.

Lemma X14_removeSheet_spares_running_playback_witness :
  ∃ w2, tick 1 (snd (removeSheet player_walking "main"%string)) 1%positive
        = Some w2
        ∧ sp_spritesheets (w_sprite w2) = []
        ∧ sp_currentFrame (w_sprite w2) = Some 0
        ∧ sp_background (w_sprite w2)
          = Some "url('/player.png') 0px 0px"%string.
Proof.
  edestruct (X14_removeSheet_spares_running_playback 1 player_walking
               "main"%string 1%positive)
    as (_ & _ & Htick & _);
    [vm_compute; reflexivity|reflexivity|reflexivity|].
  destruct Htick as (w2 & css & Hw2 & Hcss & Hbg & Hframe & _);
    [left; simpl; lia|].
  exists w2. split; [exact Hw2|].
  split.
  { apply tick_keeps_sheets in Hw2 as [-> _]. reflexivity. }
  split; [exact Hframe|]. rewrite Hbg, <- Hcss. reflexivity.
Defined.

(** ** The log only grows *)

Lemma log_grows_refl w : log_grows w w.
Proof.
  split; [done|]. split; [done|]. intros r pa Hr. exists pa.
  split; [done|]. by split.
Qed.

Lemma log_grows_trans w1 w2 w3 :
  log_grows w1 w2 → log_grows w2 w3 → log_grows w1 w3.
Proof.
  intros (Hl1 & Hp1 & Hr1) (Hl2 & Hp2 & Hr2).
  split; [congruence|]. split; [by etrans|].
  intros r pa Hr. destruct (Hr1 r pa Hr) as (pa1 & Hpa1 & (Hn1 & Ht1 & Hlo1) & Hk1).
  destruct (Hr2 r pa1 Hpa1) as (pa2 & Hpa2 & (Hn2 & Ht2 & Hlo2) & Hk2).
  exists pa2. split; [done|]. split; [repeat split; congruence|].
  intros Hlen. specialize (Hk1 Hlen). subst pa1. by apply Hk2.
Qed.

Lemma log_grows_same w w' :
  sp_playedAnimations (w_sprite w') = sp_playedAnimations (w_sprite w) →
  e_arrays (w_env w') = e_arrays (w_env w) →
  e_records (w_env w') = e_records (w_env w) →
  log_grows w w'.
Proof.
  intros Hl Ha Hr. split; [done|]. unfold log_refs. rewrite Hl, Ha, Hr.
  split; [done|]. intros r pa Hpa. exists pa. split; [done|]. by split.
Qed.

Lemma log_grows_log w : log_grows w (log w).
Proof. apply log_grows_same; by rewrite ?log_sprite, ?log_env. Qed.

Lemma log_grows_stop_named w name : log_grows w (stop_named w name).
Proof.
  split; [by rewrite stop_named_sprite|].
  split; [by rewrite stop_named_keeps_log_refs|].
  intros r pa Hr. rewrite stop_named_env. simpl.
  assert (Hsame : ∃ pa', e_records (w_env w) !! r = Some pa'
                         ∧ same_but_length pa pa'
                         ∧ (truthy_num (pa_length pa) = true → pa' = pa)).
  { exists pa. split; [done|]. by split. }
  destruct (find_animation _ _) as [[i a]|]; [|exact Hsame].
  unfold backfill.
  destruct (find_played _ _ _) as [[r0 pa0]|] eqn:Hfind; [|exact Hsame].
  apply find_played_first in Hfind as (_ & _ & _ & Hr0 & Hun & _).
  destruct (decide (r0 = r)) as [->|Hne].
  - rewrite lookup_insert_eq. assert (pa0 = pa) as -> by congruence.
    eexists. split; [done|]. split; [done|].
    intros Hlen. unfold unfinished in Hun. rewrite Hlen in Hun.
    by rewrite andb_false_r in Hun.
  - by rewrite lookup_insert_ne.
Qed.

Lemma log_grows_stop_each ks : ∀ w, log_grows w (stop_each ks w).
Proof.
  unfold stop_each. induction ks as [|k ks IH]; intros w; simpl.
  { apply log_grows_refl. }
  eapply log_grows_trans; [|apply IH].
  destruct (Map_has k _); [apply log_grows_stop_named|apply log_grows_refl].
Qed.

Lemma log_grows_stop fuel w name w' :
  stop fuel w name = Some w' → log_grows w w'.
Proof.
  intros Hstop. destruct (truthy_name name) eqn:Hname.
  - destruct name as [n|]; [|done]. destruct fuel as [|fuel]; [done|].
    rewrite stop_truthy in Hstop by done. injection Hstop as <-.
    apply log_grows_stop_named.
  - apply stop_all_returns in Hstop; [|done]. subst w'. unfold stop_all.
    eapply log_grows_trans; [apply log_grows_stop_each|apply log_grows_log].
Qed.

Lemma log_grows_start_playback w1 name loop i a sh :
  log_grows w1 (start_playback w1 name loop i a sh).
Proof.
  destruct (start_playback_log w1 name loop i a sh) as [Hrefs Hrecs].
  split.
  { unfold start_playback. destruct w1 as [s [t ar r n tr]]; simpl.
    by rewrite !log_sprite. }
  split; [rewrite Hrefs; by apply prefix_app_r|].
  intros r pa Hr. rewrite Hrecs. exists pa.
  split; [|by split]. rewrite lookup_insert_ne; [done|].
  intros <-. pose proof (is_fresh (dom (e_records (w_env w1)))) as Hfresh.
  apply not_elem_of_dom in Hfresh. congruence.
Qed.

Lemma log_grows_emit w ev : log_grows w (with_env (emit ev) w).
Proof. by apply log_grows_same. Qed.

Lemma log_grows_stopped_state w name i :
  log_grows w (stopped_state w name i).
Proof.
  split; [done|]. split; [done|].
  intros r pa Hr. unfold stopped_state, backfill. simpl.
  destruct (find_played _ _ _) as [[r0 pa0]|] eqn:Hfind.
  2:{ exists pa. split; [done|]. by split. }
  apply find_played_first in Hfind as (_ & _ & _ & Hr0 & Hun & _).
  destruct (decide (r0 = r)) as [->|Hne].
  - rewrite lookup_insert_eq. assert (pa0 = pa) as -> by congruence.
    eexists. split; [done|]. split; [done|].
    intros Hlen. unfold unfinished in Hun. rewrite Hlen in Hun.
    by rewrite andb_false_r in Hun.
  - rewrite lookup_insert_ne by done. exists pa. split; [done|]. by split.
Qed.

Lemma log_grows_stop_named_with body w name :
  (∀ cb w0, log_grows w0 (body cb w0)) →
  log_grows w (stop_named_with body w name).
Proof.
  intros Hbody.
  destruct (find_animation name (sp_animations (w_sprite w)))
    as [[i a]|] eqn:Hfind.
  - rewrite (stop_named_with_found _ _ _ i a) by done.
    eapply log_grows_trans; [apply log_grows_stopped_state|].
    eapply log_grows_trans; [|apply log_grows_log].
    apply foldl_invoke_with_rel;
      [apply log_grows_refl|apply log_grows_trans|apply log_grows_emit|].
    intros cb w0 _. apply Hbody.
  - rewrite stop_named_with_not_found by done. apply log_grows_stop_named.
Qed.

(** The array itself, across callbacks that touch nothing. *)
Lemma log_refs_stop_named_with body w name :
  (∀ cb w0, unchanged w0 (body cb w0)) →
  log_refs (stop_named_with body w name) = log_refs w.
Proof.
  intros Hbody.
  destruct (find_animation name (sp_animations (w_sprite w)))
    as [[i a]|] eqn:Hfind.
  2:{ rewrite stop_named_with_not_found by done.
      apply stop_named_keeps_log_refs. }
  rewrite (stop_named_with_found _ _ _ i a) by done.
  pose proof (foldl_invoke_with_rel unchanged body
                (default [] (Map_get (String_of_name name)
                               (sp_animationCallbacks (w_sprite w))))
                unchanged_refl unchanged_trans unchanged_emit
                (λ cb w0 _, Hbody cb w0) (stopped_state w name i)) as Hloop.
  destruct (unchanged_trans _ _ _ Hloop (unchanged_log _))
    as (Hs & _ & Ha & _).
  unfold log_refs. by rewrite Hs, Ha.
Qed.

(** X15: the playback log is append-only.  Take end-callbacks that
    register and unregister no end-callback ([keeps_callbacks]) and that
    themselves never shorten the log nor rewrite a record, as is the case
    when they call the library's own functions other than [destroy].
    Then [stop] of a truthy name, [play] of a truthy name and every tick
    of a handler with a truthy name leave every entry of the log in
    place, remove no record object, change no name, timestamp or loop
    flag, and write to no record whose length is already non-zero.  A
    [play] that fails leaves the array as it is; one that succeeds ends
    with the log holding, as its last entry, a new record of length 0.
    When the callbacks touch neither the sprite nor the page, [stop] and
    ticks leave the array as it is and a successful [play] appends exactly
    one record.  The same holds for [stop] with any name, the stop-all
    branch included, on a sprite without end-callbacks. *)
Theorem X15_log_is_append_only (body : Callback → World → World)
  (w : World) :
  (keeps_callbacks body →
   (∀ cb w0, log_grows w0 (body cb w0)) →
   (∀ name, truthy_name (Some name) = true →
            log_grows w (stop_named_with body w name))
   ∧ (∀ id c, e_timers (w_env w) !! id = Some c →
              truthy_name (Some (tk_animationName c)) = true →
              log_grows w (tick_with body w id))
   ∧ (∀ name loop,
        truthy_name (Some name) = true →
        let w' := snd (play_with body w name loop) in
        log_grows w w'
        ∧ if fst (play_with body w name loop)
          then ∃ older r,
                 log_refs w' = log_refs w ++ older ++ [r]
                 ∧ e_records (w_env w) !! r = None
                 ∧ (pa_length <$> e_records (w_env w') !! r) = Some 0
          else log_refs w' = log_refs w))
  ∧ ((∀ cb w0, unchanged w0 (body cb w0)) →
     (∀ name, truthy_name (Some name) = true →
              log_refs (stop_named_with body w name) = log_refs w)
     ∧ (∀ id c, e_timers (w_env w) !! id = Some c →
                truthy_name (Some (tk_animationName c)) = true →
                log_refs (tick_with body w id) = log_refs w)
     ∧ (∀ name loop,
          truthy_name (Some name) = true →
          fst (play_with body w name loop) = true →
          ∃ r, log_refs (snd (play_with body w name loop))
               = log_refs w ++ [r]))
  ∧ (sp_animationCallbacks (w_sprite w) = [] →
     ∀ fuel name w', stop fuel w name = Some w' →
                     log_grows w w' ∧ log_refs w' = log_refs w).
Proof.
  split; [|split].
  - intros _ Hbody.
    split; [intros name _; by apply log_grows_stop_named_with|].
    split.
    + intros id c Hc _. unfold tick_with. rewrite Hc.
      assert (Hinvalid :
                log_grows w (stop_named_with body (logError "play" w)
                                             (tk_animationName c))).
      { eapply log_grows_trans; [|by apply log_grows_stop_named_with].
        apply log_grows_emit. }
      destruct (tk_frames c !! tk_frameIndex c) as [f|]; [|exact Hinvalid].
      destruct (negb _); [exact Hinvalid|].
      assert (Hshown : ∀ k,
                log_grows w
                  (with_env
                     (λ e, set_timers
                             (<[id := set_frameIndex k c]> (e_timers e)) e)
                     (with_sprite
                        (λ s, set_currentFrame (Some f)
                                (set_background
                                   (sheet_cells (tk_spritesheet c)
                                      !! Z.to_nat f) s)) w)))
        by (intros k; by apply log_grows_same).
      case_bool_decide; [|apply Hshown].
      destruct (tk_shouldLoop c); [apply Hshown|].
      eapply log_grows_trans; [apply (Hshown (S (tk_frameIndex c)))|].
      eapply log_grows_trans; [|apply log_grows_log].
      by apply log_grows_stop_named_with.
    + intros name loop _. unfold play_with.
      destruct (find_animation _ _) as [[i a]|];
        [|simpl; split; [by apply log_grows_same|done]].
      destruct (getSpriteSheetForAnimation _ _) as [sh|];
        [|simpl; split; [by apply log_grows_same|done]].
      cbn [fst snd].
      pose proof (log_grows_stop_named_with body w name Hbody) as Hstop.
      destruct (start_playback_log (stop_named_with body w name)
                  name loop i a sh) as [Hrefs Hrecs].
      split.
      { eapply log_grows_trans; [exact Hstop|].
        apply log_grows_start_playback. }
      destruct Hstop as (_ & [older Holder] & Hkeep).
      exists older, (fresh (dom (e_records
                                   (w_env (stop_named_with body w name))))).
      rewrite Hrefs, Hrecs, Holder, lookup_insert_eq, <- app_assoc.
      split; [done|]. split; [|done].
      destruct (e_records (w_env w) !! _) as [pa|] eqn:Hr; [|done].
      destruct (Hkeep _ pa Hr) as (pa' & Hpa' & _).
      pose proof (is_fresh (dom (e_records
                                   (w_env (stop_named_with body w name)))))
        as Hfresh.
      apply not_elem_of_dom in Hfresh. congruence.
  - intros Hbody.
    split; [intros name _; by apply log_refs_stop_named_with|]. split.
    + intros id c Hc _. unfold tick_with. rewrite Hc.
      assert (Hinvalid :
                log_refs (stop_named_with body (logError "play" w)
                                          (tk_animationName c))
                = log_refs w)
        by by rewrite log_refs_stop_named_with.
      destruct (tk_frames c !! tk_frameIndex c) as [f|]; [|exact Hinvalid].
      destruct (negb _); [exact Hinvalid|].
      case_bool_decide; [|done].
      destruct (tk_shouldLoop c); [done|].
      transitivity (log_refs (stop_named_with body
                      (with_env
                         (λ e, set_timers
                                 (<[id := set_frameIndex
                                            (S (tk_frameIndex c)) c]>
                                    (e_timers e)) e)
                         (with_sprite
                            (λ s, set_currentFrame (Some f)
                                    (set_background
                                       (sheet_cells (tk_spritesheet c)
                                          !! Z.to_nat f) s)) w))
                      (tk_animationName c))).
      { unfold log_refs. by rewrite log_env, log_sprite. }
      by rewrite log_refs_stop_named_with.
    + intros name loop _. unfold play_with.
      destruct (find_animation _ _) as [[i a]|]; [|done].
      destruct (getSpriteSheetForAnimation _ _) as [sh|]; [|done].
      cbn [fst snd]. intros _.
      destruct (start_playback_log (stop_named_with body w name)
                  name loop i a sh) as [Hrefs _].
      eexists. rewrite Hrefs. by rewrite log_refs_stop_named_with.
  - intros _ fuel name w' Hstop. split; [by eapply log_grows_stop|].
    by eapply stop_keeps_log_refs.
Qed.

(** With the README's callback, [stop(sprite, 'attack')] appends the
    record of the playback of 'idle' that the callback starts. *)
Lemma X15_log_is_append_only_witness :
  let w' := stop_named_with return_to_idle player_attack (NameStr "attack") in
  log_grows player_attack w'
  ∧ playedAnimations player_attack = []
  ∧ playedAnimations w' = [mkPlayed "idle" 1000 0 false].
Proof.
  intros w'.
  destruct (X15_log_is_append_only return_to_idle player_attack)
    as [Hgrows _].
  destruct (Hgrows return_to_idle_keeps_callbacks) as (Hstop & _).
  { intros cb w0. unfold return_to_idle, play_with.
    destruct (find_animation _ _) as [[i a]|];
      [|by apply log_grows_same].
    destruct (getSpriteSheetForAnimation _ _) as [sh|];
      [|by apply log_grows_same].
    simpl. eapply log_grows_trans; [|apply log_grows_start_playback].
    apply log_grows_stop_named. }
  split; [by apply Hstop|]. split; vm_compute; reflexivity.
Defined.

(** ** Stop-all and names that are numbers *)

Lemma stop_named_number_names w k i a z :
  sp_animations (w_sprite w) !! i = Some a →
  anim_name a = NameNum z →
  sp_animations (w_sprite (stop_named w (NameStr k))) !! i = Some a.
Proof.
  intros Hi Hz. rewrite stop_named_sprite. simpl.
  destruct (find_animation _ _) as [[i0 a0]|] eqn:Hfind; [|done].
  apply find_animation_lookup in Hfind as [Hi0 Hn0].
  rewrite list_lookup_alter_ne; [done|]. intros ->. congruence.
Qed.

Lemma stop_each_number_names ks :
  ∀ w i a z,
    sp_animations (w_sprite w) !! i = Some a →
    anim_name a = NameNum z →
    sp_animations (w_sprite (stop_each ks w)) !! i = Some a.
Proof.
  unfold stop_each. induction ks as [|k ks IH]; intros w i a z Hi Hz; simpl;
    [done|].
  apply (IH _ i a z); [|done].
  destruct (Map_has k _); [|done]. by apply (stop_named_number_names _ _ _ _ z).
Qed.

Lemma stop_each_unnamed ks :
  ∀ w,
    (∀ k, Map_has k (sp_activeIntervals (w_sprite w)) = true →
          find_animation (NameStr k) (sp_animations (w_sprite w)) = None) →
    sp_animations (w_sprite (stop_each ks w)) = sp_animations (w_sprite w)
    ∧ e_records (w_env (stop_each ks w)) = e_records (w_env w)
    ∧ ∃ evs, e_trace (w_env (stop_each ks w)) = e_trace (w_env w) ++ evs
             ∧ callbacks_in evs = [].
Proof.
  unfold stop_each. induction ks as [|k ks IH]; intros w Hnone; simpl.
  { split; [done|]. split; [done|]. exists []. by rewrite app_nil_r. }
  destruct (Map_has k (sp_activeIntervals (w_sprite w))) eqn:Hhas;
    [|by apply IH].
  pose proof (Hnone k Hhas) as Hfind.
  assert (Hs : sp_animations (w_sprite (stop_named w (NameStr k)))
               = sp_animations (w_sprite w)).
  { rewrite stop_named_sprite. simpl. by rewrite Hfind. }
  destruct (IH (stop_named w (NameStr k))) as (Ha & Hr & evs & Ht & Hcb).
  { intros k' Hk'. rewrite Hs. apply Hnone.
    rewrite stop_named_sprite in Hk'. simpl in Hk'.
    by apply Map_has_delete in Hk' as [_ ?]. }
  rewrite Ha, Hr, Ht, Hs, stop_named_env. simpl. rewrite Hfind.
  split; [done|]. split; [done|].
  exists (stop_named_events w (NameStr k) ++ evs).
  split; [by rewrite app_assoc|].
  by rewrite callbacks_in_app, stop_named_callbacks, Hfind, Hcb.
Qed.

(** X16: the stop-all branch of [stop] (no name, or a falsy one) passes
    the keys of [activeIntervals], which are strings, back to [stop].  An
    animation whose name is a number is therefore never found by it: its
    [stopped] flag and every other field stay as they were, although its
    timer is cleared.  More generally, when no active key is the name of
    an animation, a stop-all that returns changes no animation, writes no
    length into the log and calls no end-callback. *)
Theorem X16_stop_all_misses_number_names (fuel : nat) (w w' : World)
  (name : option AnimName) :
  truthy_name name = false →
  stop fuel w name = Some w' →
  sp_activeIntervals (w_sprite w') = []
  ∧ (∀ i a z,
       sp_animations (w_sprite w) !! i = Some a →
       anim_name a = NameNum z →
       sp_animations (w_sprite w') !! i = Some a)
  ∧ ((∀ k, Map_has k (sp_activeIntervals (w_sprite w)) = true →
           find_animation (NameStr k) (sp_animations (w_sprite w)) = None) →
     sp_animations (w_sprite w') = sp_animations (w_sprite w)
     ∧ e_records (w_env w') = e_records (w_env w)
     ∧ callbacks_in (new_events w w') = []).
Proof.
  intros Hname Hstop. apply stop_all_returns in Hstop; [|done]. subst w'.
  split; [apply stop_all_active|]. unfold stop_all. split.
  { intros i a z Hi Hz. rewrite log_sprite.
    by apply (stop_each_number_names _ _ _ _ z). }
  intros Hnone.
  destruct (stop_each_unnamed (Map_keys (sp_activeIntervals (w_sprite w)))
              w Hnone) as (Ha & Hr & evs & Ht & Hcb).
  rewrite log_sprite, log_env. simpl. split; [done|]. split; [done|].
  erewrite new_events_app.
  2:{ rewrite log_env. simpl. rewrite Ht, <- app_assoc. reflexivity. }
  by rewrite callbacks_in_app, Hcb, callbacks_in_log.
Qed.

Lemma X16_stop_all_misses_number_names_witness :
  Map_get "5"%string (sp_animationCallbacks (w_sprite player_five_playing))
  = Some [on_walk_end]
  ∧ ∃ w', stop 2 player_five_playing None = Some w'
          ∧ sp_activeIntervals (w_sprite w') = []
          ∧ (anim_stopped <$> sp_animations (w_sprite w') !! 0%nat)
            = Some false
          ∧ (pa_length <$> playedAnimations w') = [0]
          ∧ callbacks_in (new_events player_five_playing w') = [].
Proof.
  split; [vm_compute; reflexivity|].
  assert (Hs : ∃ w', stop 2 player_five_playing None = Some w')
    by (eexists; vm_compute; reflexivity).
  destruct Hs as [w' Hs]. exists w'. split; [exact Hs|].
  destruct (X16_stop_all_misses_number_names 2 player_five_playing w' None
              eq_refl Hs) as (Hactive & Hnum & Hrest).
  split; [exact Hactive|]. split.
  { rewrite (Hnum 0%nat (mkAnim (NameNum 5) 0 2 [0; 1; 2] 100 false false None)
               5); [reflexivity|vm_compute; reflexivity|reflexivity]. }
  destruct Hrest as (_ & Hrec & Hcb).
  { intros k _. reflexivity. }
  split; [|exact Hcb].
  unfold playedAnimations. rewrite Hrec, (stop_keeps_log_refs _ _ _ _ Hs).
  vm_compute. reflexivity.
Defined.

(** ** An animation named by the empty string *)

Lemma string_of_Z_nonempty z : string_of_Z z ≠ EmptyString.
Proof.
  unfold string_of_Z. destruct (Z.to_int z) as [d|d]; simpl; [|done].
  by destruct d.
Qed.

(** X17: a [play] of the animation named by the empty string that
    succeeds registers the playback under the key ''.  From that moment
    every call that takes the stop-all branch fails to return: [stop]
    without a name or with a falsy one, [play] of an animation with a
    falsy name, and the tick that ends a playback with a falsy name
    (natural completion or a frame out of range) all re-enter the
    stop-all branch on the key '' without bound.  [stop] with a truthy
    name still returns and leaves the key '' in place; [destroy], which
    does not call [stop], removes it. *)
Theorem X17_empty_name_blocks_stop_all (fuel : nat) (w : World) :
  (∀ loop w',
     play fuel w (NameStr EmptyString) loop = Some (true, w') →
     Map_has EmptyString (sp_activeIntervals (w_sprite w')) = true)
  ∧ (Map_has EmptyString (sp_activeIntervals (w_sprite w)) = true →
     (∀ name, truthy_name name = false → stop fuel w name = None)
     ∧ (∀ name loop i a sh,
          find_animation name (sp_animations (w_sprite w)) = Some (i, a) →
          getSpriteSheetForAnimation (w_sprite w) a = Some sh →
          truthy_name (Some name) = false →
          play fuel w name loop = None)
     ∧ (∀ id c,
          e_timers (w_env w) !! id = Some c →
          truthy_name (Some (tk_animationName c)) = false →
          match tk_frames c !! tk_frameIndex c with
          | Some f =>
              validateFrameIndex f (tk_spritesheet c) = false
              ∨ ((length (tk_frames c) ≤ S (tk_frameIndex c))%nat
                 ∧ tk_shouldLoop c = false)
          | None => True
          end →
          tick fuel w id = None)
     ∧ (∀ n, truthy_name (Some n) = true →
             ∃ w', stop (S fuel) w (Some n) = Some w'
                   ∧ Map_has EmptyString (sp_activeIntervals (w_sprite w'))
                     = true)
     ∧ sp_activeIntervals (w_sprite (destroy w)) = []).
Proof.
  split.
  { intros loop w' Hplay. unfold play in Hplay.
    destruct (find_animation _ _) as [[i a]|]; [|done].
    destruct (getSpriteSheetForAnimation _ _) as [sh|]; [|done].
    destruct (stop fuel w _) as [w1|]; [|done].
    injection Hplay as <-. rewrite start_playback_active.
    apply Map_has_set. by left. }
  intros Hhas. split.
  { intros name Hname. by apply stop_all_diverges. }
  split.
  { intros name loop i a sh Hfind Hsh Hname.
    by apply (play_diverges _ _ _ _ i a sh). }
  split.
  { intros id c Hc Hname Hcase. unfold tick. rewrite Hc.
    assert (Hinvalid :
              stop fuel (logError "play" w) (Some (tk_animationName c))
              = None) by by apply stop_all_diverges.
    destruct (tk_frames c !! tk_frameIndex c) as [f|]; [|done].
    destruct Hcase as [Hf|[Hlen Hloop]].
    { by rewrite Hf. }
    destruct (negb (validateFrameIndex f (tk_spritesheet c))); [done|].
    rewrite bool_decide_eq_true_2, Hloop by done.
    by rewrite stop_all_diverges. }
  split.
  { intros n Hn. eexists. split; [by apply stop_truthy|].
    rewrite stop_named_sprite. simpl. apply Map_has_delete. split; [|done].
    intros Heq. destruct n as [s|z]; simpl in *.
    - by rewrite <- Heq in Hn.
    - by apply (string_of_Z_nonempty z). }
  by rewrite destroy_sprite.
Qed.

Lemma X17_empty_name_blocks_stop_all_witness :
  fst (addAnimation player_sheet blank_options) = Returned true
  ∧ play 2 player_blank (NameStr EmptyString) None
    = Some (true, player_blank_playing)
  ∧ stop 1000 player_blank_playing None = None
  ∧ stop 1000 player_blank_playing (Some (NameStr EmptyString)) = None.
Proof.
  split; [vm_compute; reflexivity|]. split; [vm_compute; reflexivity|].
  destruct (X17_empty_name_blocks_stop_all 1000 player_blank_playing)
    as [_ Hblocked].
  destruct Hblocked as (Hstop & _); [vm_compute; reflexivity|].
  split; apply Hstop; reflexivity.
Defined.

(** ** Playbacks under different names *)

(** X18: playbacks registered under different names do not disturb each
    other through the library's own code.  With every live timer held by
    exactly one name, take a truthy name whose end-callbacks register
    and unregister no end-callback ([keeps_callbacks]) and leave the
    entry of another name in [activeIntervals], and the handler behind
    it, alone (or that has none).  Then a [play] of that name, whether it
    succeeds or not, and every tick of its handler, including the one
    that ends the playback, leave that entry and that handler, cursor
    included, exactly as they were. *)
Theorem X18_playbacks_are_independent (body : Callback → World → World)
  (w : World) (name : AnimName) (k : string) (id : handle) :
  timers_registered w →
  truthy_name (Some name) = true →
  k ≠ String_of_name name →
  Map_get k (sp_activeIntervals (w_sprite w)) = Some id →
  keeps_callbacks body →
  (∀ cb w0,
     cb ∈ default [] (Map_get (String_of_name name)
                              (sp_animationCallbacks (w_sprite w))) →
     Map_get k (sp_activeIntervals (w_sprite (body cb w0)))
     = Map_get k (sp_activeIntervals (w_sprite w0))
     ∧ e_timers (w_env (body cb w0)) !! id = e_timers (w_env w0) !! id) →
  (∀ loop,
     Map_get k (sp_activeIntervals
                  (w_sprite (snd (play_with body w name loop)))) = Some id
     ∧ e_timers (w_env (snd (play_with body w name loop))) !! id
       = e_timers (w_env w) !! id)
  ∧ (∀ id0 c,
       Map_get (String_of_name name) (sp_activeIntervals (w_sprite w))
       = Some id0 →
       e_timers (w_env w) !! id0 = Some c →
       tk_animationName c = name →
       Map_get k (sp_activeIntervals (w_sprite (tick_with body w id0)))
       = Some id
       ∧ e_timers (w_env (tick_with body w id0)) !! id
         = e_timers (w_env w) !! id).
Proof.
  intros Hinv Hname Hk Hid _ Hbody.
  set (kept := λ w0 w1 : World,
         Map_get k (sp_activeIntervals (w_sprite w1))
         = Map_get k (sp_activeIntervals (w_sprite w0))
         ∧ e_timers (w_env w1) !! id = e_timers (w_env w0) !! id).
  assert (Hrefl : ∀ w0, kept w0 w0) by done.
  assert (Htrans : ∀ w1 w2 w3, kept w1 w2 → kept w2 w3 → kept w1 w3).
  { intros w1 w2 w3 [H1 H2] [H3 H4]. split; congruence. }
  assert (Hemit : ∀ w0 ev, kept w0 (with_env (emit ev) w0)) by done.
  assert (Hlog : ∀ w0, kept w0 (log w0)).
  { intros w0. unfold kept. by rewrite log_sprite, log_env. }
  (* [stop] of the name, from any state that agrees with [w] on the
     entries of the two names and on the callbacks of the name *)
  assert (Hstop : ∀ w0,
            Map_get (String_of_name name) (sp_activeIntervals (w_sprite w0))
            ≠ Some id →
            sp_animationCallbacks (w_sprite w0)
            = sp_animationCallbacks (w_sprite w) →
            kept w0 (stop_named_with body w0 name)).
  { intros w0 Hother Hcbs.
    destruct (find_animation name (sp_animations (w_sprite w0)))
      as [[i a]|] eqn:Hfind.
    - rewrite (stop_named_with_found _ _ _ i a) by done.
      eapply Htrans; [|apply Hlog].
      eapply (Htrans _ (stopped_state w0 name i)).
      + unfold kept, stopped_state. simpl.
        split; [by rewrite Map_get_delete_ne|].
        destruct (Map_get (String_of_name name)
                          (sp_activeIntervals (w_sprite w0))) as [old|];
          [|done].
        rewrite lookup_delete_ne; [done|]. congruence.
      + apply foldl_invoke_with_rel; [done|done|done|].
        rewrite Hcbs. exact Hbody.
    - rewrite stop_named_with_not_found by done.
      unfold kept. rewrite stop_named_sprite, stop_named_env. simpl.
      split; [by rewrite Map_get_delete_ne|].
      destruct (Map_get (String_of_name name)
                        (sp_activeIntervals (w_sprite w0))) as [old|];
        [|done].
      rewrite lookup_delete_ne; [done|]. congruence. }
  assert (Hown : Map_get (String_of_name name)
                         (sp_activeIntervals (w_sprite w)) ≠ Some id).
  { intros Hsame. destruct Hinv as [_ Huniq].
    by specialize (Huniq _ _ _ Hid Hsame). }
  split.
  { intros loop. unfold play_with.
    destruct (find_animation _ _) as [[i a]|]; [|done].
    destruct (getSpriteSheetForAnimation _ _) as [sh|]; [|done].
    cbn [fst snd].
    destruct (Hstop w Hown eq_refl) as [Hk1 Ht1].
    rewrite start_playback_active, start_playback_timers.
    split; [rewrite Map_get_set_ne by done; by rewrite Hk1|].
    rewrite lookup_insert_ne; [done|]. intros Hfresh.
    pose proof (is_fresh (dom (e_timers
                                 (w_env (stop_named_with body w name)))))
      as Hnot.
    apply not_elem_of_dom in Hnot. rewrite Hfresh, Ht1 in Hnot.
    destruct Hinv as [Hlive _].
    assert (is_Some (e_timers (w_env w) !! id)) as [c Hc]
      by (apply Hlive; eauto).
    congruence. }
  intros id0 c Hid0 Hc Hcn.
  assert (Hne : id ≠ id0) by congruence.
  assert (Hgoal : ∀ w1, kept w w1 →
            Map_get k (sp_activeIntervals (w_sprite w1)) = Some id
            ∧ e_timers (w_env w1) !! id = e_timers (w_env w) !! id).
  { intros w1 [H1 H2]. split; congruence. }
  apply Hgoal. unfold tick_with. rewrite Hc, Hcn.
  assert (Hinvalid : kept w (stop_named_with body (logError "play" w) name)).
  { eapply Htrans; [apply (Hemit w (EvError "play"))|]. by apply Hstop. }
  destruct (tk_frames c !! tk_frameIndex c) as [f|]; [|exact Hinvalid].
  destruct (negb _); [exact Hinvalid|].
  assert (Hshown : ∀ j,
            kept w
              (with_env
                 (λ e, set_timers
                         (<[id0 := set_frameIndex j c]> (e_timers e)) e)
                 (with_sprite
                    (λ s, set_currentFrame (Some f)
                            (set_background
                               (sheet_cells (tk_spritesheet c)
                                  !! Z.to_nat f) s)) w))).
  { intros j. unfold kept. simpl. by rewrite lookup_insert_ne. }
  case_bool_decide; [|apply Hshown].
  destruct (tk_shouldLoop c); [apply Hshown|].
  eapply Htrans; [apply (Hshown (S (tk_frameIndex c)))|].
  eapply Htrans; [|apply Hlog]. by apply Hstop.
Qed.

Lemma X18_playbacks_are_independent_witness :
  let w' := snd (play_with inert player_walk_idle (NameStr "idle") None) in
  fst (play_with inert player_walk_idle (NameStr "idle") None) = true
  ∧ Map_get "walk"%string (sp_activeIntervals (w_sprite w'))
    = Some 1%positive
  ∧ (tk_frames <$> e_timers (w_env w') !! 1%positive) = Some [0; 1; 2].
Proof.
  intros w'. split; [reflexivity|].
  assert (Hinv0 : timers_registered
                    (snd (addAnimation player_walk idle_options))).
  { split.
    - intros id. split; [intros [c Hc]; done|intros [k Hk]; done].
    - intros k1 k2 id Hk. done. }
  assert (Hinv : timers_registered player_walk_idle).
  { apply (timers_registered_play 1 _ (NameStr "walk") None true _ Hinv0).
    vm_compute. reflexivity. }
  destruct (X18_playbacks_are_independent inert player_walk_idle
              (NameStr "idle") "walk"%string 1%positive Hinv eq_refl)
    as [Hplay _];
    [done|reflexivity|apply inert_keeps_callbacks|done|].
  destruct (Hplay None) as [Hk Ht]. split; [exact Hk|].
  apply (f_equal (fmap tk_frames)) in Ht. etrans; [exact Ht|].
  vm_compute. reflexivity.
Defined.

(** ** The length that [stop] records *)









